(** * AutoUIPlatform: execution scheduler, step replay driver and recording
      session manager

    A shallow embedding of three Go packages of the backend:

    - [chrome]    (pkg/chrome): locating the browser executable;
    - [recorder]  (pkg/recorder): [ChromeRecorder] and [RecorderManager];
    - [executor]  (internal/executor): [TestExecutor], its worker pool and
                  [executeTestCase], the step replay driver.

    Go values are embedded as follows.  An [error] is [option string]: [None]
    is [nil], [Some m] an error whose [Error()] text is [m].  [int] is a
    64-bit integer carried in [Z]; the one product the code computes on a
    caller-supplied [int] is wrapped explicitly ([wrap_int]).  A
    [map[K]V] is a [gmap].  Everything the packages ask of the operating
    system, the clock and the chromedp library is an operation of the class
    [World]: a state [W] is threaded through every call, so that successive
    calls may answer differently.  The loop counters of the code stay below
    the length of a slice and are not wrapped.  What the Go runtime fixes,
    the largest buffer it makes for a channel of jobs, is the parameter of
    the class [Runtime]. *)

From stdpp Require Import gmap strings pretty list.

Open Scope string_scope.
Open Scope list_scope.
Open Scope Z_scope.

(** ** Go basics *)

Definition error := option string.

(** The state monad used for code that talks to the outside world. *)
Definition M (W A : Type) : Type := W → A * W.

Definition ret {W A} (a : A) : M W A := λ w, (a, w).

Definition bind {W A B} (m : M W A) (k : A → M W B) : M W B :=
  λ w, let (a, w') := m w in k a w'.

Notation "'let*' x ':=' m 'in' k" := (bind m (λ x, k))
  (at level 10, x pattern, m at level 100, k at level 200, only parsing).
Notation "'do' m 'in' k" := (bind m (λ _, k))
  (at level 10, m at level 100, k at level 200, only parsing).

(** [int] arithmetic: the value of a 64-bit two's complement result. *)
Definition max_int : Z := 2 ^ 63 - 1.
Definition min_int : Z := - 2 ^ 63.
Definition wrap_int (z : Z) : Z := (z + 2 ^ 63) `mod` 2 ^ 64 - 2 ^ 63.

(** [strings.Contains]. *)
Definition strings_Contains (s substr : string) : bool :=
  match String.index 0 substr s with Some _ => true | None => false end.

(** A decoded JSON value held in an [interface{}]; the number type is left
    abstract together with its [%f] formatting. *)
Class Float64 := {
  float64 : Type;
  sprintf_f : float64 → string
}.

#[warnings="-register-all"]
Inductive iface `{Float64} : Type :=
| INil
| IBool (b : bool)
| IFloat64 (f : float64)
| IString (s : string)
| IArray (l : list iface)
| IObject (l : list (string * iface)).

(** ** chromedp vocabulary *)

Module chromedp.

Inductive FlagValue := FBool (b : bool) | FString (s : string).

Inductive ExecAllocatorOption :=
| ExecPath (path : string)
| Flag (name : string) (value : FlagValue)
| WindowSize (width height : Z)
| UserAgent (ua : string).

Inductive Action :=
| EmulateViewport (width height : Z)
| Navigate (url : string)
| Sleep (milliseconds : Z)
| WaitReady (sel : string)
| WaitVisible (sel : string)
| Click (sel : string)
| Clear (sel : string)
| SendKeys (sel v : string)
| KeyEvent (keys : string)
| Evaluate (expression : string)
| SetValue (sel v : string)
| Submit (sel : string)
| Title
| Location
| CaptureScreenshot.

End chromedp.

(** A [context.Context] is a handle; its [CancelFunc] is named by the same
    handle. *)
Definition Ctx := nat.

(** What the packages consume from outside.  [time_Now] is [time.Now()] in
    nanoseconds since the Unix epoch and [time_Format] its
    [Format("20060102_150405")].  [chromedp_Run ctx actions] returns the
    error of the run and the text the run stored through the result pointer
    of its last action, when it has one. *)
Class World (W : Type) := {
  runtime_GOOS : string;
  os_Stat : string → M W error;
  os_MkdirAll : string → M W error;
  ioutil_WriteFile : string → string → M W error;
  exec_LookPath : string → M W (string * error);
  exec_Command_Output : string → list string → M W (string * error);
  time_Now : M W N;
  time_Format : N → string;
  filepath_Join : string → string → string;
  chromedp_DefaultExecAllocatorOptions : list chromedp.ExecAllocatorOption;
  chromedp_NewExecAllocator : list chromedp.ExecAllocatorOption → M W Ctx;
  chromedp_NewContext : Ctx → M W Ctx;
  context_WithTimeout : Ctx → Z → M W Ctx;
  context_cancel : Ctx → M W unit;
  chromedp_Run : Ctx → list chromedp.Action → M W (error * string)
}.

(** ** Package chrome *)

Module chrome.
Section chrome.
Context `{World W}.

Definition chromePaths : list string :=
  if String.eqb runtime_GOOS "linux" then
    [ "/usr/bin/google-chrome-stable";
      "/usr/bin/google-chrome";
      "/usr/bin/chromium-browser";
      "/usr/bin/chromium";
      "/snap/bin/chromium";
      "/opt/google/chrome/google-chrome" ]
  else if String.eqb runtime_GOOS "darwin" then
    [ "/Applications/Google Chrome.app/Contents/MacOS/Google Chrome";
      "/Applications/Chromium.app/Contents/MacOS/Chromium" ]
  else if String.eqb runtime_GOOS "windows" then
    [ "C:\Program Files\Google\Chrome\Application\chrome.exe";
      "C:\Program Files (x86)\Google\Chrome\Application\chrome.exe";
      "C:\Users\%USERNAME%\AppData\Local\Google\Chrome\Application\chrome.exe" ]
  else [].

(** The first of [paths] that [os.Stat] accepts. *)
Fixpoint firstExisting (paths : list string) : M W (option string) :=
  match paths with
  | [] => ret None
  | path :: rest =>
      let* err := os_Stat path in
      match err with
      | None => ret (Some path)
      | Some _ => firstExisting rest
      end
  end.

(** The first of [names] that [exec.LookPath] resolves. *)
Fixpoint firstInPATH (names : list string) : M W (option string) :=
  match names with
  | [] => ret None
  | name :: rest =>
      let* (path, err) := exec_LookPath name in
      match err with
      | None => ret (Some path)
      | Some _ => firstInPATH rest
      end
  end.

Definition isFlatpakChromeAvailable : M W bool :=
  let* (_, err) := exec_LookPath "flatpak" in
  match err with
  | Some _ => ret false
  | None =>
      let* (output, err) := exec_Command_Output "flatpak"
                              ["list"; "--app"; "--columns=application"] in
      match err with
      | Some _ => ret false
      | None =>
          ret (strings_Contains output "com.google.Chrome"
               || strings_Contains output "org.chromium.Chromium")
      end
  end.

Definition GetChromePath : M W string :=
  let* found := firstExisting chromePaths in
  match found with
  | Some path => ret path
  | None =>
      let* found := firstInPATH
        ["google-chrome"; "google-chrome-stable"; "chromium-browser"; "chromium"] in
      match found with
      | Some path => ret path
      | None =>
          let* flatpak := isFlatpakChromeAvailable in
          if flatpak
          then ret "/home/ryan.rr.penn/Documents/Dev/GoProject/src/AutoUIPlatform/backend/scripts/chrome-flatpak-wrapper.sh"
          else ret ""
      end
  end.

Definition IsChromeAvailable : M W bool :=
  let* path := GetChromePath in
  ret (negb (String.eqb path "")).

End chrome.
End chrome.

(** ** Package recorder *)

Module recorder.

Record DeviceInfo := {
  Width : Z;
  Height : Z;
  UserAgent : string
}.

Record RecordStep `{Float64} := {
  Type_ : string;
  Selector : string;
  Value : string;
  Coordinates : gmap string iface;
  Options : gmap string iface;
  Timestamp : Z;
  Screenshot : string
}.

(** [ChromeRecorder] without its mutex: every method holds the mutex from
    entry to return, so a method is one atomic state change of the recorder.
    [wsConn] is a connection handle. *)
Record ChromeRecorder `{Float64} := {
  ctx : option Ctx;
  cancel : option Ctx;
  isRecording : bool;
  steps : list RecordStep;
  wsConn : option nat;
  deviceInfo : DeviceInfo;
  sessionID : string;
  targetURL : string
}.

(** [RecorderManager]: the registry.  A pointer to a [ChromeRecorder] is created by
    [StartRecording] and stored under one key only, so the map holds the
    recorder itself and a method call through the stored pointer rewrites
    the entry. *)
Record RecorderManager `{Float64} := {
  recorders : gmap string ChromeRecorder
}.

Section recorder.
Context `{Float64} `{World W}.

(** The JavaScript injected into the page (the text returned by
    [getRecordingScript]); it runs in the browser, outside this embedding. *)
Variable getRecordingScript : string.

Definition Manager : RecorderManager := {| recorders := ∅ |}.

Definition NewChromeRecorder (sessionID : string) (device : DeviceInfo)
  : ChromeRecorder :=
  {| ctx := None; cancel := None;
     isRecording := false;
     steps := [];
     wsConn := None;
     deviceInfo := device;
     sessionID := sessionID;
     targetURL := "" |}.

Definition recorderOpts (r : ChromeRecorder) (chromePath : string)
  : list chromedp.ExecAllocatorOption :=
  chromedp_DefaultExecAllocatorOptions ++
  [ chromedp.ExecPath chromePath;
    chromedp.Flag "headless" (chromedp.FBool false);
    chromedp.Flag "disable-web-security" (chromedp.FBool true);
    chromedp.Flag "disable-features" (chromedp.FString "VizDisplayCompositor");
    chromedp.Flag "disable-blink-features" (chromedp.FString "AutomationControlled");
    chromedp.Flag "disable-dev-shm-usage" (chromedp.FBool true);
    chromedp.Flag "no-sandbox" (chromedp.FBool true);
    chromedp.Flag "disable-gpu" (chromedp.FBool true);
    chromedp.Flag "disable-extensions" (chromedp.FBool true);
    chromedp.Flag "disable-plugins" (chromedp.FBool true);
    chromedp.Flag "disable-images" (chromedp.FBool false);
    chromedp.Flag "disable-background-timer-throttling" (chromedp.FBool true);
    chromedp.Flag "disable-backgrounding-occluded-windows" (chromedp.FBool true);
    chromedp.Flag "disable-renderer-backgrounding" (chromedp.FBool true);
    chromedp.Flag "ignore-certificate-errors" (chromedp.FBool true);
    chromedp.Flag "ignore-ssl-errors" (chromedp.FBool true);
    chromedp.Flag "ignore-certificate-errors-spki-list" (chromedp.FBool true);
    chromedp.Flag "disable-ipc-flooding-protection" (chromedp.FBool true);
    chromedp.WindowSize (Width (deviceInfo r)) (Height (deviceInfo r));
    chromedp.UserAgent (UserAgent (deviceInfo r)) ].

(** [ChromeRecorder.StartRecording].  The poll loop started by
    [go r.listenForEvents()] runs after the method has returned. *)
Definition ChromeRecorder_StartRecording (r : ChromeRecorder) (url : string)
  : M W (error * ChromeRecorder) :=
  if isRecording r then
    ret (Some "recording is already in progress", r)
  else
    let* chromePath := chrome.GetChromePath in
    if String.eqb chromePath "" then
      ret (Some "Chrome browser not found. Please install Google Chrome or Chromium", r)
    else
      let* allocCtx := chromedp_NewExecAllocator (recorderOpts r chromePath) in
      let* c := chromedp_NewContext allocCtx in
      let r1 := {| ctx := Some c; cancel := Some c;
                   isRecording := isRecording r; steps := steps r;
                   wsConn := wsConn r; deviceInfo := deviceInfo r;
                   sessionID := sessionID r; targetURL := targetURL r |} in
      let* (err, _) := chromedp_Run c
                         [ chromedp.Navigate url;
                           chromedp.WaitReady "body";
                           chromedp.Sleep 3000;
                           chromedp.Evaluate getRecordingScript ] in
      match err with
      | Some e =>
          do context_cancel allocCtx in
          ret (Some ("failed to start recording: " +:+ e), r1)
      | None =>
          ret (None,
               {| ctx := ctx r1; cancel := cancel r1;
                  isRecording := true; steps := [];
                  wsConn := wsConn r1; deviceInfo := deviceInfo r1;
                  sessionID := sessionID r1; targetURL := targetURL r1 |})
      end.

(** [ChromeRecorder.StopRecording]. *)
Definition ChromeRecorder_StopRecording (r : ChromeRecorder)
  : M W (error * ChromeRecorder) :=
  if negb (isRecording r) then
    ret (Some "no recording in progress", r)
  else
    do (match cancel r with
        | Some c => context_cancel c
        | None => ret tt
        end) in
    ret (None,
         {| ctx := ctx r; cancel := cancel r;
            isRecording := false; steps := steps r;
            wsConn := wsConn r; deviceInfo := deviceInfo r;
            sessionID := sessionID r; targetURL := targetURL r |}).

(** [GetSteps] returns a copy of the slice. *)
Definition ChromeRecorder_GetSteps (r : ChromeRecorder) : list RecordStep :=
  [] ++ steps r.

Definition ChromeRecorder_IsRecording (r : ChromeRecorder) : bool :=
  isRecording r.

(** [RecorderManager.StartRecording]. *)
Definition StartRecording (rm : RecorderManager)
    (sessionID url : string) (device : DeviceInfo)
  : M W (error * RecorderManager) :=
  match recorders rm !! sessionID with
  | Some _ =>
      ret (Some ("recording session " +:+ sessionID +:+ " already exists"), rm)
  | None =>
      let recorder := NewChromeRecorder sessionID device in
      let* (err, recorder) := ChromeRecorder_StartRecording recorder url in
      match err with
      | Some e => ret (Some e, rm)
      | None =>
          ret (None, {| recorders := <[sessionID := recorder]> (recorders rm) |})
      end
  end.

(** [RecorderManager.StopRecording]: the session is kept in the map. *)
Definition StopRecording (rm : RecorderManager) (sessionID : string)
  : M W (error * RecorderManager) :=
  match recorders rm !! sessionID with
  | None =>
      ret (Some ("recording session " +:+ sessionID +:+ " not found"), rm)
  | Some recorder =>
      let* (err, recorder) := ChromeRecorder_StopRecording recorder in
      let rm := {| recorders := <[sessionID := recorder]> (recorders rm) |} in
      match err with
      | Some e => ret (Some e, rm)
      | None => ret (None, rm)
      end
  end.

Definition GetRecorder (rm : RecorderManager) (sessionID : string)
  : option ChromeRecorder :=
  recorders rm !! sessionID.

(** [GetRecordingStatus] returns [(false, nil, err)] for an unknown id. *)
Definition GetRecordingStatus (rm : RecorderManager) (sessionID : string)
  : bool * list RecordStep * error :=
  match recorders rm !! sessionID with
  | None =>
      (false, [], Some ("recording session " +:+ sessionID +:+ " not found"))
  | Some recorder =>
      (ChromeRecorder_IsRecording recorder, ChromeRecorder_GetSteps recorder, None)
  end.

(** [RecorderManager.CleanupRecording]. *)
Definition CleanupRecording (rm : RecorderManager) (sessionID : string)
  : error * RecorderManager :=
  match recorders rm !! sessionID with
  | Some _ => (None, {| recorders := delete sessionID (recorders rm) |})
  | None => (None, rm)
  end.

End recorder.
End recorder.

(** ** Package models (the types the executor reads) *)

Module models.

Record TestStep `{Float64} := {
  Type_ : string;
  Selector : string;
  Value : string;
  Coordinates : gmap string iface
}.

Record Device := {
  Name : string;
  Width : Z;
  Height : Z
}.

(** [Steps] is the stored JSON text of the step sequence. *)
Record TestCase := {
  TargetURL : string;
  Steps : string;
  Device_ : Device
}.

(** [ID] is a [uint]; no arithmetic is done on it. *)
Record TestExecution := {
  ID : N
}.

Record PerformanceMetric `{Float64} := {
  ExecutionID : N;
  DOMContentLoaded : Z;
  MemoryUsage : float64;
  NetworkRequests : Z;
  PageLoadTime : Z
}.

End models.

(** ** Package executor: the step replay driver *)

Module executor.
Import models.

Record ExecutionLog := {
  Timestamp : N;
  Level : string;
  Message : string;
  StepIndex : Z
}.

Record ExecutionResult `{Float64} := {
  Success : bool;
  ErrorMessage : string;
  Screenshots : list string;
  Logs : list ExecutionLog;
  Metrics : option PerformanceMetric
}.

(** Taken as given.  [GetSteps] is the method of [models.TestCase] that
    decodes [Steps]; only its signature is used.  [performanceScript] is the
    JavaScript text evaluated by [collectPerformanceMetrics], [zero_f] the
    float [0], and [scrapePerformanceData] the text search of that function
    with its hand-written decimal parser on [float64]. *)
Class Given `{Float64} := {
  GetSteps : TestCase → list TestStep * error;
  performanceScript : string;
  zero_f : float64;
  scrapePerformanceData : string → PerformanceMetric
}.

(** How control leaves a block of [executeTestCase]: [Next r] falls through
    to the statement after the block with [result = r]; [Return r] is the
    statement [return result]. *)
Inductive Flow `{Float64} :=
| Next (result : ExecutionResult)
| Return (result : ExecutionResult).

(** Where [executeTestCase] stands after line 228: it has returned, or it
    holds a browser context, with the three deferred cancel functions, the
    decoded steps and the start time. *)
Inductive Setup `{Float64} :=
| Abort (result : ExecutionResult)
| Ready (allocCtx ctx0 ctx : Ctx) (steps : list TestStep) (startTime : N)
        (result : ExecutionResult).

Section driver.
Context `{Float64} `{!Given} `{World W}.

(** [%v] of an error. *)
Definition fmt_v (err : error) : string :=
  match err with
  | None => "<nil>"
  | Some m => m
  end.

(** [result.addLog]. *)
Definition addLog (result : ExecutionResult) (level message : string)
    (stepIndex : Z) : M W ExecutionResult :=
  let* t := time_Now in
  ret {| Success := Success result;
         ErrorMessage := ErrorMessage result;
         Screenshots := Screenshots result;
         Logs := Logs result ++
                 [ {| Timestamp := t; Level := level;
                      Message := message; StepIndex := stepIndex |} ];
         Metrics := Metrics result |}.

Definition setErrorMessage (result : ExecutionResult) (m : string)
  : ExecutionResult :=
  {| Success := Success result; ErrorMessage := m;
     Screenshots := Screenshots result; Logs := Logs result;
     Metrics := Metrics result |}.

Definition setSuccess (result : ExecutionResult) (b : bool)
  : ExecutionResult :=
  {| Success := b; ErrorMessage := ErrorMessage result;
     Screenshots := Screenshots result; Logs := Logs result;
     Metrics := Metrics result |}.

Definition setMetrics (result : ExecutionResult) (m : PerformanceMetric)
  : ExecutionResult :=
  {| Success := Success result; ErrorMessage := ErrorMessage result;
     Screenshots := Screenshots result; Logs := Logs result;
     Metrics := Some m |}.

(** [if screenshotPath != "" { result.Screenshots = append(...) }]. *)
Definition appendScreenshot (result : ExecutionResult) (screenshotPath : string)
  : ExecutionResult :=
  if String.eqb screenshotPath "" then result
  else
    {| Success := Success result; ErrorMessage := ErrorMessage result;
       Screenshots := Screenshots result ++ [screenshotPath];
       Logs := Logs result; Metrics := Metrics result |}.

Definition charset : string := "abcdefghijklmnopqrstuvwxyz0123456789".

Fixpoint generateRandomString (length : nat) : M W string :=
  match length with
  | O => ret ""
  | S n =>
      let* t := time_Now in
      let c := default Ascii.zero (String.get (N.to_nat (t `mod` 36)%N) charset) in
      let* rest := generateRandomString n in
      ret (String c rest)
  end.

(** [takeScreenshot]: the file name, or [""] when the directory, the capture
    or the write fails ([log.Printf] output is not modelled). *)
Definition takeScreenshot (ctx : Ctx) (stepType : string) (stepIndex : Z)
  : M W string :=
  let* t := time_Now in
  let timestamp := time_Format t in
  let* rnd := generateRandomString 8 in
  let filename :=
    stepType +:+ "_" +:+ timestamp +:+ "_" +:+ pretty stepIndex +:+ "_" +:+ rnd
    +:+ ".png" in
  let screenshotDir := "./screenshots" in
  let* err := os_MkdirAll screenshotDir in
  match err with
  | Some _ => ret ""
  | None =>
      let fullPath := filepath_Join screenshotDir filename in
      let* (err, buf) := chromedp_Run ctx [chromedp.CaptureScreenshot] in
      match err with
      | Some _ => ret ""
      | None =>
          let* err := ioutil_WriteFile fullPath buf in
          match err with
          | Some _ => ret ""
          | None => ret filename
          end
      end
  end.

Definition runErr (ctx : Ctx) (actions : list chromedp.Action) : M W error :=
  let* (err, _) := chromedp_Run ctx actions in ret err.

Definition executeClick (ctx : Ctx) (step : TestStep) : M W error :=
  let* err := runErr ctx
                [ chromedp.WaitVisible (Selector step);
                  chromedp.Click (Selector step);
                  chromedp.Sleep 200 ] in
  match err with
  | Some e =>
      ret (Some ("failed to click element " +:+ Selector step +:+ ": " +:+ e))
  | None => ret None
  end.

Definition executeInput (ctx : Ctx) (step : TestStep) : M W error :=
  runErr ctx
    [ chromedp.Clear (Selector step);
      chromedp.SendKeys (Selector step) (Value step);
      chromedp.Sleep 200 ].

Definition executeKeydown (ctx : Ctx) (step : TestStep) : M W error :=
  runErr ctx [ chromedp.KeyEvent (Value step); chromedp.Sleep 200 ].

Definition executeScroll (ctx : Ctx) (step : TestStep) : M W error :=
  match Coordinates step !! "scrollY" with
  | Some (IFloat64 coords) =>
      runErr ctx
        [ chromedp.Evaluate ("window.scrollTo(0, " +:+ sprintf_f coords +:+ ")");
          chromedp.Sleep 200 ]
  | _ => ret None
  end.

Definition executeTouch (ctx : Ctx) (step : TestStep) : M W error :=
  if String.eqb (Type_ step) "touchstart" then executeClick ctx step
  else ret None.

Definition executeChange (ctx : Ctx) (step : TestStep) : M W error :=
  runErr ctx
    [ chromedp.SetValue (Selector step) (Value step); chromedp.Sleep 200 ].

Definition executeSubmit (ctx : Ctx) (step : TestStep) : M W error :=
  runErr ctx [ chromedp.Submit (Selector step); chromedp.Sleep 1000 ].

Definition executeStep (ctx : Ctx) (step : TestStep) (stepIndex : Z)
  : M W error :=
  let t := Type_ step in
  if String.eqb t "click" then executeClick ctx step
  else if String.eqb t "input" then executeInput ctx step
  else if String.eqb t "keydown" then executeKeydown ctx step
  else if String.eqb t "scroll" then executeScroll ctx step
  else if String.eqb t "touchstart" || String.eqb t "touchend"
       then executeTouch ctx step
  else if String.eqb t "change" then executeChange ctx step
  else if String.eqb t "submit" then executeSubmit ctx step
  else ret (Some ("unsupported step type: " +:+ t)).

Definition shouldTakeScreenshot (step : TestStep) : bool :=
  let keyTypes := ["click"; "submit"; "change"] in
  existsb (λ keyType, String.eqb (Type_ step) keyType) keyTypes.

Definition zeroMetric : PerformanceMetric :=
  {| ExecutionID := 0%N; DOMContentLoaded := 0; MemoryUsage := zero_f;
     NetworkRequests := 0; PageLoadTime := 0 |}.

Definition collectPerformanceMetrics (ctx : Ctx) : M W PerformanceMetric :=
  let* (err, performanceDataStr) :=
    chromedp_Run ctx [chromedp.Evaluate performanceScript] in
  match err with
  | Some _ => ret zeroMetric
  | None => ret (scrapePerformanceData performanceDataStr)
  end.

(** Options of the browser process, lines 150-171. *)
Definition executorOpts (chromePath : string) (isVisual : bool)
  : list chromedp.ExecAllocatorOption :=
  chromedp_DefaultExecAllocatorOptions ++
  [ chromedp.ExecPath chromePath;
    chromedp.Flag "headless" (chromedp.FBool (negb isVisual));
    chromedp.Flag "disable-web-security" (chromedp.FBool true);
    chromedp.Flag "disable-features" (chromedp.FString "VizDisplayCompositor");
    chromedp.Flag "disable-dev-shm-usage" (chromedp.FBool true);
    chromedp.Flag "no-sandbox" (chromedp.FBool true);
    chromedp.Flag "disable-gpu" (chromedp.FBool false);
    chromedp.Flag "disable-software-rasterizer" (chromedp.FBool false);
    chromedp.Flag "disable-background-timer-throttling" (chromedp.FBool true);
    chromedp.Flag "disable-backgrounding-occluded-windows" (chromedp.FBool true);
    chromedp.Flag "disable-renderer-backgrounding" (chromedp.FBool true);
    chromedp.Flag "ignore-certificate-errors" (chromedp.FBool true);
    chromedp.Flag "ignore-ssl-errors" (chromedp.FBool true);
    chromedp.Flag "ignore-certificate-errors-spki-list" (chromedp.FBool true);
    chromedp.Flag "ignore-ssl-errors-spki-list" (chromedp.FBool true);
    chromedp.Flag "allow-running-insecure-content" (chromedp.FBool true);
    chromedp.Flag "disable-blink-features" (chromedp.FString "AutomationControlled");
    chromedp.Flag "excludeSwitches" (chromedp.FString "enable-automation");
    chromedp.Flag "useAutomationExtension" (chromedp.FBool false) ].

(** The three [defer cancel()] of lines 174-181 run at every return that
    follows them, last deferred first. *)
Definition runDeferred (allocCtx ctx0 ctx : Ctx) : M W unit :=
  do context_cancel ctx in
  do context_cancel ctx0 in
  context_cancel allocCtx.

(** Lines 185-228 of [executeTestCase]: viewport emulation, navigation and
    the wait for the page. *)
Definition openPage (ctx : Ctx) (testCase : TestCase) (result : ExecutionResult)
  : M W Flow :=
  let device := Device_ testCase in
  let* result :=
    addLog result "info"
      ("Setting up device emulation: " +:+ Name device +:+ " ("
       +:+ pretty (Width device) +:+ "x" +:+ pretty (Height device) +:+ ")")
      (-1) in
  let* err := runErr ctx [chromedp.EmulateViewport (Width device) (Height device)] in
  let* result :=
    match err with
    | Some e =>
        addLog result "warn" ("Failed to set viewport emulation: " +:+ e) (-1)
    | None => addLog result "info" "Device viewport emulation enabled" (-1)
    end in
  let* result :=
    addLog result "info"
      ("Navigating to target URL: " +:+ TargetURL testCase) (-1) in
  let* err := runErr ctx [chromedp.Navigate (TargetURL testCase)] in
  match err with
  | Some e =>
      ret (Return (setErrorMessage result ("Failed to navigate to URL: " +:+ e)))
  | None =>
      let* result := addLog result "info" "Waiting for page to load..." (-1) in
      let* err := runErr ctx [chromedp.Sleep 3000; chromedp.WaitReady "body"] in
      let* result :=
        match err with
        | Some _ =>
            let* (titleErr, title) := chromedp_Run ctx [chromedp.Title] in
            let* (urlErr, currentURL) := chromedp_Run ctx [chromedp.Location] in
            let debugInfo :=
              "Page load timeout - Title: '" +:+ title +:+ "', URL: '"
              +:+ currentURL +:+ "', TitleErr: " +:+ fmt_v titleErr
              +:+ ", URLErr: " +:+ fmt_v urlErr in
            let* result := addLog result "warn" debugInfo (-1) in
            addLog result "warn"
              "Page not fully loaded, continuing with execution" (-1)
        | None => addLog result "info" "Page loaded successfully" (-1)
        end in
      let* (_, pageTitle) := chromedp_Run ctx [chromedp.Title] in
      let* (_, pageURL) := chromedp_Run ctx [chromedp.Location] in
      let* result :=
        addLog result "info"
          ("Page info - Title: '" +:+ pageTitle +:+ "', URL: '" +:+ pageURL
           +:+ "'") (-1) in
      ret (Next result)
  end.

(** Lines 118-228: everything before the first screenshot. *)
Definition setup (testCase : TestCase) (isVisual : bool) : M W Setup :=
  let result :=
    {| Success := false; ErrorMessage := ""; Screenshots := []; Logs := [];
       Metrics := None |} in
  let (steps, err) := GetSteps testCase in
  match err with
  | Some e =>
      ret (Abort (setErrorMessage result ("Failed to parse test steps: " +:+ e)))
  | None =>
      let* chromePath := chrome.GetChromePath in
      if String.eqb chromePath "" then
        let result := setSuccess result false in
        let result :=
          setErrorMessage result
            "Chrome browser not found. Please install Google Chrome or Chromium" in
        let* result := addLog result "error" "Chrome not found in system" (-1) in
        ret (Abort result)
      else
        let* result :=
          addLog result "info" ("Using Chrome path: " +:+ chromePath) (-1) in
        let* err := os_Stat chromePath in
        match err with
        | Some e =>
            let result := setSuccess result false in
            let result :=
              setErrorMessage result
                ("Chrome executable not accessible: " +:+ e) in
            let* result :=
              addLog result "error" ("Chrome path not accessible: " +:+ e) (-1) in
            ret (Abort result)
        | None =>
            let* allocCtx :=
              chromedp_NewExecAllocator (executorOpts chromePath isVisual) in
            let* ctx0 := chromedp_NewContext allocCtx in
            let* ctx := context_WithTimeout ctx0 600000 in
            let* startTime := time_Now in
            let* flow := openPage ctx testCase result in
            match flow with
            | Return result =>
                do runDeferred allocCtx ctx0 ctx in
                ret (Abort result)
            | Next result =>
                ret (Ready allocCtx ctx0 ctx steps startTime result)
            end
        end
  end.

(** Lines 231-234: the initial screenshot. *)
Definition initialScreenshot (ctx : Ctx) (result : ExecutionResult)
  : M W ExecutionResult :=
  let* screenshotPath := takeScreenshot ctx "initial" 0 in
  ret (appendScreenshot result screenshotPath).

(** Lines 238-264: the body of the loop for the step at index [i]. *)
Definition replayStep (ctx : Ctx) (i : Z) (step : TestStep)
    (result : ExecutionResult) : M W Flow :=
  let* result :=
    addLog result "info"
      ("Executing step " +:+ pretty (i + 1) +:+ ": " +:+ Type_ step) i in
  let* err := executeStep ctx step i in
  match err with
  | Some e =>
      let result :=
        setErrorMessage result
          ("Step " +:+ pretty (i + 1) +:+ " failed: " +:+ e) in
      let* result := addLog result "error" (ErrorMessage result) i in
      let* screenshotPath := takeScreenshot ctx "error" i in
      ret (Return (appendScreenshot result screenshotPath))
  | None =>
      let* result :=
        addLog result "info"
          ("Step " +:+ pretty (i + 1) +:+ " completed successfully") i in
      let* result :=
        if shouldTakeScreenshot step then
          let* screenshotPath := takeScreenshot ctx "step" i in
          ret (appendScreenshot result screenshotPath)
        else ret result in
      do chromedp_Run ctx [chromedp.Sleep 500] in
      ret (Next result)
  end.

(** Lines 237-265: [for i, step := range steps], from index [i] on. *)
Fixpoint replaySteps (ctx : Ctx) (i : Z) (steps : list TestStep)
    (result : ExecutionResult) : M W Flow :=
  match steps with
  | [] => ret (Next result)
  | step :: rest =>
      let* flow := replayStep ctx i step result in
      match flow with
      | Return result => ret (Return result)
      | Next result => replaySteps ctx (i + 1) rest result
      end
  end.

(** Lines 267-280: final screenshot, metrics, success. *)
Definition finish (ctx : Ctx) (steps : list TestStep) (startTime : N)
    (result : ExecutionResult) : M W ExecutionResult :=
  let* screenshotPath := takeScreenshot ctx "final" (Z.of_nat (length steps)) in
  let result := appendScreenshot result screenshotPath in
  let* metrics := collectPerformanceMetrics ctx in
  let* t := time_Now in
  let metrics :=
    {| ExecutionID := ExecutionID metrics;
       DOMContentLoaded := DOMContentLoaded metrics;
       MemoryUsage := MemoryUsage metrics;
       NetworkRequests := NetworkRequests metrics;
       PageLoadTime := (Z.of_N t - Z.of_N startTime) `quot` 1000000 |} in
  let result := setMetrics result metrics in
  let result := setSuccess result true in
  addLog result "info" "Test case execution completed successfully" (-1).

(** Lines 230-280, entered with the browser context. *)
Definition replay (ctx : Ctx) (steps : list TestStep) (startTime : N)
    (result : ExecutionResult) : M W ExecutionResult :=
  let* result := initialScreenshot ctx result in
  let* flow := replaySteps ctx 0 steps result in
  match flow with
  | Return result => ret result
  | Next result => finish ctx steps startTime result
  end.

(** [TestExecutor.executeTestCase]. *)
Definition executeTestCase (testCase : TestCase) (isVisual : bool)
  : M W ExecutionResult :=
  let* s := setup testCase isVisual in
  match s with
  | Abort result => ret result
  | Ready allocCtx ctx0 ctx steps startTime result =>
      let* result := replay ctx steps startTime result in
      do runDeferred allocCtx ctx0 ctx in
      ret result
  end.

End driver.

(** ** Package executor: the worker pool *)

(** A buffered Go channel: its capacity and the values waiting in it.
    [make_chan limit size] is [make(chan T, size)], which panics ([None])
    with [makechan: size out of range] on a negative size and on a size
    above [limit], the largest buffer the runtime makes for [T].
    [chan_send] is a send that completes; on a full buffer the sender waits
    ([None]).  [chan_recv] is a receive that completes; on an empty buffer
    the receiver waits. *)
Record chan (A : Type) := {
  cap : Z;
  buf : list A
}.
Arguments cap {A} _.
Arguments buf {A} _.

Definition make_chan {A} (limit size : Z) : option (chan A) :=
  if (size <? 0)%Z then None
  else if (limit <? size)%Z then None
  else Some {| cap := size; buf := [] |}.

(** What the Go runtime sets.  [makechan_max] is the largest size that
    [make(chan ExecutionJob, size)] accepts: the runtime refuses a buffer
    that, with the header of the channel, is more than the heap can address.
    The value depends on the platform and on the version of the runtime; an
    unbuffered channel is always made, and the bound is an [int]. *)
Class Runtime := {
  makechan_max : Z;
  makechan_max_range : 0 ≤ makechan_max ≤ max_int
}.

Definition chan_send {A} (c : chan A) (v : A) : option (chan A) :=
  if (Z.of_nat (length (buf c)) <? cap c)%Z
  then Some {| cap := cap c; buf := buf c ++ [v] |}
  else None.

Definition chan_recv {A} (c : chan A) : option (A * chan A) :=
  match buf c with
  | [] => None
  | v :: rest => Some (v, {| cap := cap c; buf := rest |})
  end.

(** [ResultChan] is the handle of the job's result channel. *)
Record ExecutionJob := {
  Execution : TestExecution;
  TestCase_ : TestCase;
  IsVisual : bool;
  ResultChan : nat
}.

(** [TestExecutor] without its mutex (each locked region is one atomic
    step) and without [ctx], [cancel], [device] and [wg], which
    [InitExecutor] leaves at their zero values. *)
Record TestExecutor := {
  maxWorkers : Z;
  workQueue : chan ExecutionJob;
  running : gmap N bool
}.

(** Where a goroutine running [worker] stands. *)
Inductive Worker `{Float64} :=
| Receiving
| Executing (job : ExecutionJob)
| Completing (job : ExecutionJob) (result : ExecutionResult)
| Sending (job : ExecutionJob) (result : ExecutionResult).

(** The executor with its goroutines, between [InitExecutor] and [Stop]:
    the workers, the result channels made so far, and the callers of
    [ExecuteTestCaseWithOptions] that stand at the send of line 101. *)
Record Pool `{Float64} := {
  GlobalExecutor : TestExecutor;
  workers : list Worker;
  resultChans : gmap nat (chan ExecutionResult);
  senders : list ExecutionJob
}.

Section pool.
Context `{Float64} `{!Given} `{World W} `{!Runtime}.

(** [InitExecutor]: the queue is made with capacity [maxWorkers*2], an [int]
    product, and the loop starts one worker for each [i] with
    [0 <= i < maxWorkers]. *)
Definition InitExecutor (maxWorkers : Z) : option Pool :=
  match make_chan makechan_max (wrap_int (maxWorkers * 2)) with
  | None => None
  | Some queue =>
      Some {| GlobalExecutor :=
                {| maxWorkers := maxWorkers;
                   workQueue := queue;
                   running := ∅ |};
              workers := replicate (Z.to_nat maxWorkers) Receiving;
              resultChans := ∅;
              senders := [] |}
  end.

Definition setExecutor (p : Pool) (te : TestExecutor) : Pool :=
  {| GlobalExecutor := te; workers := workers p;
     resultChans := resultChans p; senders := senders p |}.

Definition setWorker (p : Pool) (w : nat) (st : Worker) : Pool :=
  {| GlobalExecutor := GlobalExecutor p; workers := <[w := st]> (workers p);
     resultChans := resultChans p; senders := senders p |}.

(** [ExecuteTestCaseWithOptions], lines 89-99: the id is entered in
    [running] and the job is built around a fresh result channel of
    capacity 1. *)
Definition ExecuteTestCaseWithOptions_register (p : Pool)
    (execution : TestExecution) (testCase : TestCase) (isVisual : bool)
  : Pool * ExecutionJob :=
  let te := GlobalExecutor p in
  let te := {| maxWorkers := maxWorkers te; workQueue := workQueue te;
               running := <[ID execution := true]> (running te) |} in
  let resultChan := fresh (dom (resultChans p)) in
  let job := {| Execution := execution; TestCase_ := testCase;
                IsVisual := isVisual; ResultChan := resultChan |} in
  ({| GlobalExecutor := te; workers := workers p;
      resultChans := <[resultChan := {| cap := 1; buf := [] |}]> (resultChans p);
      senders := senders p ++ [job] |}, job).

(** [ExecuteTestCaseWithOptions], line 101: [te.workQueue <- job] by the
    [k]-th of the callers standing there. *)
Definition ExecuteTestCaseWithOptions_send (p : Pool) (k : nat)
  : option Pool :=
  match senders p !! k with
  | None => None
  | Some job =>
      let te := GlobalExecutor p in
      match chan_send (workQueue te) job with
      | None => None
      | Some queue =>
          Some {| GlobalExecutor :=
                    {| maxWorkers := maxWorkers te; workQueue := queue;
                       running := running te |};
                  workers := workers p;
                  resultChans := resultChans p;
                  senders := delete k (senders p) |}
      end
  end.

Definition IsRunning (te : TestExecutor) (executionID : N) : bool :=
  default false (running te !! executionID).

Definition GetRunningCount (te : TestExecutor) : Z :=
  Z.of_nat (size (running te)).

Definition GetExecutionStatus (te : TestExecutor) (executionID : N) : string :=
  if default false (running te !! executionID) then "running" else "completed".

Definition CancelExecution (te : TestExecutor) (executionID : N)
  : bool * TestExecutor :=
  if default false (running te !! executionID) then
    (true, {| maxWorkers := maxWorkers te; workQueue := workQueue te;
              running := delete executionID (running te) |})
  else (false, te).

(** [worker], line 70: worker [w] takes the next job of the queue. *)
Definition worker_receive (p : Pool) (w : nat) : option Pool :=
  match workers p !! w with
  | Some Receiving =>
      let te := GlobalExecutor p in
      match chan_recv (workQueue te) with
      | None => None
      | Some (job, queue) =>
          Some (setWorker
                  (setExecutor p {| maxWorkers := maxWorkers te;
                                    workQueue := queue;
                                    running := running te |})
                  w (Executing job))
      end
  | _ => None
  end.

(** [worker], line 72: the job of worker [w] is replayed against its own
    browser, in the world [wld]. *)
Definition worker_execute (p : Pool) (w : nat) (wld : W) : option Pool :=
  match workers p !! w with
  | Some (Executing job) =>
      let result := fst (executeTestCase (TestCase_ job) (IsVisual job) wld) in
      Some (setWorker p w (Completing job result))
  | _ => None
  end.

(** [worker], lines 75-77: the id leaves [running]. *)
Definition worker_complete (p : Pool) (w : nat) : option Pool :=
  match workers p !! w with
  | Some (Completing job result) =>
      let te := GlobalExecutor p in
      Some (setWorker
              (setExecutor p {| maxWorkers := maxWorkers te;
                                workQueue := workQueue te;
                                running := delete (ID (Execution job)) (running te) |})
              w (Sending job result))
  | _ => None
  end.

(** [worker], line 80: the result is sent on the job's channel. *)
Definition worker_send (p : Pool) (w : nat) : option Pool :=
  match workers p !! w with
  | Some (Sending job result) =>
      match resultChans p !! ResultChan job with
      | None => None
      | Some c =>
          match chan_send c result with
          | None => None
          | Some c =>
              Some {| GlobalExecutor := GlobalExecutor p;
                      workers := <[w := Receiving]> (workers p);
                      resultChans := <[ResultChan job := c]> (resultChans p);
                      senders := senders p |}
          end
      end
  | _ => None
  end.

(** The caller's [result := <-resultChan]. *)
Definition receive_result (p : Pool) (resultChan : nat)
  : option (ExecutionResult * Pool) :=
  match resultChans p !! resultChan with
  | None => None
  | Some c =>
      match chan_recv c with
      | None => None
      | Some (result, c) =>
          Some (result,
                {| GlobalExecutor := GlobalExecutor p; workers := workers p;
                   resultChans := <[resultChan := c]> (resultChans p);
                   senders := senders p |})
      end
  end.

(** One atomic step of some goroutine. *)
Inductive Event :=
| EvRegister (execution : TestExecution) (testCase : TestCase) (isVisual : bool)
| EvEnqueue (k : nat)
| EvDequeue (w : nat)
| EvExecute (w : nat) (wld : W)
| EvComplete (w : nat)
| EvPublish (w : nat)
| EvResult (resultChan : nat)
| EvCancel (executionID : N).

(** [step p e] is [None] when [e] cannot happen in [p] (its goroutine is
    elsewhere or has to wait). *)
Definition step (p : Pool) (e : Event) : option Pool :=
  match e with
  | EvRegister execution testCase isVisual =>
      Some (fst (ExecuteTestCaseWithOptions_register p execution testCase isVisual))
  | EvEnqueue k => ExecuteTestCaseWithOptions_send p k
  | EvDequeue w => worker_receive p w
  | EvExecute w wld => worker_execute p w wld
  | EvComplete w => worker_complete p w
  | EvPublish w => worker_send p w
  | EvResult c => snd <$> receive_result p c
  | EvCancel executionID =>
      Some (setExecutor p (snd (CancelExecution (GlobalExecutor p) executionID)))
  end.

Fixpoint run (p : Pool) (es : list Event) : option Pool :=
  match es with
  | [] => Some p
  | e :: es =>
      match step p e with
      | None => None
      | Some p => run p es
      end
  end.

(** The execution ids registered along a trace. *)
Fixpoint registered (es : list Event) : list N :=
  match es with
  | [] => []
  | EvRegister execution _ _ :: es => ID execution :: registered es
  | _ :: es => registered es
  end.

End pool.
End executor.

(** ** A concrete world, for running the definitions

    A Linux machine whose clock advances by one at every reading, where
    every file exists and every write succeeds, and where the browser does
    whatever it is asked except that no element matches the selector
    [#missing]: a run that waits for it or clicks it fails. *)

Module demo.

#[export] Instance demoFloat : Float64 :=
  {| float64 := Z; sprintf_f := λ f, pretty f +:+ ".000000" |}.

(** A runtime with [2^48] bytes of heap addresses and a channel header of 96
    bytes, where a job takes 32 bytes. *)
#[export] Instance demoRuntime : executor.Runtime :=
  {| executor.makechan_max := 2 ^ 43 - 3;
     executor.makechan_max_range := ltac:(vm_compute; split; discriminate) |}.

Definition touchesMissing (a : chromedp.Action) : bool :=
  match a with
  | chromedp.WaitVisible sel | chromedp.Click sel => String.eqb sel "#missing"
  | _ => false
  end.

#[export] Instance demoWorld : World nat :=
  {| runtime_GOOS := "linux";
     os_Stat := λ _ w, (None, w);
     os_MkdirAll := λ _ w, (None, w);
     ioutil_WriteFile := λ _ _ w, (None, w);
     exec_LookPath := λ name w, (("/usr/bin/" +:+ name, None), w);
     exec_Command_Output := λ _ _ w, (("", None), w);
     time_Now := λ w, (N.of_nat w, S w);
     time_Format := λ t, pretty t;
     filepath_Join := λ dir name, "screenshots/" +:+ name;
     chromedp_DefaultExecAllocatorOptions := [];
     chromedp_NewExecAllocator := λ _ w, (0%nat, w);
     chromedp_NewContext := λ _ w, (1%nat, w);
     context_WithTimeout := λ _ _ w, (2%nat, w);
     context_cancel := λ _ w, (tt, w);
     chromedp_Run := λ _ actions w,
       if existsb touchesMissing actions
       then ((Some "context deadline exceeded", ""), w)
       else ((None, ""), w) |}.

(** A machine like [demoWorld] without any browser installed. *)
Definition noChromeWorld : World nat :=
  {| runtime_GOOS := "linux";
     os_Stat := λ _ w, (Some "no such file or directory", w);
     os_MkdirAll := λ _ w, (None, w);
     ioutil_WriteFile := λ _ _ w, (None, w);
     exec_LookPath := λ name w, (("", Some "executable file not found in $PATH"), w);
     exec_Command_Output := λ _ _ w, (("", None), w);
     time_Now := λ w, (N.of_nat w, S w);
     time_Format := λ t, pretty t;
     filepath_Join := λ dir name, "screenshots/" +:+ name;
     chromedp_DefaultExecAllocatorOptions := [];
     chromedp_NewExecAllocator := λ _ w, (0%nat, w);
     chromedp_NewContext := λ _ w, (1%nat, w);
     context_WithTimeout := λ _ _ w, (2%nat, w);
     context_cancel := λ _ w, (tt, w);
     chromedp_Run := λ _ _ w, ((None, ""), w) |}.

Definition step_ (type selector value : string) : models.TestStep :=
  {| models.Type_ := type; models.Selector := selector;
     models.Value := value; models.Coordinates := ∅ |}.

(** Stored step texts and what they decode to; any other text is rejected
    by the decoder. *)
Definition stored : list (string * list models.TestStep) :=
  [ ("[]", []);
    ("[click #ok, click #missing, input #name]",
     [ step_ "click" "#ok" ""; step_ "click" "#missing" "";
       step_ "input" "#name" "Ada" ]);
    ("[click #ok, input #name, submit #form, scroll]",
     [ step_ "click" "#ok" ""; step_ "input" "#name" "Ada";
       step_ "submit" "#form" ""; step_ "scroll" "" "" ]);
    ("[click #ok, hover #menu, click #ok]",
     [ step_ "click" "#ok" ""; step_ "hover" "#menu" "";
       step_ "click" "#ok" "" ]) ].

Fixpoint decode (table : list (string * list models.TestStep)) (text : string)
  : list models.TestStep * error :=
  match table with
  | [] => ([], Some "unexpected end of JSON input")
  | (t, steps) :: table =>
      if String.eqb t text then (steps, None) else decode table text
  end.

#[export] Instance demoGiven : executor.Given :=
  {| executor.GetSteps := λ testCase, decode stored (models.Steps testCase);
     executor.performanceScript := "JSON.stringify({})";
     executor.zero_f := 0;
     executor.scrapePerformanceData := λ _,
       {| models.ExecutionID := 0%N; models.DOMContentLoaded := 0;
          models.MemoryUsage := 0; models.NetworkRequests := 0;
          models.PageLoadTime := 0 |} |}.

Definition phone : models.Device :=
  {| models.Name := "Pixel 5"; models.Width := 393; models.Height := 851 |}.

Definition testCase (steps : string) : models.TestCase :=
  {| models.TargetURL := "https://example.test/"; models.Steps := steps;
     models.Device_ := phone |}.

Definition phoneInfo : recorder.DeviceInfo :=
  {| recorder.Width := 393; recorder.Height := 851;
     recorder.UserAgent := "Mozilla/5.0 (Linux; Android 11; Pixel 5)" |}.

(** The registry after one successful [StartRecording] of session [s1]. *)
Definition oneSession : recorder.RecorderManager :=
  snd (fst (recorder.StartRecording "(function() {})();" recorder.Manager
              "s1" "https://example.test/" phoneInfo 0%nat)).

(** The steps of one worker on a test case without steps, registered under
    execution id 7. *)
Definition job7 : list (@executor.Event nat) :=
  [ executor.EvRegister {| models.ID := 7 |} (testCase "[]") true;
    executor.EvEnqueue 0;
    executor.EvDequeue 0;
    executor.EvExecute 0 0%nat;
    executor.EvComplete 0 ].

(** The pool started with [maxWorkers] workers, after the steps [es]. *)
Definition poolAfter (maxWorkers : Z) (es : list (@executor.Event nat))
  : option executor.Pool :=
  executor.InitExecutor maxWorkers ≫= λ p0, executor.run p0 es.

End demo.

(** * Vocabulary of the properties *)

Module recorder_terms.
Import recorder.

Section recorder_terms.
Context `{Float64} `{World W}.

Definition SessionNotFoundError (sessionID : string) : string :=
  "recording session " +:+ sessionID +:+ " not found".

Definition DuplicateSessionError (sessionID : string) : string :=
  "recording session " +:+ sessionID +:+ " already exists".

(** The second [CleanupRecording] of C4 as the claim has it: the first call
    removes the session and the second returns an error. *)
Definition cleanup_twice_errors (rm : RecorderManager) (sessionID : string)
  : Prop :=
  let (_, rm1) := CleanupRecording rm sessionID in
  let (err2, _) := CleanupRecording rm1 sessionID in
  recorders rm1 !! sessionID = None ∧ err2 = Some (SessionNotFoundError sessionID).

End recorder_terms.
End recorder_terms.

Module driver_terms.
Import models executor.

Section driver_terms.
Context `{Float64} `{!Given} `{World W}.

(** The step indices of the log entries, in order. *)
Definition indices (result : ExecutionResult) : list Z :=
  StepIndex <$> Logs result.

(** The log entries that belong to a step ([StepIndex] is not [-1]). *)
Definition stepIndices (result : ExecutionResult) : list Z :=
  filter (λ i, 0 ≤ i) (indices result).

(** The log entries that belong to a step, in order, each with its level,
    its message and its step index. *)
Definition stepLog (result : ExecutionResult) : list (string * string * Z) :=
  (λ l, (Level l, Message l, StepIndex l))
  <$> filter (λ l, 0 ≤ StepIndex l) (Logs result).

(** [name] is a screenshot file name made for [tag] and [stepIndex]. *)
Definition IsShot (tag : string) (stepIndex : Z) (name : string) : Prop :=
  ∃ timestamp rnd,
    name = tag +:+ "_" +:+ timestamp +:+ "_" +:+ pretty stepIndex +:+ "_"
           +:+ rnd +:+ ".png".

(** What [executeStep] returns where the loop body for index [i] calls it:
    the body has read the clock once, for its first log entry. *)
Definition stepError (ctx : Ctx) (i : Z) (step : TestStep) (w : W) : error :=
  fst (executeStep ctx step i (snd (time_Now w))).

(** What [takeScreenshot] returns in the loop body for index [i] of a step
    that succeeded: the clock has been read a second time, for the
    [completed] entry. *)
Definition stepShot (ctx : Ctx) (i : Z) (step : TestStep) (w : W) : string :=
  let w2 := snd (executeStep ctx step i (snd (time_Now w))) in
  fst (takeScreenshot ctx "step" i (snd (time_Now w2))).

(** In the run of the loop from index [i], world [w] and result [r]: every
    step that is reached succeeds, and every screenshot taken after a step
    is captured. *)
Fixpoint cleanReplay (ctx : Ctx) (i : Z) (steps : list TestStep)
    (r : ExecutionResult) (w : W) : bool :=
  match steps with
  | [] => true
  | step :: rest =>
      match stepError ctx i step w with
      | Some _ => false
      | None =>
          (if shouldTakeScreenshot step
           then negb (String.eqb (stepShot ctx i step w) "")
           else true)
          && match replayStep ctx i step r w with
             | (Next r', w') => cleanReplay ctx (i + 1) rest r' w'
             | (Return _, _) => false
             end
      end
  end.

(** In the run of lines 230-271 from world [w] and result [r]: the initial
    screenshot is captured, the loop is clean, and the final screenshot is
    captured. *)
Definition cleanRun (ctx : Ctx) (steps : list TestStep)
    (r : ExecutionResult) (w : W) : bool :=
  negb (String.eqb (fst (takeScreenshot ctx "initial" 0 w)) "")
  && let (r2, w2) := initialScreenshot ctx r w in
     cleanReplay ctx 0 steps r2 w2
     && match replaySteps ctx 0 steps r2 w2 with
        | (Next _, w3) =>
            negb (String.eqb
                    (fst (takeScreenshot ctx "final" (Z.of_nat (length steps)) w3))
                    "")
        | (Return _, _) => false
        end.

(** The indices, from [i] on, of the steps after which a screenshot is
    taken. *)
Fixpoint keyIndices (i : Z) (steps : list TestStep) : list Z :=
  match steps with
  | [] => []
  | step :: rest =>
      if shouldTakeScreenshot step then i :: keyIndices (i + 1) rest
      else keyIndices (i + 1) rest
  end.

(** The step types that [executeStep] dispatches. *)
Definition supported : list string :=
  ["click"; "input"; "keydown"; "scroll"; "touchstart"; "touchend"; "change";
   "submit"].

(** What a screenshot call adds to the list: its name, unless it failed. *)
Definition shot (name : string) : list string :=
  if String.eqb name "" then [] else [name].

Definition flowResult (f : Flow) : ExecutionResult :=
  match f with
  | Next r | Return r => r
  end.

(** [r'] is [r] with at least one more log entry, none of them for a step,
    and with the same success flag and screenshots. *)
Definition logged (r r' : ExecutionResult) : Prop :=
  Success r' = Success r
  ∧ Screenshots r' = Screenshots r
  ∧ ∃ extra, extra ≠ []
             ∧ indices r' = indices r ++ extra
             ∧ Forall (λ k, k = -1) extra.

Definition emptyResult : ExecutionResult :=
  {| Success := false; ErrorMessage := ""; Screenshots := []; Logs := [];
     Metrics := None |}.

(** C2 as the claim has it: two log entries in all refer to the steps 0
    and 1, and none refers to a later step. *)
Definition two_entries_for_steps_0_and_1 (result : ExecutionResult) : Prop :=
  length (filter (λ k, k = 0 ∨ k = 1) (indices result)) = 2%nat
  ∧ Forall (λ k, k < 2) (indices result).

(** C9 as the claim has it: the error message of the result carries the
    index [k] of the step, written in decimal. *)
Definition message_carries_index (result : ExecutionResult) (k : Z) : Prop :=
  strings_Contains (ErrorMessage result) (pretty k) = true.

End driver_terms.
End driver_terms.

Module pool_terms.
Import models executor.

Section pool_terms.
Context `{Float64} `{!Given} `{World W} `{!Runtime}.

Definition jobID (job : ExecutionJob) : N := ID (Execution job).

(** The job a worker holds. *)
Definition workerJob (st : Worker) : option ExecutionJob :=
  match st with
  | Receiving => None
  | Executing job | Completing job _ | Sending job _ => Some job
  end.

(** [job] is somewhere in the pool: with a caller at the send, in the queue,
    or with a worker. *)
Definition inPool (p : Pool) (job : ExecutionJob) : Prop :=
  job ∈ senders p
  ∨ job ∈ buf (workQueue (GlobalExecutor p))
  ∨ ∃ w st, workers p !! w = Some st ∧ workerJob st = Some job.

(** Every entry of [running] holds [true], the only value the package ever
    stores. *)
Definition onlyTrue (te : TestExecutor) : Prop :=
  ∀ id b, running te !! id = Some b → b = true.

(** The shape [InitExecutor] gives the pool: [n] workers on a queue of
    capacity [2 * n] that never holds more. *)
Definition shaped (n : Z) (p : Pool) : Prop :=
  length (workers p) = Z.to_nat n
  ∧ cap (workQueue (GlobalExecutor p)) = 2 * n
  ∧ Z.of_nat (length (buf (workQueue (GlobalExecutor p)))) ≤ 2 * n.

(** With [h] the ids registered so far: a worker that stands at the send of
    line 80 holds a job whose id has left [running], and every job in the
    pool was registered. *)
Definition settled (h : list N) (p : Pool) : Prop :=
  (∀ w job result,
     workers p !! w = Some (Sending job result) →
     running (GlobalExecutor p) !! jobID job = None)
  ∧ (∀ job, inPool p job → jobID job ∈ h).

(** C5 as the claim has it, for one value of [maxWorkers]: the pool starts
    with that many workers on a queue of twice that capacity. *)
Definition starts_pool (maxWorkers : Z) : Prop :=
  ∃ p0 : Pool,
    InitExecutor maxWorkers = Some p0
    ∧ Z.of_nat (length (workers p0)) = maxWorkers
    ∧ cap (workQueue (GlobalExecutor p0)) = 2 * maxWorkers.

End pool_terms.

End pool_terms.

(** * More of the packages *)

(** ** Package recorder: the poll loop and the calls on the registry *)

Module recorder_more.
Import recorder.

(** What the poll loop consumes from outside.  [select_Done ctx] tells
    whether the [select] of line 259 took the case [<-r.ctx.Done()] rather
    than the tick; [run_getEvents ctx] is the [chromedp.Run] of line 268 with
    the events it decoded into [&events]; [json_Marshal] and
    [ws_WriteMessage] serve the forwarding of lines 283-288. *)
Class Polling (W : Type) `{Float64} := {
  select_Done : Ctx → M W bool;
  run_getEvents : Ctx → M W (error * list RecordStep);
  json_Marshal : RecordStep → string;
  ws_WriteMessage : nat → string → M W error
}.

(** Where the goroutine running [listenForEvents] stands: at the [select]
    of line 259; past the test of [isRecording], before the [chromedp.Run]
    of line 268; before the locked append of lines 278-280, with its batch;
    before the forwarding of lines 283-288; or gone. *)
Inductive Poller `{Float64} :=
| AtSelect
| Evaluating
| Holding (events : list RecordStep)
| Appended (events : list RecordStep)
| Ended.

(** A recorder with its poll goroutine. *)
Record Session `{Float64} := {
  rec : ChromeRecorder;
  poller : Poller
}.

(** One atomic step on a session: of its goroutine ([SSelect], [SEvaluate],
    [SAppend], [SForward]) or of a caller holding the recorder ([SStop],
    [SAttach], [SGetSteps]). *)
Inductive SessionEvent :=
| SSelect
| SEvaluate
| SAppend
| SForward
| SStop
| SAttach (conn : nat)
| SGetSteps.

(** A call that changes the registry: the three methods of the manager, and,
    through the pointer [GetRecorder] hands out, the append of the poll loop
    and [SetWebSocketConnection]. *)
Inductive Call `{Float64} :=
| CallStart (sessionID url : string) (device : DeviceInfo)
| CallStop (sessionID : string)
| CallCleanup (sessionID : string)
| CallAppend (sessionID : string) (events : list RecordStep)
| CallAttach (sessionID : string) (conn : nat).

Section recorder_more.
Context `{Float64} `{World W} `{!Polling W}.
Variable script : string.

Definition setSteps (r : ChromeRecorder) (l : list RecordStep)
  : ChromeRecorder :=
  {| ctx := ctx r; cancel := cancel r; isRecording := isRecording r;
     steps := l; wsConn := wsConn r; deviceInfo := deviceInfo r;
     sessionID := sessionID r; targetURL := targetURL r |}.

(** [ChromeRecorder.SetWebSocketConnection]. *)
Definition SetWebSocketConnection (r : ChromeRecorder) (conn : nat)
  : ChromeRecorder :=
  {| ctx := ctx r; cancel := cancel r; isRecording := isRecording r;
     steps := steps r; wsConn := Some conn; deviceInfo := deviceInfo r;
     sessionID := sessionID r; targetURL := targetURL r |}.

(** [listenForEvents], lines 259-265: the [select] and the test of
    [isRecording].  [Some true] goes on to the evaluation, [Some false] is
    [return]; [None] is the panic of [r.ctx.Done()] on a nil context. *)
Definition listen_select (r : ChromeRecorder) : M W (option bool) :=
  match ctx r with
  | None => ret None
  | Some c =>
      let* done := select_Done c in
      if done then ret (Some false)
      else if negb (isRecording r) then ret (Some false)
      else ret (Some true)
  end.

(** [listenForEvents], lines 267-277: [Some (Some events)] is a batch to
    append, [Some None] the [continue] on an error and the fall through on
    an empty batch; [None] is a run on a nil context, which cannot follow a
    [select] that has returned. *)
Definition listen_evaluate (r : ChromeRecorder)
  : M W (option (option (list RecordStep))) :=
  match ctx r with
  | None => ret None
  | Some c =>
      let* (err, events) := run_getEvents c in
      match err with
      | Some _ => ret (Some None)
      | None =>
          if (0 <? Z.of_nat (length events)) then ret (Some (Some events))
          else ret (Some None)
      end
  end.

(** [listenForEvents], lines 278-280: the locked append. *)
Definition listen_append (r : ChromeRecorder) (events : list RecordStep)
  : ChromeRecorder :=
  setSteps r (steps r ++ events).

(** [listenForEvents], lines 283-288: each event is marshalled and written
    to the connection, if there is one; write errors are dropped. *)
Fixpoint forward (conn : nat) (events : list RecordStep) : M W unit :=
  match events with
  | [] => ret tt
  | event :: rest =>
      do ws_WriteMessage conn (json_Marshal event) in
      forward conn rest
  end.

Definition listen_forward (r : ChromeRecorder) (events : list RecordStep)
  : M W unit :=
  match wsConn r with
  | Some conn => forward conn events
  | None => ret tt
  end.

(** [sessionStep s e] is [None] when [e] cannot happen in [s]. *)
Definition sessionStep (s : Session) (e : SessionEvent)
  : M W (option Session) :=
  match e, poller s with
  | SSelect, AtSelect =>
      let* go := listen_select (rec s) in
      match go with
      | None => ret None
      | Some true => ret (Some {| rec := rec s; poller := Evaluating |})
      | Some false => ret (Some {| rec := rec s; poller := Ended |})
      end
  | SEvaluate, Evaluating =>
      let* batch := listen_evaluate (rec s) in
      match batch with
      | None => ret None
      | Some None => ret (Some {| rec := rec s; poller := AtSelect |})
      | Some (Some events) =>
          ret (Some {| rec := rec s; poller := Holding events |})
      end
  | SAppend, Holding events =>
      ret (Some {| rec := listen_append (rec s) events;
                   poller := Appended events |})
  | SForward, Appended events =>
      do listen_forward (rec s) events in
      ret (Some {| rec := rec s; poller := AtSelect |})
  | SStop, _ =>
      let* (_, r) := ChromeRecorder_StopRecording (rec s) in
      ret (Some {| rec := r; poller := poller s |})
  | SAttach conn, _ =>
      ret (Some {| rec := SetWebSocketConnection (rec s) conn;
                   poller := poller s |})
  | SGetSteps, _ => ret (Some s)
  | _, _ => ret None
  end.

Fixpoint sessionRun (s : Session) (es : list SessionEvent)
  : M W (option Session) :=
  match es with
  | [] => ret (Some s)
  | e :: es =>
      let* s' := sessionStep s e in
      match s' with
      | None => ret None
      | Some s' => sessionRun s' es
      end
  end.

(** The appends in a trace. *)
Definition appends (es : list SessionEvent) : nat :=
  length (List.filter (λ e, match e with SAppend => true | _ => false end) es).

(** The appends the loop of a stopped recorder can still make. *)
Definition appendsLeft (p : Poller) : nat :=
  match p with
  | Evaluating | Holding _ => 1
  | _ => 0
  end.

(** One call on the registry; its error is dropped. *)
Definition call (rm : RecorderManager) (c : Call) : M W RecorderManager :=
  match c with
  | CallStart sessionID url device =>
      let* (_, rm) := StartRecording script rm sessionID url device in ret rm
  | CallStop sessionID =>
      let* (_, rm) := StopRecording rm sessionID in ret rm
  | CallCleanup sessionID => ret (snd (CleanupRecording rm sessionID))
  | CallAppend sessionID events =>
      ret {| recorders :=
               alter (λ r, listen_append r events) sessionID (recorders rm) |}
  | CallAttach sessionID conn =>
      ret {| recorders :=
               alter (λ r, SetWebSocketConnection r conn) sessionID
                 (recorders rm) |}
  end.

Fixpoint calls (rm : RecorderManager) (cs : list Call) : M W RecorderManager :=
  match cs with
  | [] => ret rm
  | c :: cs => let* rm := call rm c in calls rm cs
  end.

(** What every recorder in the registry looks like: it is named after its
    key and holds the browser context it was started with. *)
Definition registered_well (rm : RecorderManager) : Prop :=
  ∀ sessionID r,
    recorders rm !! sessionID = Some r →
    recorder.sessionID r = sessionID
    ∧ ∃ c, ctx r = Some c ∧ cancel r = Some c.

End recorder_more.
End recorder_more.

(** ** Package executor: terms for the results of the driver *)

Module driver_more.
Import models executor.

Section driver_more.
Context `{Float64} `{!Given} `{World W}.

(** Every character of [s] is one of [charset]. *)
Definition overCharset (s : string) : bool :=
  forallb (λ c, existsb (Ascii.eqb c) (String.list_ascii_of_string charset))
    (String.list_ascii_of_string s).

(** What the caller of [executeTestCase] judges the run by. *)
Definition verdict (r : ExecutionResult)
  : bool * string * option PerformanceMetric :=
  (Success r, ErrorMessage r, Metrics r).

(** The step indices of the log entries of [m] steps replayed from index
    [i]: two for each step. *)
Definition stepEntries (i : Z) (m : nat) : list Z :=
  flat_map (λ k, [k; k]) (seqZ i (Z.of_nat m)).

(** The messages of the log entries, in order. *)
Definition messages (r : ExecutionResult) : list string :=
  Message <$> Logs r.

End driver_more.
End driver_more.

(** ** Package executor: terms for the traces of the pool *)

Module pool_more.
Import models executor pool_terms.

Section pool_more.
Context `{Float64} `{!Given} `{World W} `{!Runtime}.

Definition isCancel (e : @Event W) : bool :=
  match e with
  | EvCancel _ => true
  | _ => false
  end.

(** The trace without its calls of [CancelExecution]. *)
Definition uncancelled (es : list (@Event W)) : list (@Event W) :=
  List.filter (λ e, negb (isCancel e)) es.

(** Everything of the pool but the ids marked as running. *)
Definition work (p : Pool)
  : Z * chan ExecutionJob * list Worker * gmap nat (chan ExecutionResult)
    * list ExecutionJob :=
  (maxWorkers (GlobalExecutor p), workQueue (GlobalExecutor p), workers p,
   resultChans p, senders p).

(** The jobs the pool holds: with the callers at the send, in the queue and
    with the workers. *)
Definition poolJobs (p : Pool) : list ExecutionJob :=
  senders p ++ buf (workQueue (GlobalExecutor p))
  ++ omap workerJob (workers p).

(** The jobs built by the calls of [ExecuteTestCaseWithOptions] along a
    trace from [p], in order. *)
Fixpoint submitted (p : Pool) (es : list (@Event W)) : list ExecutionJob :=
  match es with
  | [] => []
  | e :: es =>
      match step p e with
      | None => []
      | Some p' =>
          match e with
          | EvRegister execution testCase isVisual =>
              [snd (ExecuteTestCaseWithOptions_register p execution testCase
                      isVisual)]
          | _ => []
          end ++ submitted p' es
      end
  end.

(** The jobs the callers have sent on the queue along a trace from [p], in
    the order of the sends. *)
Fixpoint sent (p : Pool) (es : list (@Event W)) : list ExecutionJob :=
  match es with
  | [] => []
  | e :: es =>
      match step p e with
      | None => []
      | Some p' =>
          match e with
          | EvEnqueue k => option_list (senders p !! k)
          | _ => []
          end ++ sent p' es
      end
  end.

(** The jobs the workers have come to hold along a trace from [p], in the
    order of the receives. *)
Fixpoint taken (p : Pool) (es : list (@Event W)) : list ExecutionJob :=
  match es with
  | [] => []
  | e :: es =>
      match step p e with
      | None => []
      | Some p' =>
          match e with
          | EvDequeue w =>
              match workers p' !! w with
              | Some (Executing job) => [job]
              | _ => []
              end
          | _ => []
          end ++ taken p' es
      end
  end.

(** The result of replaying the test case of [job] in the world [wld]. *)
Definition resultOf (job : ExecutionJob) (wld : W) : ExecutionResult :=
  fst (executeTestCase (TestCase_ job) (IsVisual job) wld).

(** The jobs of the pool have result channels of their own, each of
    capacity one and still empty; no result channel holds more than one
    result. *)
Definition tidy (p : Pool) : Prop :=
  NoDup (ResultChan <$> poolJobs p)
  ∧ (∀ job, job ∈ poolJobs p →
       resultChans p !! ResultChan job = Some {| cap := 1; buf := [] |})
  ∧ ∀ c ch, resultChans p !! c = Some ch →
      cap ch = 1 ∧ (length (buf ch) ≤ 1)%nat.

(** With [js] the jobs submitted so far: the pool holds only jobs of [js],
    no two of which share a result channel; a result held by a worker is the
    result of its job; a result in a channel is the result of the job of
    [js] the channel was made for. *)
Definition accounted (js : list ExecutionJob) (p : Pool) : Prop :=
  NoDup (ResultChan <$> js)
  ∧ (∀ job, job ∈ js → ResultChan job ∈ dom (resultChans p))
  ∧ (∀ job, job ∈ poolJobs p → job ∈ js)
  ∧ (∀ w job result,
       workers p !! w = Some (Completing job result)
       ∨ workers p !! w = Some (Sending job result) →
       ∃ wld, result = resultOf job wld)
  ∧ (∀ c ch result,
       resultChans p !! c = Some ch → result ∈ buf ch →
       ∃ job wld, job ∈ js ∧ ResultChan job = c ∧ result = resultOf job wld).

(** With [h] the ids registered so far: the jobs the pool holds have ids of
    [h], each its own. *)
Definition distinctIDs (h : list N) (p : Pool) : Prop :=
  NoDup (jobID <$> poolJobs p)
  ∧ ∀ job, job ∈ poolJobs p → jobID job ∈ h.

(** With no cancellation of [id] and no second registration of it: as long
    as the pool holds a job of that id with a caller, in the queue or with a
    worker that has not completed it, the id is marked as running. *)
Definition marked (id : N) (p : Pool) : Prop :=
  (∀ job, job ∈ senders p ++ buf (workQueue (GlobalExecutor p)) →
     jobID job = id → running (GlobalExecutor p) !! id = Some true)
  ∧ (∀ w job, workers p !! w = Some (Executing job) →
       jobID job = id → running (GlobalExecutor p) !! id = Some true)
  ∧ (∀ w job result, workers p !! w = Some (Completing job result) →
       jobID job = id → running (GlobalExecutor p) !! id = Some true).

End pool_more.
End pool_more.

(** ** A poll loop for the demonstration world *)

Module demo_more.
Import recorder recorder_more demo.

Definition tap : RecordStep :=
  {| Type_ := "click"; Selector := "#ok"; Value := "";
     Coordinates := ∅; Options := ∅;
     Timestamp := 1700000000000; Screenshot := "" |}.

(** The page reports one click at each poll; the [select] takes the tick. *)
#[export] Instance demoPolling : Polling nat :=
  {| select_Done := λ _ w, (false, w);
     run_getEvents := λ _ w, ((None, [tap]), S w);
     json_Marshal := λ event, Type_ event;
     ws_WriteMessage := λ _ _ w, (None, w) |}.

(** The pool [InitExecutor 1] starts. *)
Definition pool1 : executor.Pool :=
  {| executor.GlobalExecutor :=
       {| executor.maxWorkers := 1;
          executor.workQueue := {| executor.cap := 2; executor.buf := [] |};
          executor.running := ∅ |};
     executor.workers := [executor.Receiving];
     executor.resultChans := ∅;
     executor.senders := [] |}.

Definition register (id : N) : @executor.Event nat :=
  executor.EvRegister {| models.ID := id |} (testCase "[]") true.

(** Execution 7 is cancelled before its job is sent on the queue; the job
    is replayed and its result published all the same. *)
Definition cancelled7 : list (@executor.Event nat) :=
  [ register 7; executor.EvCancel 7; executor.EvEnqueue 0;
    executor.EvDequeue 0; executor.EvExecute 0 0%nat; executor.EvComplete 0;
    executor.EvPublish 0 ].

(** The caller of execution 8 sends before the caller of execution 7; the
    worker receives once. *)
Definition twoJobs : list (@executor.Event nat) :=
  [ register 7; register 8; executor.EvEnqueue 1; executor.EvEnqueue 0;
    executor.EvDequeue 0 ].

(** A started recorder with its poll goroutine at the [select]. *)
Definition session1 : Session :=
  {| rec := snd (fst (ChromeRecorder_StartRecording "(function() {})();"
                        (NewChromeRecorder "s1" phoneInfo)
                        "https://example.test/" 0%nat));
     poller := AtSelect |}.

(** [session1] stopped while its loop holds a batch it has fetched. *)
Definition stoppedHolding : Session :=
  {| rec := snd (fst (ChromeRecorder_StopRecording (rec session1) 1%nat));
     poller := Holding [tap] |}.

(** The race of a stop with a turn of the poll loop: the loop fetches a
    batch, the recorder is stopped, the steps are read, and only then does
    the loop append and forward its batch and reach the [select] again. *)
Definition lateBatch : list SessionEvent :=
  [SSelect; SEvaluate; SStop; SGetSteps; SAppend; SForward; SSelect].

End demo_more.

(** * Properties of the recorder *)

Module recorder_spec.
Import recorder recorder_terms.

Section recorder_spec.
Context `{Float64} `{World W}.
Variable script : string.

Lemma manager_eq (rm : RecorderManager) (m : gmap string ChromeRecorder) :
  m = recorders rm → {| recorders := m |} = rm.
Proof. intros ->. by destruct rm. Qed.

(** C7.  [StartRecording] with a session id that is already in the registry
    returns the duplicate-session error and changes nothing: the registry is
    the same map, so the id still maps to the original recorder, whose
    [isRecording] flag and steps are what they were; no browser is
    started. *)
Theorem StartRecording_duplicate_rejected
    (rm : RecorderManager) (sessionID url : string) (device : DeviceInfo)
    (original : ChromeRecorder) (w : W) :
  recorders rm !! sessionID = Some original →
  StartRecording script rm sessionID url device w
    = (Some (DuplicateSessionError sessionID), rm, w)
  ∧ GetRecorder rm sessionID = Some original
  ∧ GetRecordingStatus rm sessionID
    = (isRecording original, steps original, None).
Proof.
  intros Hin. unfold StartRecording, GetRecorder, GetRecordingStatus.
  rewrite Hin. done.
Qed.

(** C10.  A successful [StopRecording] leaves the session in the registry
    with [isRecording = false] and its steps; a second [StopRecording] of the
    same session returns the error [no recording in progress] and leaves the
    registry, with the session and its steps, as it was. *)
Theorem StopRecording_twice_fails
    (rm rm1 : RecorderManager) (sessionID : string) (w w1 : W) :
  StopRecording rm sessionID w = (None, rm1, w1) →
  ∃ r r1,
    recorders rm !! sessionID = Some r
    ∧ recorders rm1 !! sessionID = Some r1
    ∧ isRecording r1 = false
    ∧ steps r1 = steps r
    ∧ StopRecording rm1 sessionID w1
      = (Some "no recording in progress", rm1, w1)
    ∧ GetRecordingStatus rm1 sessionID = (false, steps r, None).
Proof.
  unfold StopRecording. intros Hstop.
  destruct (recorders rm !! sessionID) as [r|] eqn:Hr; [|discriminate].
  unfold bind, ChromeRecorder_StopRecording in Hstop.
  destruct (isRecording r) eqn:Hrec; simpl in Hstop; [|discriminate].
  unfold bind, ret in Hstop.
  set (r1 := {| ctx := ctx r; cancel := cancel r; isRecording := false;
                steps := steps r; wsConn := wsConn r;
                deviceInfo := deviceInfo r; sessionID := recorder.sessionID r;
                targetURL := targetURL r |}) in *.
  assert (Hrm1 : rm1 = {| recorders := <[sessionID := r1]> (recorders rm) |}).
  { destruct (cancel r); simpl in Hstop;
      [destruct (context_cancel _ w)|]; by inversion Hstop. }
  exists r, r1.
  assert (Hl : recorders rm1 !! sessionID = Some r1).
  { rewrite Hrm1. simpl. apply lookup_insert_eq. }
  split_and!; try done.
  - rewrite Hl. unfold bind, ChromeRecorder_StopRecording. simpl.
    unfold ret. f_equal. f_equal. apply manager_eq. by apply insert_id.
  - unfold GetRecordingStatus. by rewrite Hl.
Qed.

(** C4, as amended.  The first [CleanupRecording] removes the session and
    touches no other; the second returns [nil] again and changes nothing.
    It is the later lookups, [GetRecordingStatus] and [StopRecording], that
    answer [session not found]. *)
Theorem CleanupRecording_twice_silent
    (rm : RecorderManager) (sessionID : string) :
  let (err1, rm1) := CleanupRecording rm sessionID in
  let (err2, rm2) := CleanupRecording rm1 sessionID in
  err1 = None
  ∧ recorders rm1 !! sessionID = None
  ∧ (∀ other, other ≠ sessionID →
       recorders rm1 !! other = recorders rm !! other)
  ∧ err2 = None
  ∧ rm2 = rm1
  ∧ GetRecorder rm1 sessionID = None
  ∧ GetRecordingStatus rm1 sessionID
    = (false, [], Some (SessionNotFoundError sessionID))
  ∧ ∀ w : W, StopRecording rm1 sessionID w
             = (Some (SessionNotFoundError sessionID), rm1, w).
Proof.
  unfold CleanupRecording.
  destruct (recorders rm !! sessionID) as [r|] eqn:Hr; simpl.
  - rewrite lookup_delete_eq.
    unfold GetRecorder, GetRecordingStatus, StopRecording. simpl.
    rewrite lookup_delete_eq.
    split_and!; try done. intros other Hne. by rewrite lookup_delete_ne.
  - rewrite Hr. unfold GetRecorder, GetRecordingStatus, StopRecording.
    rewrite Hr. done.
Qed.

End recorder_spec.

Import demo.

(** C7 at work: a second start of the running session [s1]. *)
Lemma StartRecording_duplicate_rejected_witness :
  ∃ original,
    recorders demo.oneSession !! "s1" = Some original
    ∧ isRecording original = true
    ∧ StartRecording "(function() {})();" demo.oneSession "s1"
        "https://example.test/other" demo.phoneInfo 7%nat
      = (Some "recording session s1 already exists", demo.oneSession, 7%nat).
Proof.
  assert (Hin : ∃ original, recorders demo.oneSession !! "s1" = Some original
                            ∧ isRecording original = true).
  { eexists. split; vm_compute; reflexivity. }
  destruct Hin as (original & Hin & Hrec).
  destruct (StartRecording_duplicate_rejected "(function() {})();"
              demo.oneSession "s1" "https://example.test/other"
              demo.phoneInfo original 7%nat Hin) as (Hs & _).
  exists original. done.
Defined.

(** C10 at work: session [s1] is stopped, then stopped again. *)
Lemma StopRecording_twice_fails_witness :
  ∃ rm1,
    StopRecording demo.oneSession "s1" 3%nat = (None, rm1, 3%nat)
    ∧ StopRecording rm1 "s1" 3%nat = (Some "no recording in progress", rm1, 3%nat).
Proof.
  destruct (StopRecording demo.oneSession "s1" 3%nat) as [[e rm1] w1] eqn:Hs.
  assert (He : e = None ∧ w1 = 3%nat).
  { split.
    - change e with (fst (fst (e, rm1, w1))). rewrite <- Hs. vm_compute. reflexivity.
    - change w1 with (snd (e, rm1, w1)). rewrite <- Hs. vm_compute. reflexivity. }
  destruct He as [-> ->].
  destruct (StopRecording_twice_fails demo.oneSession rm1 "s1" 3%nat 3%nat Hs)
    as (r & r1 & _ & _ & _ & _ & H2 & _).
  exists rm1. done.
Defined.

(** C4 as stated fails: after [s1] is cleaned up, a second cleanup returns
    [nil], not an error. *)
Lemma CleanupRecording_twice_counterexample :
  ¬ cleanup_twice_errors demo.oneSession "s1".
Proof.
  unfold cleanup_twice_errors.
  destruct (CleanupRecording demo.oneSession "s1") as [e1 rm1] eqn:H1.
  destruct (CleanupRecording rm1 "s1") as [e2 rm2] eqn:H2.
  intros [_ He2].
  unfold CleanupRecording in H2.
  destruct (recorders rm1 !! "s1"); inversion H2; subst; discriminate.
Qed.

End recorder_spec.

(** * Properties of the step replay driver *)

Module executor_spec.
Import models executor driver_terms.

Section driver_spec.
Context `{Float64} `{!Given} `{World W}.

(** ** Logging and screenshots, one call at a time *)

Lemma addLog_unfold (r : ExecutionResult) level message i (w : W) :
  addLog r level message i w
  = ({| Success := Success r; ErrorMessage := ErrorMessage r;
        Screenshots := Screenshots r;
        Logs := Logs r ++ [ {| Timestamp := fst (time_Now w); Level := level;
                               Message := message; StepIndex := i |} ];
        Metrics := Metrics r |},
     snd (time_Now w)).
Proof. unfold addLog, bind, ret. by destruct (time_Now w). Qed.

Lemma appendScreenshot_fields (r : ExecutionResult) name :
  Success (appendScreenshot r name) = Success r
  ∧ ErrorMessage (appendScreenshot r name) = ErrorMessage r
  ∧ Logs (appendScreenshot r name) = Logs r
  ∧ Screenshots (appendScreenshot r name)
    = Screenshots r ++ (if String.eqb name "" then [] else [name]).
Proof.
  unfold appendScreenshot. destruct (String.eqb name ""); simpl;
    rewrite ?app_nil_r; done.
Qed.

Lemma append_nonempty (s1 s2 : string) : s2 ≠ "" → s1 +:+ s2 ≠ "".
Proof. intros Hs2. destruct s1; cbn [String.append]; [done | discriminate]. Qed.

Lemma IsShot_nonempty tag i name : IsShot tag i name → name ≠ "".
Proof.
  intros (ts & rnd & ->). apply append_nonempty.
  cbn [String.append]. discriminate.
Qed.

Lemma takeScreenshot_name ctx tag i (w : W) :
  fst (takeScreenshot ctx tag i w) = ""
  ∨ IsShot tag i (fst (takeScreenshot ctx tag i w)).
Proof.
  unfold takeScreenshot, bind, ret.
  destruct (time_Now w) as [t w1].
  destruct (generateRandomString 8 w1) as [rnd w2].
  destruct (os_MkdirAll _ w2) as [[e|] w3]; [by left|].
  destruct (chromedp_Run _ _ w3) as [[[e|] buf] w4]; [by left|].
  destruct (ioutil_WriteFile _ _ w4) as [[e|] w5]; [by left|].
  right. by exists (time_Format t), rnd.
Qed.

(** Name the outcome of the next call of a monadic block. *)
Ltac next_call :=
  match goal with
  | |- context [let (_, _) := ?m in _] =>
      lazymatch m with
      | context [let (_, _) := _ in _] => fail
      | _ => destruct m
      end
  end.

(** The same, with a call of [addLog] replaced by what it returns. *)
Ltac next_log unfold_lemma :=
  match goal with
  | |- context [let (_, _) := addLog ?r ?l ?m ?i ?w in _] =>
      rewrite (unfold_lemma r l m i w)
  | |- context [(match ?e with Some _ => _ | None => _ end) _] => destruct e
  | |- context [let (_, _) := ?m in _] =>
      lazymatch m with
      | context [let (_, _) := _ in _] => fail
      | _ => destruct m
      end
  end.

(** ** One iteration of the loop *)

(** The body falls through exactly when [executeStep] returned [nil]; it
    has then logged two entries for the step and kept success flag and error
    message. *)
Lemma replayStep_Next ctx i step (r r' : ExecutionResult) (w w' : W) :
  replayStep ctx i step r w = (Next r', w') →
  stepError ctx i step w = None
  ∧ indices r' = indices r ++ [i; i]
  ∧ Success r' = Success r
  ∧ ErrorMessage r' = ErrorMessage r
  ∧ Screenshots r' = Screenshots r ++
      (if shouldTakeScreenshot step then shot (stepShot ctx i step w) else []).
Proof.
  unfold replayStep, stepError, stepShot, bind.
  rewrite addLog_unfold.
  destruct (executeStep ctx step i (snd (time_Now w))) as [[e|] w2]; simpl.
  - rewrite addLog_unfold. next_call. discriminate.
  - rewrite addLog_unfold.
    destruct (shouldTakeScreenshot step).
    + destruct (takeScreenshot ctx "step" i (snd (time_Now w2))) as [name w3].
      simpl. next_call. unfold ret. intros [= <- <-].
      match goal with |- context [appendScreenshot ?r0 name] =>
        destruct (appendScreenshot_fields r0 name) as (Hs & He & Hl & Hsh) end.
      rewrite Hs, He, Hsh. unfold indices. rewrite Hl. simpl.
      rewrite !fmap_app, <- app_assoc. done.
    + unfold ret. simpl. next_call.
      intros [= <- <-]. simpl. split_and!; try done.
      * unfold indices. simpl. rewrite !fmap_app, <- app_assoc. done.
      * by rewrite app_nil_r.
Qed.

(** The body returns exactly when [executeStep] returned an error [e]; it
    has then logged two entries for the step, the second at level [error]
    carrying the error message [Step i+1 failed: e], and left the success
    flag alone. *)
Lemma replayStep_Return ctx i step (r r' : ExecutionResult) (w w' : W) :
  replayStep ctx i step r w = (Return r', w') →
  ∃ e t,
    stepError ctx i step w = Some e
    ∧ indices r' = indices r ++ [i; i]
    ∧ Success r' = Success r
    ∧ ErrorMessage r' = "Step " +:+ pretty (i + 1) +:+ " failed: " +:+ e
    ∧ last (Logs r')
      = Some {| Timestamp := t; Level := "error";
                Message := ErrorMessage r'; StepIndex := i |}.
Proof.
  unfold replayStep, stepError, bind.
  rewrite addLog_unfold.
  destruct (executeStep ctx step i (snd (time_Now w))) as [[e|] w2]; simpl.
  - rewrite addLog_unfold.
    destruct (takeScreenshot ctx "error" i (snd (time_Now w2))) as [name w3].
    unfold ret. intros [= <- <-]. exists e, (fst (time_Now w2)).
    match goal with |- context [appendScreenshot ?r0 name] =>
      destruct (appendScreenshot_fields r0 name) as (Hs & He & Hl & Hsh) end.
    rewrite Hs, He. unfold indices. rewrite Hl. simpl.
    rewrite !fmap_app, <- app_assoc, last_snoc. done.
  - rewrite addLog_unfold.
    destruct (shouldTakeScreenshot step).
    + next_call. simpl. next_call. discriminate.
    + simpl. next_call. discriminate.
Qed.

(** The two cases are the only ones. *)
Lemma replayStep_flow ctx i step (r : ExecutionResult) (w : W) :
  match stepError ctx i step w with
  | None => ∃ r' w', replayStep ctx i step r w = (Next r', w')
  | Some _ => ∃ r' w', replayStep ctx i step r w = (Return r', w')
  end.
Proof.
  destruct (replayStep ctx i step r w) as [[r'|r'] w'] eqn:Hstep.
  - destruct (replayStep_Next _ _ _ _ _ _ _ Hstep) as [-> _]. eauto.
  - destruct (replayStep_Return _ _ _ _ _ _ _ Hstep) as (e & t & -> & _). eauto.
Qed.

(** ** The loop *)

Lemma replaySteps_app ctx (pre post : list TestStep) :
  ∀ i (r : ExecutionResult) (w : W),
    replaySteps ctx i (pre ++ post) r w
    = match replaySteps ctx i pre r w with
      | (Next r', w') =>
          replaySteps ctx (i + Z.of_nat (length pre)) post r' w'
      | (Return r', w') => (Return r', w')
      end.
Proof.
  induction pre as [|step pre IH]; intros i r w.
  - simpl. unfold ret. by rewrite Z.add_0_r.
  - cbn [replaySteps app length]. unfold bind.
    destruct (replayStep ctx i step r w) as [[r'|r'] w']; [|done].
    rewrite IH. replace (i + 1 + Z.of_nat (length pre))
      with (i + Z.of_nat (S (length pre))) by lia. done.
Qed.

(** However the loop ends, it keeps the success flag, and the entries it
    logs carry the indices of the steps it was given. *)
Lemma replaySteps_grows ctx (steps : list TestStep) :
  ∀ i (r : ExecutionResult) (w : W),
    Success (flowResult (fst (replaySteps ctx i steps r w))) = Success r
    ∧ ∃ extra,
        indices (flowResult (fst (replaySteps ctx i steps r w)))
        = indices r ++ extra
        ∧ Forall (λ k, i ≤ k < i + Z.of_nat (length steps)) extra.
Proof.
  induction steps as [|step rest IH]; intros i r w.
  - simpl. split; [done|]. exists []. by rewrite app_nil_r.
  - cbn [replaySteps]. unfold bind.
    destruct (replayStep ctx i step r w) as [[r'|r'] w'] eqn:Hstep.
    + destruct (replayStep_Next _ _ _ _ _ _ _ Hstep) as (_ & Hi & Hs & _).
      destruct (IH (i + 1) r' w') as (Hs' & extra & Hi' & Hall).
      split; [congruence|].
      exists ([i; i] ++ extra). rewrite Hi', Hi, <- app_assoc. split; [done|].
      apply Forall_app. split.
      * repeat constructor; cbn [length]; lia.
      * eapply Forall_impl; [exact Hall|]. cbn [length]. intros k ?. lia.
    + destruct (replayStep_Return _ _ _ _ _ _ _ Hstep)
        as (e & t & _ & Hi & Hs & _).
      simpl. split; [done|]. exists [i; i]. split; [done|].
      repeat constructor; cbn [length]; lia.
Qed.

(** A loop that runs to its end keeps the error message, and in a clean
    run it adds one screenshot for each key step, in step order. *)
Lemma replaySteps_Next ctx (steps : list TestStep) :
  ∀ i (r r' : ExecutionResult) (w w' : W),
    replaySteps ctx i steps r w = (Next r', w') →
    ErrorMessage r' = ErrorMessage r
    ∧ (cleanReplay ctx i steps r w = true →
       ∃ shots,
         Screenshots r' = Screenshots r ++ shots
         ∧ Forall2 (IsShot "step") (keyIndices i steps) shots).
Proof.
  induction steps as [|step rest IH]; intros i r r' w w'.
  - simpl. unfold ret. intros [= <- <-]. split; [done|]. intros _.
    exists []. rewrite app_nil_r. split; [done | constructor].
  - cbn [replaySteps cleanReplay keyIndices]. unfold bind.
    destruct (replayStep ctx i step r w) as [[r1|r1] w1] eqn:Hstep;
      [|discriminate].
    intros Hrest.
    destruct (replayStep_Next _ _ _ _ _ _ _ Hstep) as (He & _ & _ & Hm & Hsh).
    destruct (IH _ _ _ _ _ Hrest) as (Hm' & Hclean).
    split; [congruence|]. rewrite He. intros Hc.
    apply andb_true_iff in Hc as [Hshot Hc].
    destruct (Hclean Hc) as (shots & Hshots & Hall).
    destruct (shouldTakeScreenshot step).
    + exists (stepShot ctx i step w :: shots). split.
      * rewrite Hshots, Hsh. unfold shot.
        destruct (String.eqb (stepShot ctx i step w) ""); [done|].
        by rewrite <- app_assoc.
      * constructor; [|done].
        unfold stepShot in *.
        match goal with |- IsShot _ _ (fst (takeScreenshot ?c ?t ?k ?x)) =>
          destruct (takeScreenshot_name c t k x) as [Hn|Hn]; [|done] end.
        rewrite Hn in Hshot. done.
    + exists shots. rewrite Hshots, Hsh, app_nil_r. done.
Qed.

(** ** Before and after the loop *)

Ltac solve_logged :=
  unfold logged, indices; simpl; split_and!; try done;
  rewrite ?fmap_app, <- ?app_assoc; simpl;
  eexists; split_and!; [|reflexivity|repeat constructor]; done.

Lemma openPage_logged ctx testCase (r : ExecutionResult) (w : W) :
  logged r (flowResult (fst (openPage ctx testCase r w))).
Proof.
  unfold openPage, bind, runErr, ret. rewrite addLog_unfold.
  unfold bind, ret.
  repeat (next_log addLog_unfold; simpl).
  all: rewrite ?addLog_unfold; simpl.
  all: solve_logged.
Qed.

(** A failure to decode the steps returns at once: nothing has been logged
    and the world has not been touched. *)
Lemma setup_parse_failure testCase isVisual (w : W) steps e :
  GetSteps testCase = (steps, Some e) →
  setup testCase isVisual w
  = (Abort {| Success := false;
              ErrorMessage := "Failed to parse test steps: " +:+ e;
              Screenshots := []; Logs := []; Metrics := None |}, w).
Proof. unfold setup. intros ->. done. Qed.

(** When the steps decode, [setup] has logged something on every path, has
    taken no screenshot, and has not set the success flag. *)
Lemma setup_parsed testCase isVisual (w : W) steps :
  GetSteps testCase = (steps, None) →
  match fst (setup testCase isVisual w) with
  | Abort r => logged emptyResult r
  | Ready _ _ _ steps' _ r => steps' = steps ∧ logged emptyResult r
  end.
Proof.
  unfold setup. intros ->. unfold bind.
  destruct (chrome.GetChromePath w) as [chromePath w1].
  destruct (String.eqb chromePath "").
  - rewrite addLog_unfold. unfold ret. simpl. solve_logged.
  - rewrite addLog_unfold.
    destruct (os_Stat chromePath _) as [[e|] w2].
    + rewrite addLog_unfold. unfold ret. simpl. solve_logged.
    + do 4 next_call.
      match goal with |- context [openPage ?c ?t ?r ?x] =>
        pose proof (openPage_logged c t r x) as Hopen;
        destruct (openPage c t r x) as [[r'|r'] w'] end.
      * simpl in *. split; [done|].
        destruct Hopen as (Hs & Hsh & extra & Hne & Hi & Hall).
        unfold logged. split_and!; try done.
        exists ([-1] ++ extra). split_and!.
        -- done.
        -- rewrite Hi. unfold indices. simpl. done.
        -- by constructor.
      * unfold bind, runDeferred, bind, ret. repeat next_call. simpl in *.
        destruct Hopen as (Hs & Hsh & extra & Hne & Hi & Hall).
        unfold logged. split_and!; try done.
        exists ([-1] ++ extra). split_and!.
        -- done.
        -- rewrite Hi. unfold indices. simpl. done.
        -- by constructor.
Qed.

Lemma finish_fields ctx steps startTime (r : ExecutionResult) (w : W) :
  let r' := fst (finish ctx steps startTime r w) in
  Success r' = true
  ∧ ErrorMessage r' = ErrorMessage r
  ∧ indices r' = indices r ++ [-1]
  ∧ Screenshots r'
    = Screenshots r
      ++ shot (fst (takeScreenshot ctx "final" (Z.of_nat (length steps)) w)).
Proof.
  unfold finish, bind.
  destruct (takeScreenshot ctx "final" _ w) as [name w1].
  repeat next_call. rewrite addLog_unfold.
  destruct (appendScreenshot_fields r name) as (Hs & He & Hl & Hsh).
  simpl. unfold indices. simpl. rewrite Hl, fmap_app. done.
Qed.

Lemma initialScreenshot_fields ctx (r : ExecutionResult) (w : W) :
  let r' := fst (initialScreenshot ctx r w) in
  Success r' = Success r
  ∧ ErrorMessage r' = ErrorMessage r
  ∧ indices r' = indices r
  ∧ Screenshots r'
    = Screenshots r ++ shot (fst (takeScreenshot ctx "initial" 0 w)).
Proof.
  unfold initialScreenshot, bind, ret.
  destruct (takeScreenshot ctx "initial" 0 w) as [name w1].
  destruct (appendScreenshot_fields r name) as (Hs & He & Hl & Hsh).
  simpl. unfold indices. rewrite Hl. done.
Qed.

(** The result of [executeTestCase] is the result of [setup] or of
    [replay]: the deferred cancels change the world only. *)
Lemma executeTestCase_result testCase isVisual (w : W) :
  fst (executeTestCase testCase isVisual w)
  = match setup testCase isVisual w with
    | (Abort r, _) => r
    | (Ready _ _ ctx steps startTime r, w1) =>
        fst (replay ctx steps startTime r w1)
    end.
Proof.
  unfold executeTestCase, bind.
  destruct (setup testCase isVisual w) as [[r|a c0 c steps t0 r] w1]; [done|].
  destruct (replay c steps t0 r w1) as [r' w2].
  unfold runDeferred, bind, ret. by repeat next_call.
Qed.

Lemma setup_Ready testCase isVisual (w w1 : W) a c0 c steps t0
    (r1 : ExecutionResult) :
  setup testCase isVisual w = (Ready a c0 c steps t0 r1, w1) →
  GetSteps testCase = (steps, None) ∧ logged emptyResult r1.
Proof.
  intros Hsetup.
  destruct (GetSteps testCase) as [steps' [e|]] eqn:Hparse.
  - rewrite (setup_parse_failure _ isVisual w _ _ Hparse) in Hsetup.
    discriminate.
  - pose proof (setup_parsed _ isVisual w _ Hparse) as Hp.
    rewrite Hsetup in Hp. simpl in Hp. destruct Hp as [-> Hp]. done.
Qed.

Lemma no_step_entries (l : list Z) :
  Forall (λ k, k = -1) l → filter (λ k, 0 ≤ k) l = [].
Proof.
  induction 1 as [|k l -> _ IH]; [done|].
  rewrite filter_cons_False by lia. done.
Qed.

Lemma shouldTakeScreenshot_types (step : TestStep) :
  shouldTakeScreenshot step = true
  ↔ Type_ step ∈ ["click"; "submit"; "change"].
Proof.
  unfold shouldTakeScreenshot. rewrite existsb_exists. split.
  - intros (t & Hin & Heq). apply String.eqb_eq in Heq as ->.
    by apply list_elem_of_In.
  - intros Hin. exists (Type_ step). split; [by apply list_elem_of_In|].
    apply String.eqb_refl.
Qed.

Lemma keyIndices_length (steps : list TestStep) :
  ∀ i, length (keyIndices i steps)
       = length (filter (λ step, Type_ step ∈ ["click"; "submit"; "change"])
                   steps).
Proof.
  induction steps as [|step rest IH]; intros i; [done|].
  cbn [keyIndices]. destruct (shouldTakeScreenshot step) eqn:Hk.
  - rewrite filter_cons_True by (by apply shouldTakeScreenshot_types).
    cbn [length]. by rewrite IH.
  - rewrite filter_cons_False; [by rewrite IH|].
    rewrite <- shouldTakeScreenshot_types, Hk. done.
Qed.

(** [executeStep] on a type it does not know: the error of the [default]
    branch, and the browser is not touched. *)
Lemma executeStep_unsupported ctx (step : TestStep) i (w : W) :
  Type_ step ∉ supported →
  executeStep ctx step i w
  = (Some ("unsupported step type: " +:+ Type_ step), w).
Proof.
  intros Hno. unfold executeStep.
  repeat match goal with
  | |- context [String.eqb (Type_ step) ?t] =>
      destruct (String.eqb_spec (Type_ step) t) as [Heq|_];
      [exfalso; apply Hno; rewrite Heq; unfold supported; set_solver|]
  end.
  done.
Qed.

(** ** The claims about [executeTestCase] *)

(** C1, the failing path.  When the stored steps do not decode,
    [executeTestCase] returns at once with [Success = false], the parse error
    as message and an empty [Logs]: no log entry is written on this path. *)
Theorem executeTestCase_parse_failure_logs_nothing
    testCase isVisual (w : W) steps e :
  GetSteps testCase = (steps, Some e) →
  executeTestCase testCase isVisual w
  = ({| Success := false;
        ErrorMessage := "Failed to parse test steps: " +:+ e;
        Screenshots := []; Logs := []; Metrics := None |}, w).
Proof.
  intros Hparse. unfold executeTestCase, bind.
  by rewrite (setup_parse_failure _ _ _ _ _ Hparse).
Qed.

(** On every other path the result has at least one log entry, whether the
    job succeeds or fails. *)
Lemma executeTestCase_logs_when_parsed testCase isVisual (w : W) steps :
  GetSteps testCase = (steps, None) →
  Logs (fst (executeTestCase testCase isVisual w)) ≠ [].
Proof.
  intros Hparse. rewrite executeTestCase_result.
  pose proof (setup_parsed _ isVisual w _ Hparse) as Hp.
  assert (Hne : ∀ r r' : ExecutionResult,
            logged emptyResult r →
            (∃ extra, indices r' = indices r ++ extra) → Logs r' ≠ []).
  { intros r r' (_ & _ & extra & Hne & Hi & _) (extra' & Hi') Hnil.
    unfold indices in *. rewrite Hnil, Hi in Hi'. simpl in Hi'.
    destruct extra; [done|discriminate]. }
  destruct (setup testCase isVisual w) as [[r|a c0 c steps' t0 r] w1];
    simpl in Hp.
  - apply (Hne r r Hp). exists []. by rewrite app_nil_r.
  - destruct Hp as [-> Hp]. apply (Hne r _ Hp).
    unfold replay, bind.
    pose proof (initialScreenshot_fields c r w1) as (_ & _ & Hi0 & _).
    destruct (initialScreenshot c r w1) as [r2 w2]. simpl in Hi0.
    pose proof (replaySteps_grows c steps 0 r2 w2) as (_ & extra & Hi & _).
    destruct (replaySteps c 0 steps r2 w2) as [[r3|r3] w3]; simpl in Hi.
    + pose proof (finish_fields c steps t0 r3 w3) as (_ & _ & Hf & _).
      simpl in Hf. exists (extra ++ [-1]).
      rewrite Hf, Hi, Hi0, <- app_assoc. done.
    + exists extra. unfold ret. simpl. by rewrite Hi, Hi0.
Qed.

(** Entries that belong to no step do not show in [stepLog]. *)
Lemma stepLog_none (r : ExecutionResult) :
  Forall (λ k, k = -1) (indices r) → stepLog r = [].
Proof.
  unfold indices, stepLog. induction (Logs r) as [|l ls IH]; [done|].
  rewrite fmap_cons. intros [Hl Hls]%Forall_cons.
  rewrite filter_cons_False by (simpl; lia). by apply IH.
Qed.

Lemma stepLog_app (r : ExecutionResult) (ls : list ExecutionLog) :
  (λ l, (Level l, Message l, StepIndex l))
  <$> filter (λ l, 0 ≤ StepIndex l) (Logs r ++ ls)
  = stepLog r ++ ((λ l, (Level l, Message l, StepIndex l))
                  <$> filter (λ l, 0 ≤ StepIndex l) ls).
Proof. unfold stepLog. by rewrite filter_app, fmap_app. Qed.

(** The two entries one turn of the loop leaves for the step at index [i]:
    the start of the step, and its outcome. *)
Lemma replayStep_stepLog ctx i step (r : ExecutionResult) (w : W) :
  0 ≤ i →
  stepLog (flowResult (fst (replayStep ctx i step r w)))
  = stepLog r
    ++ [ ("info",
          "Executing step " +:+ pretty (i + 1) +:+ ": " +:+ Type_ step, i);
         match stepError ctx i step w with
         | None =>
             ("info",
              "Step " +:+ pretty (i + 1) +:+ " completed successfully", i)
         | Some e =>
             ("error", "Step " +:+ pretty (i + 1) +:+ " failed: " +:+ e, i)
         end ].
Proof.
  intros Hi. unfold replayStep, stepError, bind.
  rewrite addLog_unfold.
  destruct (executeStep ctx step i (snd (time_Now w))) as [[e|] w2]; simpl.
  - rewrite addLog_unfold.
    destruct (takeScreenshot ctx "error" i (snd (time_Now w2))) as [name w3].
    unfold ret. simpl.
    match goal with |- context [appendScreenshot ?r0 name] =>
      destruct (appendScreenshot_fields r0 name) as (_ & _ & Hl & _) end.
    unfold stepLog at 1. rewrite Hl. simpl.
    rewrite <- app_assoc, stepLog_app. simpl.
    by rewrite !filter_cons_True by done.
  - rewrite addLog_unfold.
    destruct (shouldTakeScreenshot step).
    + destruct (takeScreenshot ctx "step" i (snd (time_Now w2))) as [name w3].
      simpl. next_call. unfold ret. simpl.
      match goal with |- context [appendScreenshot ?r0 name] =>
        destruct (appendScreenshot_fields r0 name) as (_ & _ & Hl & _) end.
      unfold stepLog at 1. rewrite Hl. simpl.
      rewrite <- app_assoc, stepLog_app. simpl.
      by rewrite !filter_cons_True by done.
    + unfold ret. simpl. next_call. simpl.
      unfold stepLog at 1. simpl.
      rewrite <- app_assoc, stepLog_app. simpl.
      by rewrite !filter_cons_True by done.
Qed.

(** C2, as amended.  The driver has reached the loop with at least two
    steps; [executeStep] returns [nil] for the step at index 0 and an error
    [e] for the step at index 1.  Then the job fails with the message
    [Step 2 failed: e], and the entries of the log that belong to a step are
    four, two for index 0 followed by two for index 1: for step 0 the entry
    [Executing step 1: <type>] followed by [Step 1 completed successfully],
    both at level [info], and for step 1 the entry [Executing step 2: <type>]
    at level [info] followed by [Step 2 failed: e] at level [error]; no entry
    refers to index 2 or beyond. *)
Theorem replay_stops_at_first_failing_step
    testCase isVisual (w w1 w2 : W) a c0 c s0 s1 rest t0
    (r1 r2 : ExecutionResult) e :
  setup testCase isVisual w = (Ready a c0 c (s0 :: s1 :: rest) t0 r1, w1) →
  initialScreenshot c r1 w1 = (r2, w2) →
  stepError c 0 s0 w2 = None →
  stepError c 1 s1 (snd (replayStep c 0 s0 r2 w2)) = Some e →
  let result := fst (executeTestCase testCase isVisual w) in
  Success result = false
  ∧ ErrorMessage result = "Step 2 failed: " +:+ e
  ∧ stepIndices result = [0; 0; 1; 1]
  ∧ length (filter (λ k, k = 0 ∨ k = 1) (indices result)) = 4%nat
  ∧ Forall (λ k, k < 2) (indices result)
  ∧ stepLog result
    = [ ("info", "Executing step 1: " +:+ Type_ s0, 0);
        ("info", "Step 1 completed successfully", 0);
        ("info", "Executing step 2: " +:+ Type_ s1, 1);
        ("error", "Step 2 failed: " +:+ e, 1) ].
Proof.
  intros Hsetup Hinit H0ok H1err result. subst result.
  rewrite executeTestCase_result, Hsetup. unfold replay, bind.
  rewrite Hinit. cbn [replaySteps]. unfold bind.
  destruct (setup_Ready _ _ _ _ _ _ _ _ _ _ Hsetup)
    as (_ & Hs1 & _ & extra & _ & Hi1 & Hall).
  pose proof (initialScreenshot_fields c r1 w1) as (Hs2 & _ & Hi2 & _).
  rewrite Hinit in Hs2, Hi2. simpl in Hs2, Hi2.
  assert (Hlog2 : stepLog r2 = []).
  { apply stepLog_none. rewrite Hi2, Hi1. unfold indices. simpl. done. }
  pose proof (replayStep_stepLog c 0 s0 r2 w2 (Z.le_refl 0)) as Hlog3.
  rewrite H0ok, Hlog2 in Hlog3.
  pose proof (replayStep_flow c 0 s0 r2 w2) as Hflow0.
  rewrite H0ok in Hflow0. destruct Hflow0 as (r3 & w3 & Hstep0).
  rewrite Hstep0 in H1err, Hlog3 |- *. simpl in H1err, Hlog3.
  pose proof (replayStep_stepLog c 1 s1 r3 w3 ltac:(lia)) as Hlog4.
  rewrite H1err, Hlog3 in Hlog4.
  destruct (replayStep_Next _ _ _ _ _ _ _ Hstep0) as (_ & Hi3 & Hs3 & _).
  pose proof (replayStep_flow c 1 s1 r3 w3) as Hflow1.
  rewrite H1err in Hflow1. destruct Hflow1 as (r4 & w4 & Hstep1).
  change (0 + 1) with 1. rewrite Hstep1 in Hlog4 |- *. unfold ret. simpl.
  simpl in Hlog4.
  destruct (replayStep_Return _ _ _ _ _ _ _ Hstep1)
    as (e' & t & He' & Hi4 & Hs4 & Hm4 & _).
  rewrite H1err in He'. injection He' as <-.
  assert (Hidx : indices r4 = extra ++ [0; 0; 1; 1]).
  { rewrite Hi4, Hi3, Hi2, Hi1. unfold indices. simpl.
    by rewrite <- app_assoc. }
  split_and!.
  - by rewrite Hs4, Hs3, Hs2, Hs1.
  - done.
  - unfold stepIndices. rewrite Hidx, filter_app, (no_step_entries _ Hall).
    done.
  - rewrite Hidx, filter_app.
    replace (filter (λ k, k = 0 ∨ k = 1) extra) with (@nil Z); [done|].
    clear -Hall. induction Hall as [|k l -> _ IH]; [done|].
    rewrite filter_cons_False by lia. done.
  - rewrite Hidx. apply Forall_app. split.
    + eapply Forall_impl; [exact Hall|]. intros k ->. done.
    + repeat constructor.
  - exact Hlog4.
Qed.

(** C3.  The driver has reached the first screenshot with the decoded
    [steps]; in the run every step succeeds and every screenshot is
    captured.  Then the job succeeds and [Screenshots] holds the initial
    screenshot, one screenshot for each step of type click, submit or
    change, in step order and named after the index of its step, and the
    final screenshot: [2 + k] entries. *)
Theorem screenshots_of_a_clean_run
    testCase isVisual (w w1 : W) a c0 c steps t0 (r1 : ExecutionResult) :
  setup testCase isVisual w = (Ready a c0 c steps t0 r1, w1) →
  cleanRun c steps r1 w1 = true →
  let result := fst (executeTestCase testCase isVisual w) in
  let k := length (filter (λ step, Type_ step ∈ ["click"; "submit"; "change"])
                     steps) in
  Success result = true
  ∧ length (Screenshots result) = (2 + k)%nat
  ∧ ∃ initial shots final,
      Screenshots result = initial :: shots ++ [final]
      ∧ IsShot "initial" 0 initial
      ∧ Forall2 (IsShot "step") (keyIndices 0 steps) shots
      ∧ IsShot "final" (Z.of_nat (length steps)) final.
Proof.
  intros Hsetup Hclean result k. subst result k.
  rewrite executeTestCase_result, Hsetup.
  destruct (setup_Ready _ _ _ _ _ _ _ _ _ _ Hsetup)
    as (_ & _ & Hsh1 & _).
  unfold cleanRun in Hclean. apply andb_true_iff in Hclean as [Hinitial Hclean].
  unfold replay, bind.
  pose proof (initialScreenshot_fields c r1 w1) as (_ & _ & _ & Hsh2).
  destruct (initialScreenshot c r1 w1) as [r2 w2]. simpl in Hsh2.
  apply andb_true_iff in Hclean as [Hloop Hfinal].
  destruct (replaySteps c 0 steps r2 w2) as [[r3|r3] w3] eqn:Hsteps;
    [|discriminate].
  destruct (replaySteps_Next _ _ _ _ _ _ _ Hsteps) as (_ & Hshots).
  destruct (Hshots Hloop) as (shots & Hsh3 & Hall).
  pose proof (finish_fields c steps t0 r3 w3) as (Hs & _ & _ & Hsh4).
  simpl in Hs, Hsh4.
  set (initial := fst (takeScreenshot c "initial" 0 w1)) in *.
  set (final := fst (takeScreenshot c "final" (Z.of_nat (length steps)) w3)) in *.
  assert (Hscreens : Screenshots (fst (finish c steps t0 r3 w3))
                     = initial :: shots ++ [final]).
  { rewrite Hsh4, Hsh3, Hsh2, Hsh1. unfold shot.
    destruct (String.eqb initial ""); [done|].
    destruct (String.eqb final ""); [done|].
    simpl. done. }
  split_and!.
  - done.
  - rewrite Hscreens. cbn [length]. rewrite length_app. cbn [length].
    rewrite <- (keyIndices_length steps 0), (Forall2_length _ _ _ Hall). lia.
  - exists initial, shots, final. split_and!; try done.
    + destruct (takeScreenshot_name c "initial" 0 w1) as [Hn|Hn]; [|done].
      fold initial in Hn. rewrite Hn in Hinitial. done.
    + destruct (takeScreenshot_name c "final" (Z.of_nat (length steps)) w3)
        as [Hn|Hn]; [|done].
      fold final in Hn. rewrite Hn in Hfinal. done.
Qed.

(** C9, as amended.  A step whose type is none of the eight that
    [executeStep] dispatches makes [executeStep] return the error [unsupported step type].
    When the driver has reached the loop and the steps before it have
    succeeded, the loop returns at that step: the job has [Success = false],
    its error message names the step by its position [k + 1] counted from
    one, the last log entry is that message at level [error] with the index
    [k] of the step, and no entry refers to a later step. *)
Theorem unsupported_step_type_fails_the_job
    testCase isVisual (w w1 w2 w3 : W) a c0 c pre step post t0
    (r1 r2 r3 : ExecutionResult) :
  Type_ step ∉ supported →
  setup testCase isVisual w = (Ready a c0 c (pre ++ step :: post) t0 r1, w1) →
  initialScreenshot c r1 w1 = (r2, w2) →
  replaySteps c 0 pre r2 w2 = (Next r3, w3) →
  let k := Z.of_nat (length pre) in
  let result := fst (executeTestCase testCase isVisual w) in
  (∀ i wld, executeStep c step i wld
            = (Some ("unsupported step type: " +:+ Type_ step), wld))
  ∧ Success result = false
  ∧ ErrorMessage result
    = "Step " +:+ pretty (k + 1) +:+ " failed: unsupported step type: "
      +:+ Type_ step
  ∧ (∃ t, last (Logs result)
          = Some {| Timestamp := t; Level := "error";
                    Message := ErrorMessage result; StepIndex := k |})
  ∧ Forall (λ j, j ≤ k) (indices result).
Proof.
  intros Hno Hsetup Hinit Hpre k result. subst result.
  split; [intros i wld; by apply executeStep_unsupported|].
  rewrite executeTestCase_result, Hsetup. unfold replay, bind.
  rewrite Hinit, replaySteps_app, Hpre. cbn [replaySteps]. unfold bind.
  fold k. replace (0 + k) with k by lia.
  destruct (setup_Ready _ _ _ _ _ _ _ _ _ _ Hsetup)
    as (_ & Hs1 & _ & extra & _ & Hi1 & Hall).
  pose proof (initialScreenshot_fields c r1 w1) as (Hs2 & _ & Hi2 & _).
  rewrite Hinit in Hs2, Hi2. simpl in Hs2, Hi2.
  pose proof (replaySteps_grows c pre 0 r2 w2) as (Hs3 & extra3 & Hi3 & Hall3).
  rewrite Hpre in Hs3, Hi3. simpl in Hs3, Hi3.
  pose proof (replayStep_flow c k step r3 w3) as Hflow.
  unfold stepError in Hflow. rewrite executeStep_unsupported in Hflow by done.
  simpl in Hflow. destruct Hflow as (r4 & w4 & Hstep).
  rewrite Hstep. unfold ret. simpl.
  destruct (replayStep_Return _ _ _ _ _ _ _ Hstep)
    as (e & t & He & Hi4 & Hs4 & Hm4 & Hlast).
  unfold stepError in He. rewrite executeStep_unsupported in He by done.
  simpl in He. injection He as <-.
  split_and!.
  - by rewrite Hs4, Hs3, Hs2, Hs1.
  - done.
  - by exists t.
  - rewrite Hi4, Hi3, Hi2, Hi1. unfold indices at 1. simpl.
    repeat (apply Forall_app; split).
    + eapply Forall_impl; [exact Hall|]. intros j ->. lia.
    + eapply Forall_impl; [exact Hall3|]. simpl. intros j ?. lia.
    + repeat constructor; lia.
Qed.

End driver_spec.
End executor_spec.

Module driver_examples.
Import models executor driver_terms executor_spec demo.

(** C1 at work: the stored text [[{] is not a step list. *)
Lemma executeTestCase_parse_failure_logs_nothing_witness :
  let result := fst (executeTestCase (testCase "[{") true 0%nat) in
  Success result = false
  ∧ ErrorMessage result
    = "Failed to parse test steps: unexpected end of JSON input"
  ∧ Logs result = [].
Proof.
  rewrite (executeTestCase_parse_failure_logs_nothing
             (testCase "[{") true 0%nat [] "unexpected end of JSON input").
  - done.
  - vm_compute. reflexivity.
Defined.

(** The sibling path: on a machine without a browser the job fails with
    one log entry. *)
Lemma chrome_not_found_is_logged :
  let result :=
    fst (@executeTestCase demoFloat demoGiven nat noChromeWorld
           (testCase "[]") true 0%nat) in
  Success result = false
  ∧ ErrorMessage result
    = "Chrome browser not found. Please install Google Chrome or Chromium"
  ∧ (Level <$> Logs result) = ["error"]
  ∧ (Message <$> Logs result) = ["Chrome not found in system"].
Proof. vm_compute. done. Qed.

(** C2 as stated fails: step 0 is clicked, the click of step 1 finds no
    element, and the log holds four entries for the two steps. *)
Lemma two_entries_for_steps_0_and_1_counterexample :
  let result :=
    fst (executeTestCase
           (testCase "[click #ok, click #missing, input #name]") true 0%nat) in
  Success result = false
  ∧ ErrorMessage result
    = "Step 2 failed: failed to click element #missing: context deadline exceeded"
  ∧ indices result = [-1; -1; -1; -1; -1; -1; -1; 0; 0; 1; 1]
  ∧ ¬ two_entries_for_steps_0_and_1 result.
Proof.
  assert (Hi : indices (fst (executeTestCase
                 (testCase "[click #ok, click #missing, input #name]")
                 true 0%nat))
               = [-1; -1; -1; -1; -1; -1; -1; 0; 0; 1; 1])
    by (vm_compute; reflexivity).
  split_and!.
  - vm_compute. reflexivity.
  - vm_compute. reflexivity.
  - exact Hi.
  - unfold two_entries_for_steps_0_and_1. rewrite Hi. intros [Hlen _].
    vm_compute in Hlen. discriminate.
Qed.

(** C2, as amended, at work on the same job. *)
Lemma replay_stops_at_first_failing_step_witness :
  let result :=
    fst (executeTestCase
           (testCase "[click #ok, click #missing, input #name]") true 0%nat) in
  stepIndices result = [0; 0; 1; 1]
  ∧ ErrorMessage result
    = "Step 2 failed: failed to click element #missing: context deadline exceeded"
  ∧ stepLog result
    = [ ("info", "Executing step 1: click", 0);
        ("info", "Step 1 completed successfully", 0);
        ("info", "Executing step 2: click", 1);
        ("error",
         "Step 2 failed: failed to click element #missing: context deadline exceeded",
         1) ].
Proof.
  edestruct (replay_stops_at_first_failing_step
               (testCase "[click #ok, click #missing, input #name]")
               true 0%nat) as (_ & Hmsg & Hidx & _ & _ & Hlog).
  - vm_compute. reflexivity.
  - vm_compute. reflexivity.
  - vm_compute. reflexivity.
  - vm_compute. reflexivity.
  - split; [exact Hidx|]. split; [exact Hmsg | exact Hlog].
Defined.

(** C3 at work: four steps, two of them key steps, four screenshots. *)
Lemma screenshots_of_a_clean_run_witness :
  let result :=
    fst (executeTestCase
           (testCase "[click #ok, input #name, submit #form, scroll]")
           false 0%nat) in
  Success result = true ∧ length (Screenshots result) = 4%nat.
Proof.
  edestruct (screenshots_of_a_clean_run
               (testCase "[click #ok, input #name, submit #form, scroll]")
               false 0%nat) as (Hs & Hlen & _).
  - vm_compute. reflexivity.
  - vm_compute. reflexivity.
  - split; [exact Hs|]. rewrite Hlen. vm_compute. reflexivity.
Defined.

(** C9 as stated fails: the step at index 1 has the type [hover]; the job
    fails at it, and its error message, which counts the steps from one,
    holds no [1]. *)
Lemma message_carries_index_counterexample :
  let result :=
    fst (executeTestCase
           (testCase "[click #ok, hover #menu, click #ok]") true 0%nat) in
  fst (GetSteps (testCase "[click #ok, hover #menu, click #ok]")) !! 1%nat
  = Some (step_ "hover" "#menu" "")
  ∧ ("hover" ∉ supported)
  ∧ Success result = false
  ∧ ErrorMessage result = "Step 2 failed: unsupported step type: hover"
  ∧ ¬ message_carries_index result 1.
Proof.
  split_and!.
  - vm_compute. reflexivity.
  - unfold supported. intros Hin.
    repeat (apply elem_of_cons in Hin as [Hin|Hin]; [discriminate Hin|]).
    by apply elem_of_nil in Hin.
  - vm_compute. reflexivity.
  - vm_compute. reflexivity.
  - unfold message_carries_index. vm_compute. discriminate.
Qed.

(** C9, as amended, at work on the same job. *)
Lemma unsupported_step_type_fails_the_job_witness :
  let result :=
    fst (executeTestCase
           (testCase "[click #ok, hover #menu, click #ok]") true 0%nat) in
  Success result = false
  ∧ ErrorMessage result = "Step 2 failed: unsupported step type: hover".
Proof.
  edestruct unsupported_step_type_fails_the_job
    with (testCase := testCase "[click #ok, hover #menu, click #ok]")
         (isVisual := true) (w := 0%nat)
         (pre := [step_ "click" "#ok" ""])
         (step := step_ "hover" "#menu" "")
         (post := [step_ "click" "#ok" ""])
    as (_ & Hs & Hmsg & _).
  - unfold supported. simpl. intros Hin.
    repeat (apply elem_of_cons in Hin as [Hin|Hin]; [discriminate Hin|]).
    by apply elem_of_nil in Hin.
  - vm_compute. reflexivity.
  - vm_compute. reflexivity.
  - vm_compute. reflexivity.
  - split; [exact Hs | exact Hmsg].
Defined.

End driver_examples.

(** * Properties of the worker pool *)

Module pool_spec.
Import models executor pool_terms.

Section pool_spec.
Context `{Float64} `{!Given} `{World W} `{!Runtime}.

(** ** Channels *)

Lemma chan_send_Some {A} (c c' : chan A) v :
  chan_send c v = Some c' ↔
  Z.of_nat (length (buf c)) < cap c ∧ c' = {| cap := cap c; buf := buf c ++ [v] |}.
Proof.
  unfold chan_send.
  destruct (Z.of_nat (length (buf c)) <? cap c) eqn:Hlt.
  - apply Z.ltb_lt in Hlt. split; [by intros [= <-]|by intros [_ ->]].
  - apply Z.ltb_ge in Hlt. split; [done|]. intros [? _]. lia.
Qed.

Lemma chan_send_None {A} (c : chan A) v :
  chan_send c v = None ↔ cap c ≤ Z.of_nat (length (buf c)).
Proof.
  unfold chan_send.
  destruct (Z.of_nat (length (buf c)) <? cap c) eqn:Hlt.
  - apply Z.ltb_lt in Hlt. split; [done|lia].
  - apply Z.ltb_ge in Hlt. done.
Qed.

Lemma chan_recv_Some {A} (c c' : chan A) v :
  chan_recv c = Some (v, c') ↔
  buf c = v :: buf c' ∧ cap c' = cap c.
Proof.
  unfold chan_recv. destruct c as [n [|x l]], c' as [n' l']; simpl.
  - split; [done|by intros [? _]].
  - split; [by intros [= -> -> ->]|]. by intros [[= -> ->] ->].
Qed.

(** ** One step *)

Lemma step_onlyTrue (p p' : Pool) e :
  step p e = Some p' →
  onlyTrue (GlobalExecutor p) → onlyTrue (GlobalExecutor p').
Proof.
  unfold onlyTrue. intros Hstep Htrue id b.
  destruct e as [execution tc vis|k|w|w wld|w|w|c|id']; simpl in Hstep.
  - injection Hstep as <-. simpl.
    rewrite lookup_insert. case_decide; [by intros [= <-]|apply Htrue].
  - unfold ExecuteTestCaseWithOptions_send in Hstep.
    repeat case_match; try done. injection Hstep as <-. apply Htrue.
  - unfold worker_receive in Hstep.
    repeat case_match; try done. injection Hstep as <-. apply Htrue.
  - unfold worker_execute in Hstep.
    repeat case_match; try done. injection Hstep as <-. apply Htrue.
  - unfold worker_complete in Hstep.
    repeat case_match; try done. injection Hstep as <-. simpl.
    rewrite lookup_delete. case_decide; [done|apply Htrue].
  - unfold worker_send in Hstep.
    repeat case_match; try done. injection Hstep as <-. apply Htrue.
  - unfold receive_result in Hstep.
    repeat case_match; try done. injection Hstep as <-. apply Htrue.
  - injection Hstep as <-. unfold CancelExecution.
    case_match; simpl; [|apply Htrue].
    rewrite lookup_delete. case_decide; [done|apply Htrue].
Qed.

Lemma step_shaped n (p p' : Pool) e :
  step p e = Some p' → shaped n p → shaped n p'.
Proof.
  unfold shaped. intros Hstep (Hw & Hcap & Hlen).
  destruct e as [execution tc vis|k|w|w wld|w|w|c|id']; simpl in Hstep.
  - injection Hstep as <-. done.
  - unfold ExecuteTestCaseWithOptions_send in Hstep.
    destruct (senders p !! k) as [job|]; [|done].
    destruct (chan_send _ job) as [q|] eqn:Hsend; [|done].
    injection Hstep as <-. apply chan_send_Some in Hsend as [Hlt ->].
    simpl. rewrite length_app. simpl. split_and!; [done|done|lia].
  - unfold worker_receive in Hstep.
    destruct (workers p !! w) as [[]|]; try done.
    destruct (chan_recv _) as [[job q]|] eqn:Hrecv; [|done].
    injection Hstep as <-. apply chan_recv_Some in Hrecv as [Hbuf Hc].
    simpl. rewrite length_insert, Hc. rewrite Hbuf in Hlen. simpl in Hlen.
    split_and!; [done|done|lia].
  - unfold worker_execute in Hstep.
    destruct (workers p !! w) as [[]|]; try done.
    injection Hstep as <-. simpl. by rewrite length_insert.
  - unfold worker_complete in Hstep.
    destruct (workers p !! w) as [[]|]; try done.
    injection Hstep as <-. simpl. by rewrite length_insert.
  - unfold worker_send in Hstep.
    repeat case_match; try done.
    injection Hstep as <-. simpl. by rewrite length_insert.
  - unfold receive_result in Hstep.
    repeat case_match; try done. by injection Hstep as <-.
  - injection Hstep as <-. unfold CancelExecution. by case_match.
Qed.

(** A step brings no job into the pool, except a registration. *)
Lemma step_inPool (p p' : Pool) e job :
  step p e = Some p' →
  inPool p' job →
  inPool p job
  ∨ ∃ execution tc vis, e = EvRegister execution tc vis
                        ∧ jobID job = ID execution.
Proof.
  unfold inPool. intros Hstep Hin.
  destruct e as [execution tc vis|k|w|w wld|w|w|c|id']; simpl in Hstep.
  - injection Hstep as <-. simpl in Hin.
    destruct Hin as [Hin|Hin]; [|by auto].
    apply elem_of_app in Hin as [Hin|Hin]; [by auto|].
    apply list_elem_of_singleton in Hin as ->. right. by eexists _, _, _.
  - left. unfold ExecuteTestCaseWithOptions_send in Hstep.
    destruct (senders p !! k) as [job0|] eqn:Hk; [|done].
    destruct (chan_send _ job0) as [q|] eqn:Hsend; [|done].
    injection Hstep as <-. apply chan_send_Some in Hsend as [_ ->].
    simpl in Hin. destruct Hin as [Hin|[Hin|Hin]].
    + left. by eapply list_elem_of_delete_inv.
    + apply elem_of_app in Hin as [Hin|Hin]; [by auto|].
      apply list_elem_of_singleton in Hin as ->. left.
      by eapply list_elem_of_lookup_2.
    + by auto.
  - left. unfold worker_receive in Hstep.
    destruct (workers p !! w) as [[]|] eqn:Hw; try done.
    destruct (chan_recv _) as [[job0 q]|] eqn:Hrecv; [|done].
    injection Hstep as <-. apply chan_recv_Some in Hrecv as [Hbuf _].
    simpl in Hin. rewrite Hbuf. destruct Hin as [Hin|[Hin|Hin]].
    + by auto.
    + right. left. by apply list_elem_of_further.
    + destruct Hin as (w' & st & Hl & Hj).
      apply list_lookup_insert_Some in Hl as [(-> & <- & _)|[_ Hl]].
      * injection Hj as <-. right. left. apply list_elem_of_here.
      * right. right. by eexists _, _.
  - left. unfold worker_execute in Hstep.
    destruct (workers p !! w) as [[]|] eqn:Hw; try done.
    injection Hstep as <-. simpl in Hin.
    destruct Hin as [Hin|[Hin|Hin]]; [by auto|by auto|].
    destruct Hin as (w' & st & Hl & Hj).
    apply list_lookup_insert_Some in Hl as [(-> & <- & _)|[_ Hl]];
      right; right; by eexists _, _.
  - left. unfold worker_complete in Hstep.
    destruct (workers p !! w) as [[]|] eqn:Hw; try done.
    injection Hstep as <-. simpl in Hin.
    destruct Hin as [Hin|[Hin|Hin]]; [by auto|by auto|].
    destruct Hin as (w' & st & Hl & Hj).
    apply list_lookup_insert_Some in Hl as [(-> & <- & _)|[_ Hl]];
      right; right; by eexists _, _.
  - left. unfold worker_send in Hstep.
    destruct (workers p !! w) as [[]|] eqn:Hw; try done.
    destruct (resultChans p !! _) as [c|]; [|done].
    destruct (chan_send c _) as [c'|]; [|done].
    injection Hstep as <-. simpl in Hin.
    destruct Hin as [Hin|[Hin|Hin]]; [by auto|by auto|].
    destruct Hin as (w' & st & Hl & Hj).
    apply list_lookup_insert_Some in Hl as [(-> & <- & _)|[_ Hl]]; [done|].
    right; right; by eexists _, _.
  - left. unfold receive_result in Hstep.
    destruct (resultChans p !! c) as [ch|]; [|done].
    destruct (chan_recv ch) as [[r ch']|]; [|done].
    simpl in Hstep. by injection Hstep as <-.
  - left. injection Hstep as <-. unfold CancelExecution in Hin.
    by destruct (default false _).
Qed.

(** An id that is not in [running] stays out, unless it is registered. *)
Lemma step_running_None (p p' : Pool) e id :
  step p e = Some p' →
  running (GlobalExecutor p) !! id = None →
  (∀ execution tc vis, e = EvRegister execution tc vis → ID execution ≠ id) →
  running (GlobalExecutor p') !! id = None.
Proof.
  intros Hstep Hnone Hfresh.
  destruct e as [execution tc vis|k|w|w wld|w|w|c|id']; simpl in Hstep.
  - injection Hstep as <-. simpl. rewrite lookup_insert_ne; [done|].
    by eapply Hfresh.
  - unfold ExecuteTestCaseWithOptions_send in Hstep.
    repeat case_match; try done. by injection Hstep as <-.
  - unfold worker_receive in Hstep.
    repeat case_match; try done. by injection Hstep as <-.
  - unfold worker_execute in Hstep.
    repeat case_match; try done. by injection Hstep as <-.
  - unfold worker_complete in Hstep.
    repeat case_match; try done. injection Hstep as <-. simpl.
    rewrite lookup_delete. by case_decide.
  - unfold worker_send in Hstep.
    repeat case_match; try done. by injection Hstep as <-.
  - unfold receive_result in Hstep.
    repeat case_match; try done. by injection Hstep as <-.
  - injection Hstep as <-. unfold CancelExecution.
    case_match; simpl; [|done]. rewrite lookup_delete. by case_decide.
Qed.

(** A worker comes to the send of line 80 only through lines 75-77, which
    take the id of its job out of [running]. *)
Lemma step_Sending (p p' : Pool) e w job result :
  step p e = Some p' →
  workers p' !! w = Some (Sending job result) →
  workers p !! w = Some (Sending job result)
  ∨ (workers p !! w = Some (Completing job result)
     ∧ e = EvComplete w
     ∧ running (GlobalExecutor p') !! jobID job = None).
Proof.
  intros Hstep Hw'.
  destruct e as [execution tc vis|k|w0|w0 wld|w0|w0|c|id']; simpl in Hstep.
  - injection Hstep as <-. by left.
  - unfold ExecuteTestCaseWithOptions_send in Hstep.
    repeat case_match; try done. injection Hstep as <-. by left.
  - unfold worker_receive in Hstep.
    destruct (workers p !! w0) as [[]|] eqn:Hw; try done.
    destruct (chan_recv _) as [[job0 q]|]; [|done].
    injection Hstep as <-. simpl in Hw'.
    apply list_lookup_insert_Some in Hw' as [(_ & ? & _)|[_ Hl]]; [done|].
    by left.
  - unfold worker_execute in Hstep.
    destruct (workers p !! w0) as [[]|] eqn:Hw; try done.
    injection Hstep as <-. simpl in Hw'.
    apply list_lookup_insert_Some in Hw' as [(_ & ? & _)|[_ Hl]]; [done|].
    by left.
  - unfold worker_complete in Hstep.
    destruct (workers p !! w0) as [[]|] eqn:Hw; try done.
    injection Hstep as <-. simpl in Hw'.
    apply list_lookup_insert_Some in Hw' as [(-> & Heq & _)|[_ Hl]];
      [|by left].
    injection Heq as -> ->. right. split_and!; try done.
    simpl. apply lookup_delete_eq.
  - unfold worker_send in Hstep.
    destruct (workers p !! w0) as [[]|] eqn:Hw; try done.
    destruct (resultChans p !! _) as [c|]; [|done].
    destruct (chan_send c _) as [c'|]; [|done].
    injection Hstep as <-. simpl in Hw'.
    apply list_lookup_insert_Some in Hw' as [(_ & ? & _)|[_ Hl]]; [done|].
    by left.
  - unfold receive_result in Hstep.
    repeat case_match; try done. injection Hstep as <-. by left.
  - injection Hstep as <-. by left.
Qed.

Lemma step_settled (h : list N) (p p' : Pool) e :
  step p e = Some p' →
  NoDup (h ++ registered [e]) →
  settled h p → settled (h ++ registered [e]) p'.
Proof.
  intros Hstep Hnodup [Hsent Hreg]. split.
  - intros w job result Hw'.
    destruct (step_Sending _ _ _ _ _ _ Hstep Hw') as [Hw|(_ & _ & Hdel)];
      [|done].
    eapply step_running_None; [done|by eapply Hsent|].
    intros execution tc vis -> Heq. simpl in Hnodup.
    apply NoDup_app in Hnodup as (_ & Hfresh & _).
    apply (Hfresh (jobID job)).
    + apply Hreg. right. right. by eexists _, _.
    + rewrite Heq. apply list_elem_of_here.
  - intros job Hin. apply elem_of_app.
    destruct (step_inPool _ _ _ _ Hstep Hin)
      as [Hold|(execution & tc & vis & -> & ->)].
    + left. by apply Hreg.
    + right. simpl. apply list_elem_of_here.
Qed.

(** ** Traces *)

Lemma registered_app (es1 es2 : list (@Event W)) :
  registered (es1 ++ es2) = registered es1 ++ registered es2.
Proof.
  induction es1 as [|[] es1 IH]; simpl; by rewrite ?IH.
Qed.

Lemma run_onlyTrue (es : list (@Event W)) :
  ∀ p p' : Pool, run p es = Some p' →
    onlyTrue (GlobalExecutor p) → onlyTrue (GlobalExecutor p').
Proof.
  induction es as [|e es IH]; intros p p'; simpl.
  - by intros [= <-].
  - destruct (step p e) as [p1|] eqn:Hstep; [|done].
    intros Hrun Htrue. eapply IH; [done|]. by eapply step_onlyTrue.
Qed.

Lemma run_shaped n (es : list (@Event W)) :
  ∀ p p' : Pool, run p es = Some p' → shaped n p → shaped n p'.
Proof.
  induction es as [|e es IH]; intros p p'; simpl.
  - by intros [= <-].
  - destruct (step p e) as [p1|] eqn:Hstep; [|done].
    intros Hrun Hshape. eapply IH; [done|]. by eapply step_shaped.
Qed.

Lemma run_settled (es : list (@Event W)) :
  ∀ (h : list N) (p p' : Pool),
    run p es = Some p' →
    NoDup (h ++ registered es) →
    settled h p → settled (h ++ registered es) p'.
Proof.
  induction es as [|e es IH]; intros h p p'; cbn [run].
  - intros [= <-] _. simpl. by rewrite app_nil_r.
  - destruct (step p e) as [p1|] eqn:Hstep; [|done].
    intros Hrun Hnodup Hset.
    change (e :: es) with ([e] ++ es) in Hnodup |- *.
    rewrite registered_app, app_assoc in Hnodup |- *.
    eapply IH; [done|done|].
    eapply step_settled; [done| |done].
    by apply NoDup_app in Hnodup as (? & _).
Qed.

Lemma run_running_None (es : list (@Event W)) :
  ∀ (p p' : Pool) id,
    run p es = Some p' →
    running (GlobalExecutor p) !! id = None →
    id ∉ registered es →
    running (GlobalExecutor p') !! id = None.
Proof.
  induction es as [|e es IH]; intros p p' id; simpl.
  - by intros [= <-].
  - destruct (step p e) as [p1|] eqn:Hstep; [|done].
    intros Hrun Hnone Hfresh. eapply IH; [done| |].
    + eapply step_running_None; [done|done|].
      intros execution tc vis -> <-. apply Hfresh. simpl.
      apply list_elem_of_here.
    + intros Hin. apply Hfresh. destruct e; simpl; try done.
      by apply list_elem_of_further.
Qed.

(** ** The claims about the pool *)

Lemma wrap_int_small (z : Z) : min_int ≤ z ≤ max_int → wrap_int z = z.
Proof.
  unfold min_int, max_int, wrap_int. intros Hz.
  rewrite Z.mod_small; lia.
Qed.

(** C5, as amended.  For [maxWorkers > 0] whose double is a size that
    [make] accepts for the queue, no more than [makechan_max], [InitExecutor]
    starts exactly [maxWorkers] workers, all waiting on the
    one queue of the executor, whose capacity is [2 * maxWorkers].  In every
    state the pool reaches, the workers are as many and the capacity the
    same; a caller standing at the send enqueues its job at the back of that
    queue when fewer than [2 * maxWorkers] jobs wait in it, and must wait
    otherwise; and any waiting worker takes the job at the front. *)
Theorem InitExecutor_starts_the_pool (maxWorkers : Z) :
  0 < maxWorkers → 2 * maxWorkers ≤ makechan_max →
  ∃ p0 : Pool,
    InitExecutor maxWorkers = Some p0
    ∧ workers p0 = replicate (Z.to_nat maxWorkers) Receiving
    ∧ workQueue (GlobalExecutor p0) = {| cap := 2 * maxWorkers; buf := [] |}
    ∧ ∀ (es : list (@Event W)) (p : Pool),
        run p0 es = Some p →
        let queue := workQueue (GlobalExecutor p) in
        Z.of_nat (length (workers p)) = maxWorkers
        ∧ cap queue = 2 * maxWorkers
        ∧ Z.of_nat (length (buf queue)) ≤ 2 * maxWorkers
        ∧ (∀ k job, senders p !! k = Some job →
             if decide (Z.of_nat (length (buf queue)) < 2 * maxWorkers)
             then ∃ p', ExecuteTestCaseWithOptions_send p k = Some p'
                        ∧ workQueue (GlobalExecutor p')
                          = {| cap := 2 * maxWorkers; buf := buf queue ++ [job] |}
             else ExecuteTestCaseWithOptions_send p k = None)
        ∧ (∀ w job rest,
             workers p !! w = Some Receiving →
             buf queue = job :: rest →
             ∃ p', worker_receive p w = Some p'
                   ∧ workers p' !! w = Some (Executing job)
                   ∧ workQueue (GlobalExecutor p')
                     = {| cap := 2 * maxWorkers; buf := rest |}).
Proof.
  intros Hpos Hmax. unfold InitExecutor.
  pose proof makechan_max_range as Hrange.
  rewrite wrap_int_small by (unfold min_int, max_int in *; lia).
  unfold make_chan. destruct (maxWorkers * 2 <? 0) eqn:Hneg;
    [apply Z.ltb_lt in Hneg; lia|].
  destruct (makechan_max <? maxWorkers * 2) eqn:Hbig;
    [apply Z.ltb_lt in Hbig; lia|].
  eexists. split; [done|]. simpl. split; [done|].
  split; [f_equal; lia|].
  intros es p Hrun. set (queue := workQueue (GlobalExecutor p)).
  assert (Hshape : shaped maxWorkers p).
  { eapply run_shaped; [done|]. unfold shaped. simpl.
    rewrite length_replicate. split_and!; lia. }
  destruct Hshape as (Hw & Hcap & Hlen). fold queue in Hcap, Hlen.
  split_and!; [lia|done|done| |].
  - intros k job Hk. unfold ExecuteTestCaseWithOptions_send. rewrite Hk.
    fold queue. case_decide as Hroom.
    + destruct (chan_send queue job) as [q|] eqn:Hsend.
      * apply chan_send_Some in Hsend as [_ ->]. eexists. split; [done|].
        simpl. by rewrite Hcap.
      * apply chan_send_None in Hsend. lia.
    + destruct (chan_send queue job) as [q|] eqn:Hsend; [|done].
      apply chan_send_Some in Hsend as [? _]. lia.
  - intros w job rest Hrecv Hbuf. unfold worker_receive. rewrite Hrecv.
    fold queue. unfold chan_recv. rewrite Hbuf.
    eexists. split; [done|]. simpl. split.
    + apply list_lookup_insert_eq. by eapply lookup_lt_Some.
    + by rewrite Hcap.
Qed.

(** C6.  A pool started by [InitExecutor] has run to a state where worker
    [w] stands at the send of line 80 with [job] and its [result]; no two
    registrations of the whole run carry the same execution id.  Then the id
    of the job is already out of [running] before the send, the send puts the
    result on the job's own channel, and the id is out of [running] in every
    later state [p], whatever happens in between, the caller's receive
    included: [IsRunning] answers [false] and [GetRunningCount] counts the
    other ids only. *)
Theorem running_excludes_the_published_job
    (maxWorkers : Z) (p0 p1 p : Pool) (es1 es2 : list (@Event W))
    (w : nat) (job : ExecutionJob) (result : ExecutionResult) :
  InitExecutor maxWorkers = Some p0 →
  run p0 es1 = Some p1 →
  workers p1 !! w = Some (Sending job result) →
  run p1 (EvPublish w :: es2) = Some p →
  NoDup (registered (es1 ++ EvPublish w :: es2)) →
  let id := ID (Execution job) in
  (IsRunning (GlobalExecutor p1) id = false
   ∧ (id ∉ dom (running (GlobalExecutor p1))))
  ∧ (∃ p1' c,
       step p1 (EvPublish w) = Some p1'
       ∧ resultChans p1' !! ResultChan job = Some c
       ∧ last (buf c) = Some result
       ∧ running (GlobalExecutor p1') = running (GlobalExecutor p1))
  ∧ (IsRunning (GlobalExecutor p) id = false
     ∧ (id ∉ dom (running (GlobalExecutor p)))
     ∧ GetRunningCount (GlobalExecutor p)
       = Z.of_nat (size (delete id (running (GlobalExecutor p))))).
Proof.
  intros Hinit Hrun1 Hw Hrun2 Hnodup id.
  rewrite registered_app in Hnodup.
  assert (Hset0 : settled [] p0).
  { unfold InitExecutor in Hinit. destruct (make_chan _) as [q|] eqn:Hq;
      [|done].
    injection Hinit as <-. unfold make_chan in Hq.
    destruct (_ <? 0); [done|]. destruct (_ <? _); [done|].
    injection Hq as <-. split.
    - simpl. intros w' job' result' Hl.
      apply lookup_replicate in Hl as [? _]. done.
    - intros job' [Hin|[Hin|(w' & st & Hl & Hj)]]; simpl in *.
      + by apply elem_of_nil in Hin.
      + by apply elem_of_nil in Hin.
      + apply lookup_replicate in Hl as [-> _]. done. }
  assert (Hset1 : settled (registered es1) p1).
  { apply (run_settled es1 [] p0 p1 Hrun1); [|done].
    simpl. by apply NoDup_app in Hnodup as (? & _). }
  destruct Hset1 as [Hsent Hreg].
  assert (Hnone1 : running (GlobalExecutor p1) !! id = None)
    by (by eapply Hsent).
  assert (Hid : id ∈ registered es1).
  { apply Hreg. right. right. by eexists _, _. }
  cbn [run] in Hrun2.
  destruct (step p1 (EvPublish w)) as [p1'|] eqn:Hstep; [|done].
  assert (Hnone : running (GlobalExecutor p) !! id = None).
  { eapply run_running_None; [done| |].
    - eapply step_running_None; [done|done|]. done.
    - apply NoDup_app in Hnodup as (_ & Hfresh & _).
      intros Hin. by apply (Hfresh id). }
  split_and!.
  - unfold IsRunning. by rewrite Hnone1.
  - by apply not_elem_of_dom.
  - simpl in Hstep. unfold worker_send in Hstep. rewrite Hw in Hstep.
    destruct (resultChans p1 !! ResultChan job) as [c|]; [|done].
    destruct (chan_send c result) as [c'|] eqn:Hsend; [|done].
    injection Hstep as <-. apply chan_send_Some in Hsend as [_ ->].
    eexists _, _. split; [done|]. simpl.
    split; [apply lookup_insert_eq|]. simpl. by rewrite last_snoc.
  - unfold IsRunning. by rewrite Hnone.
  - by apply not_elem_of_dom.
  - unfold GetRunningCount. by rewrite delete_id.
Qed.

(** C8.  On an executor whose [running] entries all hold [true],
    [CancelExecution] returns [true] exactly when the id is in [running];
    afterwards the id is not in [running]; the other ids and the queue are
    untouched; and for an id that was not there it returns [false] and
    changes nothing. *)
Theorem CancelExecution_removes_the_id (te : TestExecutor) (executionID : N) :
  onlyTrue te →
  let (ok, te') := CancelExecution te executionID in
  (ok = true ↔ executionID ∈ dom (running te))
  ∧ (ok = IsRunning te executionID)
  ∧ (executionID ∉ dom (running te'))
  ∧ IsRunning te' executionID = false
  ∧ (∀ other, other ≠ executionID →
       running te' !! other = running te !! other)
  ∧ workQueue te' = workQueue te
  ∧ maxWorkers te' = maxWorkers te
  ∧ (executionID ∉ dom (running te) → ok = false ∧ te' = te).
Proof.
  intros Htrue. unfold CancelExecution, IsRunning.
  destruct (running te !! executionID) as [b|] eqn:Hid; simpl.
  - rewrite (Htrue _ _ Hid). simpl. rewrite lookup_delete_eq. simpl.
    split_and!; try done.
    + split; [|done]. intros _. apply elem_of_dom. by eexists.
    + apply not_elem_of_dom, lookup_delete_eq.
    + intros other Hne. by apply lookup_delete_ne.
    + intros Hnot. exfalso. apply Hnot, elem_of_dom. by eexists.
  - rewrite Hid. simpl. split_and!; try done.
    + split; [done|]. intros Hin. apply elem_of_dom in Hin as [? Hin].
      congruence.
    + by apply not_elem_of_dom.
Qed.

(** The premise of C8 holds in every state the pool reaches. *)
Lemma reachable_onlyTrue (maxWorkers : Z) (p0 p : Pool)
    (es : list (@Event W)) :
  InitExecutor maxWorkers = Some p0 →
  run p0 es = Some p →
  onlyTrue (GlobalExecutor p).
Proof.
  intros Hinit Hrun. eapply run_onlyTrue; [done|].
  unfold InitExecutor in Hinit. destruct (make_chan _); [|done].
  injection Hinit as <-. intros id b. simpl. by rewrite lookup_empty.
Qed.

End pool_spec.
End pool_spec.

Module pool_examples.
Import models executor pool_terms pool_spec demo.

(** C5 as stated fails at [maxWorkers = 2^62], whatever the runtime: the
    product [maxWorkers*2] wraps to a negative [int] and [make] panics. *)
Lemma starts_pool_counterexample :
  0 < 2 ^ 62 ≤ max_int
  ∧ ∀ runtime : Runtime, ¬ @starts_pool demoFloat runtime (2 ^ 62).
Proof.
  split; [done|]. intros runtime (p0 & Hinit & _).
  unfold InitExecutor, make_chan in Hinit.
  replace (wrap_int (2 ^ 62 * 2) <? 0) with true in Hinit
    by (vm_compute; reflexivity).
  discriminate.
Qed.

(** C5, as amended, at work with three workers. *)
Lemma InitExecutor_starts_the_pool_witness :
  ∃ p0 : Pool,
    InitExecutor 3 = Some p0
    ∧ workers p0 = [Receiving; Receiving; Receiving]
    ∧ workQueue (GlobalExecutor p0) = {| cap := 6; buf := [] |}.
Proof.
  destruct (InitExecutor_starts_the_pool (W := nat) 3)
    as (p0 & Hinit & Hw & Hq & _).
  - lia.
  - vm_compute. discriminate.
  - exists p0. rewrite Hw, Hq. done.
Defined.

(** C6 at work: one worker replays the job of execution 7, publishes the
    result, and the caller receives it. *)
Lemma running_excludes_the_published_job_witness :
  ∃ p : Pool,
    poolAfter 1 (job7 ++ [EvPublish 0; EvResult 0]) = Some p
    ∧ IsRunning (GlobalExecutor p) 7 = false
    ∧ GetRunningCount (GlobalExecutor p) = 0.
Proof.
  edestruct (running_excludes_the_published_job (W := nat) 1)
    with (es1 := job7) (es2 := [EvResult (W := nat) 0]) (w := 0%nat)
    as (_ & _ & Hafter & _ & Hcount).
  - vm_compute. reflexivity.
  - vm_compute. reflexivity.
  - vm_compute. reflexivity.
  - vm_compute. reflexivity.
  - vm_compute. repeat constructor. set_solver.
  - eexists. split; [vm_compute; reflexivity|].
    split; [exact Hafter|]. rewrite Hcount. vm_compute. reflexivity.
Defined.

(** C8 at work: execution 7 is running and is cancelled. *)
Lemma CancelExecution_removes_the_id_witness :
  let te := {| maxWorkers := 1; workQueue := {| cap := 2; buf := [] |};
               running := <[7%N := true]> ∅ |} in
  fst (CancelExecution te 7) = true
  ∧ 7%N ∉ dom (running (snd (CancelExecution te 7))).
Proof.
  intros te.
  pose proof (CancelExecution_removes_the_id te 7) as Hspec.
  destruct (CancelExecution te 7) as [ok te'].
  destruct Hspec as (Hok & _ & Hout & _).
  - intros id b. unfold te. simpl. rewrite lookup_insert.
    case_decide; [by intros [= <-]|by rewrite lookup_empty].
  - split; [|exact Hout]. apply Hok. unfold te. simpl. set_solver.
Defined.

End pool_examples.

(** * More properties: package chrome *)

Module chrome_props.
Import chrome.

Section chrome_props.
Context `{World W}.

(** X1.  [firstExisting] answers with the first candidate, in list order,
    that [os.Stat] accepts when its turn comes: the candidates before it were
    each rejected, and those after it are not looked at.  It answers [None]
    only when every candidate was rejected in turn. *)
Theorem firstExisting_first (paths : list string) :
  ∀ w : W,
    match firstExisting paths w with
    | (Some path, w') =>
        ∃ pre post wk,
          paths = pre ++ path :: post
          ∧ firstExisting pre w = (None, wk)
          ∧ os_Stat path wk = (None, w')
    | (None, _) =>
        ∀ pre path post,
          paths = pre ++ path :: post →
          ∃ wk, firstExisting pre w = (None, wk)
                ∧ fst (os_Stat path wk) ≠ None
    end.
Proof.
  induction paths as [|p rest IH]; intros w.
  - simpl. intros pre path post Heq. by destruct pre.
  - cbn [firstExisting]. unfold bind.
    destruct (os_Stat p w) as [[e|] w1] eqn:Hstat.
    + specialize (IH w1).
      destruct (firstExisting rest w1) as [[path|] w'] eqn:Hrest.
      * destruct IH as (pre & post & wk & -> & Hpre & Hok).
        exists (p :: pre), post, wk. split; [done|]. split; [|done].
        cbn [firstExisting]. unfold bind. by rewrite Hstat.
      * intros [|q pre] path post Heq; simplify_eq/=.
        -- exists w. unfold ret. split; [done|]. by rewrite Hstat.
        -- destruct (IH pre path post eq_refl) as (wk & Hpre & Hno).
           exists wk. split; [|done]. unfold bind. by rewrite Hstat.
    + unfold ret. exists [], rest, w. done.
Qed.

Lemma firstExisting_found (paths : list string) :
  ∀ (w : W) (path : string),
    fst (firstExisting paths w) = Some path →
    path ∈ paths ∧ ∃ wk, fst (os_Stat path wk) = None.
Proof.
  induction paths as [|p rest IH]; intros w path; [done|].
  cbn [firstExisting]. unfold bind, ret.
  destruct (os_Stat p w) as [[e|] w1] eqn:Hstat.
  - intros Hrest. destruct (IH _ _ Hrest) as [Hin Hok].
    split; [by right|done].
  - intros [= <-]. split; [by left|]. exists w. by rewrite Hstat.
Qed.

Lemma firstInPATH_found (names : list string) :
  ∀ (w : W) (path : string),
    fst (firstInPATH names w) = Some path →
    ∃ name wk, name ∈ names ∧ fst (exec_LookPath name wk) = (path, None).
Proof.
  induction names as [|name rest IH]; intros w path; [done|].
  cbn [firstInPATH]. unfold bind, ret.
  destruct (exec_LookPath name w) as [[p [e|]] w1] eqn:Hlook.
  - intros Hrest. destruct (IH _ _ Hrest) as (name' & wk & Hin & Hfound).
    exists name', wk. split; [by right|done].
  - intros [= <-]. exists name, w. split; [by left|]. by rewrite Hlook.
Qed.

(** X14.  Where the path returned by [GetChromePath] comes from: it is one
    of the well-known paths of the platform, accepted by [os.Stat]; or what
    [exec.LookPath] resolved one of the four browser names to; or the
    flatpak wrapper script; or the empty string. *)
Theorem GetChromePath_sources (w : W) :
  let path := fst (GetChromePath w) in
  (path ∈ chromePaths ∧ ∃ wk, fst (os_Stat path wk) = None)
  ∨ (∃ name wk,
       name ∈ ["google-chrome"; "google-chrome-stable"; "chromium-browser";
               "chromium"]
       ∧ fst (exec_LookPath name wk) = (path, None))
  ∨ path = "/home/ryan.rr.penn/Documents/Dev/GoProject/src/AutoUIPlatform/backend/scripts/chrome-flatpak-wrapper.sh"
  ∨ path = "".
Proof.
  cbv zeta. unfold GetChromePath, bind, ret.
  pose proof (firstExisting_found chromePaths w) as Hfirst.
  destruct (firstExisting chromePaths w) as [[path|] w1].
  - left. simpl. by apply Hfirst.
  - clear Hfirst.
    match goal with |- context [firstInPATH ?names w1] =>
      pose proof (firstInPATH_found names w1) as Hpath;
      destruct (firstInPATH names w1) as [[path|] w2]
    end.
    + right. left. simpl. by apply Hpath.
    + destruct (isFlatpakChromeAvailable w2) as [[] w3]; simpl; auto.
Qed.

End chrome_props.
End chrome_props.

(** * More properties: package recorder *)

Module recorder_props.
Import recorder recorder_terms recorder_more.

Section recorder_props.
Context `{Float64} `{World W} `{!Polling W}.
Variable script : string.

Lemma manager_ext (rm rm' : RecorderManager) :
  recorders rm = recorders rm' → rm = rm'.
Proof. destruct rm, rm'. simpl. by intros ->. Qed.

(** What [ChromeRecorder.StartRecording] makes of a recorder that is not
    recording. *)
Lemma ChromeRecorder_StartRecording_cases
    (r r' : ChromeRecorder) (url : string) (err : error) (w w' : W) :
  isRecording r = false →
  ChromeRecorder_StartRecording script r url w = (err, r', w') →
  deviceInfo r' = deviceInfo r
  ∧ sessionID r' = sessionID r
  ∧ wsConn r' = wsConn r
  ∧ targetURL r' = targetURL r
  ∧ match err with
    | None =>
        isRecording r' = true ∧ steps r' = []
        ∧ ∃ c, ctx r' = Some c ∧ cancel r' = Some c
    | Some e =>
        isRecording r' = false ∧ steps r' = steps r
        ∧ (e = "Chrome browser not found. Please install Google Chrome or Chromium"
           ∨ ∃ e', e = "failed to start recording: " +:+ e')
    end.
Proof.
  intros Hrec. unfold ChromeRecorder_StartRecording. rewrite Hrec.
  unfold bind, ret.
  destruct (chrome.GetChromePath w) as [chromePath w1].
  destruct (String.eqb chromePath "").
  { intros [= <- <- <-]. split_and!; try done. by left. }
  destruct (chromedp_NewExecAllocator _ w1) as [allocCtx w2].
  destruct (chromedp_NewContext allocCtx w2) as [c w3].
  destruct (chromedp_Run c _ w3) as [[[e|] out] w4].
  - destruct (context_cancel allocCtx w4) as [[] w5].
    intros [= <- <- <-]. simpl. split_and!; try done. right. by exists e.
  - intros [= <- <- <-]. simpl. split_and!; try done. by exists c.
Qed.

(** The registry after a [StartRecording] with an id that is not in it. *)
Lemma StartRecording_fresh_entry
    (rm rm' : RecorderManager) (sessionID url : string) (device : DeviceInfo)
    (err : error) (w w' : W) :
  recorders rm !! sessionID = None →
  StartRecording script rm sessionID url device w = (err, rm', w') →
  match err with
  | None =>
      ∃ r, recorders rm' = <[sessionID := r]> (recorders rm)
           ∧ recorder.sessionID r = sessionID
           ∧ ∃ c, ctx r = Some c ∧ cancel r = Some c
  | Some e => rm' = rm ∧ e ≠ DuplicateSessionError sessionID
  end.
Proof.
  intros Hfresh. unfold StartRecording. rewrite Hfresh. unfold bind, ret.
  destruct (ChromeRecorder_StartRecording _ _ _ w) as [[err1 r] w1] eqn:Hstart.
  apply ChromeRecorder_StartRecording_cases in Hstart as
    (_ & Hid & _ & _ & Hcases); [|done].
  destruct err1 as [e|]; intros [= <- <- <-].
  - split; [done|]. destruct Hcases as (_ & _ & [-> | [e' ->]]); done.
  - destruct Hcases as (_ & _ & Hctx). by exists r.
Qed.

(** The registry after a [StopRecording]. *)
Lemma StopRecording_entry
    (rm rm' : RecorderManager) (sessionID : string) (err : error) (w w' : W) :
  StopRecording rm sessionID w = (err, rm', w') →
  match recorders rm !! sessionID with
  | None => err = Some (SessionNotFoundError sessionID) ∧ rm' = rm
  | Some r =>
      ∃ r', recorders rm' = <[sessionID := r']> (recorders rm)
            ∧ ctx r' = ctx r
            ∧ cancel r' = cancel r
            ∧ recorder.sessionID r' = recorder.sessionID r
  end.
Proof.
  unfold StopRecording.
  destruct (recorders rm !! sessionID) as [r|] eqn:Hr.
  - unfold bind, ret, ChromeRecorder_StopRecording.
    destruct (isRecording r) eqn:Hrec; simpl.
    + unfold bind, ret.
      destruct (match cancel r with
                | Some c => context_cancel c
                | None => λ w0, (tt, w0)
                end w) as [[] w1].
      intros [= <- <- <-]. simpl. eexists. split; [done|]. done.
    + intros [= <- <- <-]. simpl. by exists r.
  - unfold ret. by intros [= <- <- <-].
Qed.

(** X2.  [StartRecording] with an id that is not in the registry.  When it
    returns [nil] the registry has gained exactly that session: a recorder
    that is recording, has no steps and no connection, carries the given
    device and id, and holds its browser context; the status of the session
    is [(true, [], nil)].  When it returns an error the registry is
    unchanged, and the error is never the duplicate-session error. *)
Theorem StartRecording_fresh
    (rm rm' : RecorderManager) (sessionID url : string) (device : DeviceInfo)
    (err : error) (w w' : W) :
  recorders rm !! sessionID = None →
  StartRecording script rm sessionID url device w = (err, rm', w') →
  match err with
  | None =>
      ∃ r, recorders rm' = <[sessionID := r]> (recorders rm)
           ∧ isRecording r = true
           ∧ steps r = []
           ∧ wsConn r = None
           ∧ deviceInfo r = device
           ∧ recorder.sessionID r = sessionID
           ∧ (∃ c, ctx r = Some c ∧ cancel r = Some c)
           ∧ GetRecordingStatus rm' sessionID = (true, [], None)
  | Some e => rm' = rm ∧ e ≠ DuplicateSessionError sessionID
  end.
Proof.
  intros Hfresh. unfold StartRecording. rewrite Hfresh. unfold bind, ret.
  destruct (ChromeRecorder_StartRecording _ _ _ w) as [[err1 r] w1] eqn:Hstart.
  apply ChromeRecorder_StartRecording_cases in Hstart as
    (Hdev & Hid & Hws & _ & Hcases); [|done].
  destruct err1 as [e|]; intros [= <- <- <-].
  - split; [done|]. destruct Hcases as (_ & _ & [-> | [e' ->]]); done.
  - destruct Hcases as (Hrec & Hsteps & Hctx).
    exists r. split_and!; try done.
    unfold GetRecordingStatus. simpl. rewrite lookup_insert_eq.
    unfold ChromeRecorder_IsRecording, ChromeRecorder_GetSteps.
    by rewrite Hrec, Hsteps.
Qed.

(** X3.  [StopRecording] never adds or removes a session and touches no
    session but the named one.  For an unknown id it returns the not-found
    error and nothing changes, the world included.  For a known id the
    session is not recording afterwards and keeps its steps, connection and
    browser context, whatever was returned; [nil] is returned exactly when
    the session was recording. *)
Theorem StopRecording_frame
    (rm rm' : RecorderManager) (sessionID : string) (err : error) (w w' : W) :
  StopRecording rm sessionID w = (err, rm', w') →
  dom (recorders rm') = dom (recorders rm)
  ∧ (∀ other, other ≠ sessionID →
       recorders rm' !! other = recorders rm !! other)
  ∧ match recorders rm !! sessionID with
    | None =>
        err = Some (SessionNotFoundError sessionID) ∧ rm' = rm ∧ w' = w
    | Some r =>
        ∃ r', recorders rm' !! sessionID = Some r'
              ∧ isRecording r' = false
              ∧ steps r' = steps r
              ∧ wsConn r' = wsConn r
              ∧ ctx r' = ctx r
              ∧ cancel r' = cancel r
              ∧ recorder.sessionID r' = recorder.sessionID r
              ∧ (err = None ↔ isRecording r = true)
              ∧ (err ≠ None → err = Some "no recording in progress")
    end.
Proof.
  unfold StopRecording.
  destruct (recorders rm !! sessionID) as [r|] eqn:Hr.
  - unfold bind, ret, ChromeRecorder_StopRecording.
    destruct (isRecording r) eqn:Hrec; simpl.
    + unfold bind, ret.
      destruct (match cancel r with
                | Some c => context_cancel c
                | None => λ w0, (tt, w0)
                end w) as [[] w1].
      intros [= <- <- <-]. simpl. split_and!.
      * by apply dom_insert_lookup_L.
      * intros other Hne. by rewrite lookup_insert_ne.
      * eexists. rewrite lookup_insert_eq. split; [done|]. simpl.
        split_and!; done.
    + intros [= <- <- <-]. simpl. split_and!.
      * by apply dom_insert_lookup_L.
      * intros other Hne. by rewrite lookup_insert_ne.
      * exists r. rewrite lookup_insert_eq. split_and!; done.
  - unfold ret. by intros [= <- <- <-].
Qed.

(** X4.  A session id stays taken after the session was stopped: a
    [StartRecording] with the id of a stopped session is rejected as a
    duplicate, without starting a browser, until [CleanupRecording] has
    removed the session; after the cleanup the same [StartRecording] is
    treated as one for a fresh id, and its outcome on any registry that lacks
    the id differs at most in the other sessions kept. *)
Theorem stopped_id_is_taken_until_cleanup
    (rm rm1 : RecorderManager) (sessionID url : string) (device : DeviceInfo)
    (err : error) (w w1 w2 : W) :
  StopRecording rm sessionID w = (err, rm1, w1) →
  err ≠ Some (SessionNotFoundError sessionID) →
  StartRecording script rm1 sessionID url device w2
    = (Some (DuplicateSessionError sessionID), rm1, w2)
  ∧ let rm2 := snd (CleanupRecording rm1 sessionID) in
    recorders rm2 !! sessionID = None
    ∧ fst (fst (StartRecording script rm2 sessionID url device w2))
      = fst (fst (StartRecording script Manager sessionID url device w2))
    ∧ fst (fst (StartRecording script rm2 sessionID url device w2))
      ≠ Some (DuplicateSessionError sessionID).
Proof.
  intros Hstop Herr.
  apply StopRecording_entry in Hstop.
  destruct (recorders rm !! sessionID) as [r|] eqn:Hr.
  2:{ by destruct Hstop as (-> & _). }
  destruct Hstop as (r' & Hrm1 & _).
  assert (Hr' : recorders rm1 !! sessionID = Some r').
  { rewrite Hrm1. apply lookup_insert_eq. }
  split.
  { unfold StartRecording. by rewrite Hr'. }
  assert (Hgone : recorders (snd (CleanupRecording rm1 sessionID)) !! sessionID
                  = None).
  { unfold CleanupRecording. rewrite Hr'. simpl. apply lookup_delete_eq. }
  cbv zeta. split; [done|].
  assert (Hsame :
    fst (fst (StartRecording script (snd (CleanupRecording rm1 sessionID))
                sessionID url device w2))
    = fst (fst (StartRecording script Manager sessionID url device w2))).
  { unfold StartRecording. rewrite Hgone. simpl. rewrite lookup_empty.
    unfold bind, ret.
    destruct (ChromeRecorder_StartRecording _ _ _ w2) as [[[e|] r2] w3]; done. }
  split; [done|].
  destruct (StartRecording script (snd (CleanupRecording rm1 sessionID))
              sessionID url device w2) as [[err2 rm3] w3] eqn:Hstart.
  apply StartRecording_fresh_entry in Hstart; [|done].
  destruct err2 as [e|]; simpl; [|done].
  destruct Hstart as [_ Hne]. congruence.
Qed.

(** Every call keeps the registry well formed. *)
Lemma call_registered_well (rm : RecorderManager) (c : Call) (w : W) :
  registered_well rm → registered_well (fst (call script rm c w)).
Proof.
  intros Hwell. destruct c as [sid url device|sid|sid|sid events|sid conn];
    unfold call, bind, ret.
  - destruct (StartRecording script rm sid url device w) as [[err rm'] w']
      eqn:Hstart. simpl.
    destruct (recorders rm !! sid) as [r0|] eqn:Hr0.
    + unfold StartRecording in Hstart. rewrite Hr0 in Hstart.
      by injection Hstart as <- <- <-.
    + apply StartRecording_fresh_entry in Hstart; [|done].
      destruct err as [e|]; [by destruct Hstart as [-> _]|].
      destruct Hstart as (r & Hrm' & Hid & Hctx).
      intros k r1. rewrite Hrm'.
      destruct (decide (k = sid)) as [->|Hne].
      * rewrite lookup_insert_eq. by intros [= <-].
      * rewrite lookup_insert_ne by done. apply Hwell.
  - destruct (StopRecording rm sid w) as [[err rm'] w'] eqn:Hstop. simpl.
    apply StopRecording_entry in Hstop.
    destruct (recorders rm !! sid) as [r|] eqn:Hr.
    + destruct Hstop as (r' & Hrm' & Hc & Hcan & Hid).
      intros k r1. rewrite Hrm'.
      destruct (decide (k = sid)) as [->|Hne].
      * rewrite lookup_insert_eq. intros [= <-].
        rewrite Hc, Hcan, Hid. by apply Hwell.
      * rewrite lookup_insert_ne by done. apply Hwell.
    + by destruct Hstop as (_ & ->).
  - simpl. unfold CleanupRecording.
    destruct (recorders rm !! sid) as [r|] eqn:Hr; simpl; [|done].
    intros k r1 Hk. simpl in Hk.
    apply lookup_delete_Some in Hk as [_ Hk]. by apply Hwell.
  - simpl. intros k r1 Hk. simpl in Hk.
    apply lookup_alter_Some in Hk as [(-> & r0 & Hr0 & ->)|[_ Hk]];
      [|by apply Hwell].
    simpl. by apply Hwell.
  - simpl. intros k r1 Hk. simpl in Hk.
    apply lookup_alter_Some in Hk as [(-> & r0 & Hr0 & ->)|[_ Hk]];
      [|by apply Hwell].
    simpl. by apply Hwell.
Qed.

Lemma calls_registered_well (cs : list Call) :
  ∀ (rm : RecorderManager) (w : W),
    registered_well rm → registered_well (fst (calls script rm cs w)).
Proof.
  induction cs as [|c cs IH]; intros rm w Hwell; [done|].
  cbn [calls]. unfold bind.
  pose proof (call_registered_well rm c w Hwell) as Hwell'.
  destruct (call script rm c w) as [rm1 w1]. by apply IH.
Qed.

(** X5.  Whatever calls were made on the registry since the program
    started, every recorder found in it is stored under its own session id
    and holds the browser context it was started with.  So [StopRecording]
    of a recording session does cancel a context, and a turn of the poll
    loop of such a recorder never dereferences a nil context. *)
Theorem registry_recorders_are_started
    (cs : list Call) (w : W) (sessionID : string) (r : ChromeRecorder) :
  recorders (fst (calls script Manager cs w)) !! sessionID = Some r →
  recorder.sessionID r = sessionID
  ∧ (∃ c, ctx r = Some c ∧ cancel r = Some c)
  ∧ ∀ w' : W, fst (listen_select r w') ≠ None.
Proof.
  intros Hr.
  assert (Hwell : registered_well (fst (calls script Manager cs w))).
  { apply calls_registered_well. intros k r0. simpl. by rewrite lookup_empty. }
  destruct (Hwell sessionID r Hr) as (Hid & c & Hc & Hcan).
  split; [done|]. split; [by exists c|].
  intros w'. unfold listen_select. rewrite Hc. unfold bind, ret.
  destruct (select_Done c w') as [[] w1]; [done|].
  by destruct (negb (isRecording r)).
Qed.

(** One step of a session keeps the recorded steps as a prefix. *)
Lemma sessionStep_prefix (s s' : Session) (e : SessionEvent) (w w' : W) :
  sessionStep s e w = (Some s', w') →
  steps (rec s) `prefix_of` steps (rec s').
Proof.
  destruct e; unfold sessionStep, bind, ret.
  - destruct (poller s); try discriminate.
    destruct (listen_select (rec s) w) as [[[]|] w1];
      intros [= <- <-]; done.
  - destruct (poller s); try discriminate.
    destruct (listen_evaluate (rec s) w) as [[[events|]|] w1];
      [| |discriminate]; intros [= <- <-]; done.
  - destruct (poller s); try discriminate.
    intros [= <- <-]. simpl. by apply prefix_app_r.
  - destruct (poller s); try discriminate.
    destruct (listen_forward _ _ w) as [[] w1]. by intros [= <- <-].
  - destruct (ChromeRecorder_StopRecording (rec s) w) as [[err r] w1] eqn:Hstop.
    intros [= <- <-]. simpl.
    unfold ChromeRecorder_StopRecording, bind, ret in Hstop.
    destruct (negb (isRecording (rec s))); [by injection Hstop as <- <- <-|].
    destruct (match cancel (rec s) with
              | Some c => context_cancel c
              | None => λ w0, (tt, w0)
              end w) as [[] w2].
    by injection Hstop as <- <- <-.
  - by intros [= <- <-].
  - by intros [= <- <-].
Qed.

(** X6.  Under any interleaving of the poll loop with [StopRecording],
    [SetWebSocketConnection] and [GetSteps], the recorded steps only grow:
    what [GetSteps] returned once is a prefix of what it returns later. *)
Theorem steps_only_grow (es : list SessionEvent) :
  ∀ (s s' : Session) (w w' : W),
    sessionRun s es w = (Some s', w') →
    ChromeRecorder_GetSteps (rec s)
      `prefix_of` ChromeRecorder_GetSteps (rec s').
Proof.
  unfold ChromeRecorder_GetSteps. simpl.
  induction es as [|e es IH]; intros s s' w w'; cbn [sessionRun].
  - by intros [= <-].
  - unfold bind.
    destruct (sessionStep s e w) as [[s1|] w1] eqn:Hstep; [|discriminate].
    intros Hrun. etrans; [by eapply sessionStep_prefix|by eapply IH].
Qed.

(** What the loop of a stopped recorder can still add to the steps: the
    batch it holds, or the one batch of an evaluation under way. *)
Lemma sessionStep_stopped (s s' : Session) (e : SessionEvent) (w w' : W) :
  isRecording (rec s) = false →
  sessionStep s e w = (Some s', w') →
  isRecording (rec s') = false
  ∧ (appends [e] + appendsLeft (poller s') ≤ appendsLeft (poller s))%nat
  ∧ (poller s = Ended ∨ e = SSelect → poller s' = Ended)
  ∧ match poller s with
    | Holding events =>
        steps (rec s') = steps (rec s) ∧ poller s' = Holding events
        ∨ steps (rec s') = steps (rec s) ++ events
          ∧ poller s' = Appended events
    | Evaluating =>
        steps (rec s') = steps (rec s)
    | _ => steps (rec s') = steps (rec s) ∧ appendsLeft (poller s') = 0%nat
    end.
Proof.
  intros Hrec. destruct e; unfold sessionStep, bind, ret.
  - destruct (poller s) eqn:Hp; try discriminate.
    unfold listen_select, bind, ret. rewrite Hrec.
    destruct (ctx (rec s)) as [c|]; [|discriminate].
    destruct (select_Done c w) as [[] w1]; simpl;
      intros [= <- <-]; simpl; auto.
  - destruct (poller s) eqn:Hp; try discriminate.
    destruct (listen_evaluate (rec s) w) as [[[events|]|] w1];
      [| |discriminate];
      intros [= <- <-]; simpl; split_and!; auto; by intros [|].
  - destruct (poller s) eqn:Hp; try discriminate.
    intros [= <- <-]. simpl. split_and!; auto. by intros [|].
  - destruct (poller s) eqn:Hp; try discriminate.
    destruct (listen_forward _ _ w) as [[] w1]. intros [= <- <-].
    simpl. split_and!; auto. by intros [|].
  - unfold ChromeRecorder_StopRecording. rewrite Hrec. simpl. unfold ret.
    intros [= <- <-]. simpl. split_and!; auto; [by intros [|]|].
    by destruct (poller s); auto.
  - intros [= <- <-]. simpl. split_and!; auto; [by intros [|]|].
    by destruct (poller s); auto.
  - intros [= <- <-]. simpl. split_and!; auto; [by intros [|]|].
    by destruct (poller s); auto.
Qed.

(** Only the append of the loop changes the steps. *)
Lemma sessionRun_no_append (es : list SessionEvent) :
  ∀ (s s' : Session) (w w' : W),
    appends es = 0%nat →
    sessionRun s es w = (Some s', w') →
    steps (rec s') = steps (rec s).
Proof.
  induction es as [|e es IH]; intros s s' w w' Hnone; cbn [sessionRun].
  - by intros [= <- <-].
  - unfold bind.
    destruct (sessionStep s e w) as [[s1|] w1] eqn:Hstep; [|discriminate].
    intros Hrun.
    assert (He : e ≠ SAppend ∧ appends es = 0%nat).
    { unfold appends in *. destruct e; simpl in *; try done; lia. }
    destruct He as [He Hnone'].
    rewrite (IH s1 s' w1 w' Hnone' Hrun). clear IH Hrun.
    destruct e; unfold sessionStep, bind, ret in Hstep; try done.
    + destruct (poller s); try discriminate.
      destruct (listen_select (rec s) w) as [[[]|] w2];
        by revert Hstep; intros [= <- <-].
    + destruct (poller s); try discriminate.
      destruct (listen_evaluate (rec s) w) as [[[events|]|] w2];
        [| |discriminate]; by revert Hstep; intros [= <- <-].
    + destruct (poller s); try discriminate.
      destruct (listen_forward _ _ w) as [[] w2]. by revert Hstep; intros [= <- <-].
    + unfold ChromeRecorder_StopRecording, bind, ret in Hstep.
      destruct (negb (isRecording (rec s))); [by revert Hstep; intros [= <- <-]|].
      destruct (match cancel (rec s) with
                | Some c => context_cancel c
                | None => λ w0, (tt, w0)
                end w) as [[] w2].
      by revert Hstep; intros [= <- <-].
    + by revert Hstep; intros [= <- <-].
    + by revert Hstep; intros [= <- <-].
Qed.

Lemma sessionRun_stopped (es : list SessionEvent) :
  ∀ (s s' : Session) (w w' : W),
    isRecording (rec s) = false →
    sessionRun s es w = (Some s', w') →
    isRecording (rec s') = false
    ∧ (appends es + appendsLeft (poller s') ≤ appendsLeft (poller s))%nat
    ∧ (poller s = Ended ∨ SSelect ∈ es → poller s' = Ended)
    ∧ match poller s with
      | Holding events =>
          steps (rec s') = steps (rec s)
          ∨ steps (rec s') = steps (rec s) ++ events
      | Evaluating => appends es = 0%nat → steps (rec s') = steps (rec s)
      | _ => steps (rec s') = steps (rec s)
      end.
Proof.
  induction es as [|e es IH]; intros s s' w w' Hrec; cbn [sessionRun].
  - intros [= <- <-]. split; [done|]. split; [simpl; lia|].
    split; [intros [|Hin]; [done|by apply elem_of_nil in Hin]|].
    destruct (poller s); auto.
  - unfold bind.
    pose proof (sessionRun_no_append (e :: es) s s' w w') as Hquiet.
    cbn [sessionRun] in Hquiet. unfold bind in Hquiet.
    destruct (sessionStep s e w) as [[s1|] w1] eqn:Hstep; [|discriminate].
    intros Hrun.
    apply sessionStep_stopped in Hstep as (Hrec1 & Hleft1 & Hend1 & Hsteps1);
      [|done].
    destruct (IH _ _ _ _ Hrec1 Hrun) as (Hrec' & Hleft' & Hend' & Hsteps').
    assert (Happ : appends (e :: es) = (appends [e] + appends es)%nat).
    { unfold appends. simpl. destruct e; simpl; lia. }
    split; [done|]. split; [lia|]. split.
    { intros [Hp|Hin]; [by auto|].
      apply elem_of_cons in Hin as [<-|Hin]; by auto. }
    destruct (poller s) eqn:Hp.
    + destruct Hsteps1 as [Hst Hzero].
      destruct (poller s1); simpl in Hzero; try done; congruence.
    + intros Hnone. by apply Hquiet.
    + destruct Hsteps1 as [[Hst Hp1]|[Hst Hp1]]; rewrite Hp1 in Hsteps'.
      * rewrite Hst in Hsteps'. done.
      * right. congruence.
    + destruct Hsteps1 as [Hst Hzero].
      destruct (poller s1); simpl in Hzero; try done; congruence.
    + destruct Hsteps1 as [Hst Hzero].
      destruct (poller s1); simpl in Hzero; try done; congruence.
Qed.

(** X7.  Once the recorder is stopped its poll loop is on its last turn.
    Under any later interleaving it appends at most once more: nothing if it
    stood at the [select], the batch it held if it had fetched one, and at
    most the batch of the evaluation under way otherwise.  The first time it
    reaches the [select] again it ends for good.  So the steps read straight
    after [StopRecording] can miss a last batch, and nothing beyond that
    batch is ever recorded. *)
Theorem stopped_recorder_takes_one_batch_at_most (es : list SessionEvent) :
  ∀ (s s' : Session) (w w' : W),
    isRecording (rec s) = false →
    sessionRun s es w = (Some s', w') →
    isRecording (rec s') = false
    ∧ (appends es ≤ appendsLeft (poller s) ≤ 1)%nat
    ∧ (SSelect ∈ es → poller s' = Ended)
    ∧ match poller s with
      | Holding events =>
          steps (rec s') = steps (rec s)
          ∨ steps (rec s') = steps (rec s) ++ events
      | Evaluating => appends es = 0%nat → steps (rec s') = steps (rec s)
      | _ => steps (rec s') = steps (rec s)
      end.
Proof.
  intros s s' w w' Hrec Hrun.
  destruct (sessionRun_stopped es s s' w w' Hrec Hrun)
    as (Hrec' & Hleft & Hend & Hsteps).
  split; [done|]. split; [|split; [by auto|done]].
  split; [lia|]. by destruct (poller s); simpl; lia.
Qed.

End recorder_props.
End recorder_props.

Module recorder_examples.
Import recorder recorder_terms recorder_more recorder_props demo demo_more.

(** X2 at work: the first start of session [s1]. *)
Lemma StartRecording_fresh_witness :
  ∃ r, recorders oneSession = <["s1" := r]> ∅
       ∧ isRecording r = true
       ∧ GetRecordingStatus oneSession "s1" = (true, [], None).
Proof.
  destruct (StartRecording "(function() {})();" Manager "s1"
              "https://example.test/" phoneInfo 0%nat) as [[err rm'] w'] eqn:Hs.
  assert (He : err = None ∧ rm' = oneSession).
  { split.
    - change err with (fst (fst (err, rm', w'))). rewrite <- Hs.
      vm_compute. reflexivity.
    - change rm' with (snd (fst (err, rm', w'))). rewrite <- Hs.
      reflexivity. }
  destruct He as [-> ->].
  destruct (StartRecording_fresh "(function() {})();" Manager oneSession "s1"
              "https://example.test/" phoneInfo None 0%nat w' eq_refl Hs)
    as (r & Hrm & Hrec & _ & _ & _ & _ & _ & Hstatus).
  exists r. done.
Defined.

(** X3 at work: session [s1] is stopped. *)
Lemma StopRecording_frame_witness :
  ∃ rm1 r1,
    StopRecording oneSession "s1" 3%nat = (None, rm1, 3%nat)
    ∧ dom (recorders rm1) = dom (recorders oneSession)
    ∧ recorders rm1 !! "s1" = Some r1
    ∧ isRecording r1 = false.
Proof.
  destruct (StopRecording oneSession "s1" 3%nat) as [[e rm1] w1] eqn:Hs.
  assert (He : e = None ∧ w1 = 3%nat).
  { split.
    - change e with (fst (fst (e, rm1, w1))). rewrite <- Hs.
      vm_compute. reflexivity.
    - change w1 with (snd (e, rm1, w1)). rewrite <- Hs.
      vm_compute. reflexivity. }
  destruct He as [-> ->].
  destruct (StopRecording_frame oneSession rm1 "s1" None 3%nat 3%nat Hs)
    as (Hdom & _ & Hcase).
  destruct (recorders oneSession !! "s1") as [r|] eqn:Hr.
  - destruct Hcase as (r1 & Hr1 & Hrec & _). by exists rm1, r1.
  - vm_compute in Hr. discriminate.
Defined.

(** X4 at work: the id [s1] after the session was stopped. *)
Lemma stopped_id_is_taken_until_cleanup_witness :
  ∃ rm1,
    StopRecording oneSession "s1" 3%nat = (None, rm1, 3%nat)
    ∧ StartRecording "(function() {})();" rm1 "s1" "https://example.test/"
        phoneInfo 4%nat
      = (Some "recording session s1 already exists", rm1, 4%nat).
Proof.
  destruct (StopRecording oneSession "s1" 3%nat) as [[e rm1] w1] eqn:Hs.
  assert (He : e = None ∧ w1 = 3%nat).
  { split.
    - change e with (fst (fst (e, rm1, w1))). rewrite <- Hs.
      vm_compute. reflexivity.
    - change w1 with (snd (e, rm1, w1)). rewrite <- Hs.
      vm_compute. reflexivity. }
  destruct He as [-> ->].
  destruct (stopped_id_is_taken_until_cleanup "(function() {})();"
              oneSession rm1 "s1" "https://example.test/" phoneInfo None
              3%nat 3%nat 4%nat Hs) as (Hdup & _).
  - discriminate.
  - by exists rm1.
Defined.

(** X5 at work: session [s1] is started, a batch is appended and the
    session is stopped. *)
Lemma registry_recorders_are_started_witness :
  ∃ r,
    recorders (fst (calls "(function() {})();" Manager
                      [ CallStart "s1" "https://example.test/" phoneInfo;
                        CallAppend "s1" [tap];
                        CallStop "s1" ] 0%nat)) !! "s1" = Some r
    ∧ sessionID r = "s1"
    ∧ ∃ c, ctx r = Some c ∧ cancel r = Some c.
Proof.
  edestruct registry_recorders_are_started
    with (script := "(function() {})();")
         (cs := [ CallStart "s1" "https://example.test/" phoneInfo;
                  CallAppend "s1" [tap];
                  CallStop "s1" ])
         (w := 0%nat) (sessionID := "s1")
    as (Hid & Hctx & _); [vm_compute; reflexivity|].
  eexists. split; [vm_compute; reflexivity|]. done.
Defined.

(** X6 at work: the steps before and after [lateBatch]. *)
Lemma steps_only_grow_witness :
  ∃ s' w',
    sessionRun session1 lateBatch 0%nat = (Some s', w')
    ∧ ChromeRecorder_GetSteps (rec session1)
        `prefix_of` ChromeRecorder_GetSteps (rec s').
Proof.
  destruct (sessionRun session1 lateBatch 0%nat) as [[s'|] w'] eqn:Hrun.
  - exists s', w'. split; [done|].
    by apply (steps_only_grow lateBatch session1 s' 0%nat w').
  - assert (Hsome : is_Some (fst (sessionRun session1 lateBatch 0%nat))).
    { vm_compute. by eexists. }
    rewrite Hrun in Hsome. by destruct Hsome.
Defined.

(** X7 at work: [session1] was stopped while its loop held one click; the
    click is appended after the stop and the loop ends. *)
Lemma stopped_recorder_takes_one_batch_at_most_witness :
  ∃ s' w',
    sessionRun stoppedHolding [SGetSteps; SAppend; SForward; SSelect] 1%nat
      = (Some s', w')
    ∧ steps (rec stoppedHolding) = []
    ∧ steps (rec s') = [tap]
    ∧ poller s' = Ended.
Proof.
  edestruct stopped_recorder_takes_one_batch_at_most
    with (es := [SGetSteps; SAppend; SForward; SSelect])
         (s := stoppedHolding) (w := 1%nat)
    as (_ & _ & Hend & _);
    [vm_compute; reflexivity | vm_compute; reflexivity |].
  eexists _, _. split; [vm_compute; reflexivity|].
  split; [vm_compute; reflexivity|].
  split; [vm_compute; reflexivity|].
  apply Hend. repeat constructor.
Defined.

End recorder_examples.

(** * More properties: the step replay driver *)

Module driver_props.
Import models executor driver_terms driver_more executor_spec.

(** Destructs the call whose result the goal is waiting for. *)
Tactic Notation "step_call" "as" simple_intropattern(pat) :=
  match goal with
  | |- context [let (_, _) := ?m in _] =>
      lazymatch m with
      | context [let (_, _) := _ in _] => fail
      | _ => destruct m as pat
      end
  end.

(** The same, with a call of [addLog] replaced by what it returns. *)
Ltac step_log unfold_lemma :=
  match goal with
  | |- context [let (_, _) := addLog ?r ?l ?m ?i ?w in _] =>
      rewrite (unfold_lemma r l m i w)
  | |- context [(match ?e with Some _ => _ | None => _ end) _] => destruct e
  | |- context [let (_, _) := ?m in _] =>
      lazymatch m with
      | context [let (_, _) := _ in _] => fail
      | _ => destruct m
      end
  end.

(** The two outcomes of the one browser run of a step of a supported
    type. *)
Ltac run_cases ctx w :=
  unfold runErr, bind, ret;
  match goal with
  | |- context [chromedp_Run ctx ?a w] =>
      let e := fresh "e" in
      let out := fresh "out" in
      let w1 := fresh "w" in
      destruct (chromedp_Run ctx a w) as [[[e|] out] w1] eqn:?; simpl;
      [right; split; [set_solver|]; exists a, out, e; split; done|set_solver]
  end.

Section driver_props.
Context `{Float64} `{!Given} `{World W}.

(** ** Screenshot file names *)

Lemma get_in_list (s : string) :
  ∀ k c, String.get k s = Some c → c ∈ String.list_ascii_of_string s.
Proof.
  induction s as [|a s IH]; intros k c; simpl; [done|].
  destruct k as [|k]; [intros [= <-]; by left|].
  intros Hget. right. by eapply IH.
Qed.

Lemma get_is_Some (s : string) :
  ∀ k, (k < String.length s)%nat → is_Some (String.get k s).
Proof.
  induction s as [|a s IH]; intros k; simpl; [lia|].
  destruct k as [|k]; [by eexists|]. intros Hk. apply IH. lia.
Qed.

Lemma existsb_eqb_elem (c : Ascii.ascii) (l : list Ascii.ascii) :
  c ∈ l → existsb (Ascii.eqb c) l = true.
Proof.
  intros Hin. apply existsb_exists. exists c. split.
  - by apply list_elem_of_In.
  - apply Ascii.eqb_refl.
Qed.

Lemma generateRandomString_spec (n : nat) :
  ∀ w : W,
    String.length (fst (generateRandomString n w)) = n
    ∧ overCharset (fst (generateRandomString n w)) = true.
Proof.
  induction n as [|n IH]; intros w; [done|].
  cbn [generateRandomString]. unfold bind, ret.
  destruct (time_Now w) as [t w1].
  specialize (IH w1). destruct (generateRandomString n w1) as [rest w2].
  cbn [fst String.length] in *. destruct IH as [-> Hover]. split; [done|].
  unfold overCharset in *. cbn [String.list_ascii_of_string forallb].
  rewrite Hover, andb_true_r.
  destruct (get_is_Some charset (N.to_nat (t `mod` 36)%N)) as [c Hc].
  { pose proof (N.mod_lt t 36). change (String.length charset) with 36%nat.
    lia. }
  rewrite Hc. cbn [default]. apply existsb_eqb_elem. by eapply get_in_list.
Qed.

(** X8.  [takeScreenshot] returns the empty string or the name of the file
    it has written: the tag, the formatted time of the clock reading the
    call starts with, the step index in decimal and eight characters of
    [charset], joined by underscores and ending in [.png]. *)
Theorem takeScreenshot_file_name (ctx : Ctx) (tag : string) (i : Z) (w : W) :
  let name := fst (takeScreenshot ctx tag i w) in
  name = ""
  ∨ ∃ rnd,
      name = tag +:+ "_" +:+ time_Format (fst (time_Now w)) +:+ "_"
             +:+ pretty i +:+ "_" +:+ rnd +:+ ".png"
      ∧ String.length rnd = 8%nat
      ∧ overCharset rnd = true.
Proof.
  unfold takeScreenshot, bind, ret.
  destruct (time_Now w) as [t w1]. cbn [fst].
  pose proof (generateRandomString_spec 8 w1) as [Hlen Hover].
  destruct (generateRandomString 8 w1) as [rnd w2]. cbn [fst] in Hlen, Hover.
  step_call as [[e|] w3]; [by left|].
  step_call as [[[e|] buf] w4]; [by left|].
  step_call as [[e|] w5]; [by left|].
  right. by exists rnd.
Qed.

(** ** Where the error of a step comes from *)

Lemma runErr_origin (ctx : Ctx) (actions : list chromedp.Action) (w : W) :
  ∃ out, chromedp_Run ctx actions w
         = ((fst (runErr ctx actions w), out), snd (runErr ctx actions w)).
Proof.
  unfold runErr, bind, ret.
  destruct (chromedp_Run ctx actions w) as [[err out] w1]. by exists out.
Qed.

(** X9.  [executeStep] returns [nil] only for a step of a supported type.
    An error is either the unsupported-type error, returned without touching
    the browser, or the error of the one browser run the step makes: for a
    click and for a touch start it comes wrapped with the selector, for
    every other type it is passed on as it is. *)
Theorem executeStep_error_origin
    (ctx : Ctx) (step : TestStep) (i : Z) (w : W) :
  let r := executeStep ctx step i w in
  match fst r with
  | None => Type_ step ∈ supported
  | Some e =>
      ((Type_ step ∉ supported)
       ∧ e = "unsupported step type: " +:+ Type_ step
       ∧ snd r = w)
      ∨ (Type_ step ∈ supported
         ∧ ∃ actions out e',
             chromedp_Run ctx actions w = ((Some e', out), snd r)
             ∧ e = if String.eqb (Type_ step) "click"
                      || String.eqb (Type_ step) "touchstart"
                   then "failed to click element " +:+ Selector step
                        +:+ ": " +:+ e'
                   else e')
  end.
Proof.
  cbv zeta.
  destruct (decide (Type_ step ∈ supported)) as [Hin|Hout].
  2:{ rewrite executeStep_unsupported by done. simpl. by left. }
  unfold executeStep.
  unfold supported in Hin.
  repeat (apply elem_of_cons in Hin as [Heq|Hin]);
    [..|by apply elem_of_nil in Hin];
    rewrite Heq; simpl.
  - unfold executeClick. run_cases ctx w.
  - unfold executeInput. run_cases ctx w.
  - unfold executeKeydown. run_cases ctx w.
  - unfold executeScroll.
    destruct (Coordinates step !! "scrollY") as [[]|];
      try (unfold ret; simpl; set_solver).
    run_cases ctx w.
  - unfold executeTouch. rewrite Heq. simpl.
    unfold executeClick. run_cases ctx w.
  - unfold executeTouch. rewrite Heq. simpl. unfold ret. simpl.
    set_solver.
  - unfold executeChange. run_cases ctx w.
  - unfold executeSubmit. run_cases ctx w.
Qed.

(** ** A step that does nothing *)

(** X10.  A [touchend] step, and a [scroll] step whose coordinates hold no
    number under [scrollY], are replayed without any action on the page:
    [executeStep] returns [nil] and leaves the world as it is, and the loop
    body logs the step as executed and completed, takes no screenshot, and
    goes on after its pause of 500 ms. *)
Theorem step_without_effect
    (ctx : Ctx) (i : Z) (step : TestStep) (r : ExecutionResult) (w : W) :
  Type_ step = "touchend"
  ∨ (Type_ step = "scroll"
     ∧ ∀ f, Coordinates step !! "scrollY" ≠ Some (IFloat64 f)) →
  (∀ wld, executeStep ctx step i wld = (None, wld))
  ∧ ∃ r',
      replayStep ctx i step r w
      = (Next r',
         snd (chromedp_Run ctx [chromedp.Sleep 500]
                (snd (time_Now (snd (time_Now w))))))
      ∧ Screenshots r' = Screenshots r
      ∧ verdict r' = verdict r
      ∧ indices r' = indices r ++ [i; i]
      ∧ messages r'
        = messages r
          ++ [ "Executing step " +:+ pretty (i + 1) +:+ ": " +:+ Type_ step;
               "Step " +:+ pretty (i + 1) +:+ " completed successfully" ].
Proof.
  intros Hstep.
  assert (Hexec : ∀ wld, executeStep ctx step i wld = (None, wld)).
  { intros wld. unfold executeStep.
    destruct Hstep as [Heq|[Heq Hno]]; rewrite Heq; simpl.
    - unfold executeTouch. by rewrite Heq.
    - unfold executeScroll.
      destruct (Coordinates step !! "scrollY") as [[]|] eqn:Hc; try done.
      by destruct (Hno f). }
  assert (Hkey : shouldTakeScreenshot step = false).
  { unfold shouldTakeScreenshot.
    destruct Hstep as [Heq|[Heq _]]; by rewrite Heq. }
  split; [done|].
  unfold replayStep, bind, ret. rewrite addLog_unfold, Hexec.
  rewrite addLog_unfold, Hkey. cbn [fst snd].
  destruct (chromedp_Run ctx [chromedp.Sleep 500] _) as [out w'].
  eexists. split; [reflexivity|]. cbn [snd].
  unfold verdict, indices, messages. simpl.
  rewrite !fmap_app, <- !app_assoc. done.
Qed.

(** ** What a run leaves in the result *)

Lemma prefixed_nonempty (c : Ascii.ascii) (s1 s2 : string) :
  String c s1 +:+ s2 ≠ "".
Proof. done. Qed.

Lemma appendScreenshot_verdict (r : ExecutionResult) (name : string) :
  verdict (appendScreenshot r name) = verdict r
  ∧ indices (appendScreenshot r name) = indices r
  ∧ (length (Screenshots (appendScreenshot r name))
     ≤ length (Screenshots r) + 1)%nat
  ∧ (length (Screenshots r)
     ≤ length (Screenshots (appendScreenshot r name)))%nat.
Proof.
  unfold appendScreenshot. destruct (String.eqb name ""); simpl.
  - split_and!; try done; lia.
  - rewrite length_app. simpl. split_and!; try done; lia.
Qed.

Lemma openPage_verdict ctx testCase (r : ExecutionResult) (w : W) :
  Success (flowResult (fst (openPage ctx testCase r w))) = Success r
  ∧ Metrics (flowResult (fst (openPage ctx testCase r w))) = Metrics r
  ∧ match fst (openPage ctx testCase r w) with
    | Next r' => ErrorMessage r' = ErrorMessage r
    | Return r' => ErrorMessage r' ≠ ""
    end.
Proof.
  unfold openPage, bind, runErr, ret. rewrite addLog_unfold.
  unfold bind, ret.
  repeat (step_log addLog_unfold; simpl).
  all: rewrite ?addLog_unfold; simpl.
  all: done.
Qed.

Lemma openPage_entries ctx testCase (r : ExecutionResult) (w : W) :
  Screenshots (flowResult (fst (openPage ctx testCase r w))) = Screenshots r
  ∧ ∃ extra,
      indices (flowResult (fst (openPage ctx testCase r w)))
      = indices r ++ extra
      ∧ Forall (λ k, k = -1) extra.
Proof.
  destruct (openPage_logged ctx testCase r w) as (_ & Hshots & extra & _ & Hi & Hall).
  split; [done|]. by exists extra.
Qed.

(** What [setup] hands over: an aborted run has failed with a message, a
    run that goes on has no verdict yet; neither has a screenshot or a log
    entry for a step. *)
Lemma setup_outcome testCase isVisual (w : W) :
  match fst (setup testCase isVisual w) with
  | Abort r =>
      Success r = false ∧ Metrics r = None ∧ ErrorMessage r ≠ ""
      ∧ Screenshots r = [] ∧ Forall (λ k, k = -1) (indices r)
  | Ready _ _ _ steps _ r =>
      steps = fst (GetSteps testCase)
      ∧ verdict r = (false, "", None)
      ∧ Screenshots r = [] ∧ Forall (λ k, k = -1) (indices r)
  end.
Proof.
  unfold setup. destruct (GetSteps testCase) as [steps [e|]]; [done|].
  unfold bind.
  destruct (chrome.GetChromePath w) as [chromePath w1].
  destruct (String.eqb chromePath "").
  { rewrite addLog_unfold. unfold ret, indices. simpl.
    split_and!; try done. by repeat constructor. }
  rewrite addLog_unfold.
  destruct (os_Stat chromePath _) as [[e|] w2].
  { rewrite addLog_unfold. unfold ret, indices. simpl.
    split_and!; try done. by repeat constructor. }
  step_call as [allocCtx w3]. step_call as [ctx0 w4].
  step_call as [ctx w5]. step_call as [startTime w6].
  match goal with |- context [openPage ?c ?t ?r ?x] =>
    pose proof (openPage_verdict c t r x) as (Hs & Hm & He);
    pose proof (openPage_entries c t r x) as (Hshots & extra & Hi & Hall);
    destruct (openPage c t r x) as [[r'|r'] w'] end.
  - simpl in *. unfold verdict. rewrite Hs, Hm, He, Hshots, Hi.
    split_and!; try done. unfold indices. simpl. by constructor.
  - unfold bind, runDeferred, bind, ret. repeat step_call as [? ?].
    simpl in *. rewrite Hs, Hm, Hshots, Hi.
    split_and!; try done. unfold indices. simpl. by constructor.
Qed.

(** One turn of the loop adds the two entries of its step, leaves the
    verdict alone unless the step fails, and takes one screenshot at
    most. *)
Lemma replayStep_outcome ctx i step (r : ExecutionResult) (w : W) :
  let f := fst (replayStep ctx i step r w) in
  indices (flowResult f) = indices r ++ [i; i]
  ∧ Success (flowResult f) = Success r
  ∧ Metrics (flowResult f) = Metrics r
  ∧ (length (Screenshots r) ≤ length (Screenshots (flowResult f)))%nat
  ∧ match f with
    | Next r' =>
        ErrorMessage r' = ErrorMessage r
        ∧ (length (Screenshots r')
           ≤ length (Screenshots r)
             + (if shouldTakeScreenshot step then 1 else 0))%nat
    | Return r' =>
        ErrorMessage r' ≠ ""
        ∧ (length (Screenshots r') ≤ length (Screenshots r) + 1)%nat
        ∧ ∃ t, last (Logs r')
               = Some {| Timestamp := t; Level := "error";
                         Message := ErrorMessage r'; StepIndex := i |}
    end.
Proof.
  unfold replayStep, bind, ret. rewrite addLog_unfold.
  destruct (executeStep ctx step i _) as [[e|] w1].
  - rewrite addLog_unfold.
    destruct (takeScreenshot ctx "error" i _) as [name w2]. simpl.
    match goal with |- context [appendScreenshot ?r0 name] =>
      destruct (appendScreenshot_verdict r0 name) as (Hv & Hi & Hle & Hge);
      destruct (appendScreenshot_fields r0 name) as (_ & _ & Hlogs & _)
    end.
    unfold verdict in Hv. simpl in Hv. injection Hv as Hs He Hm.
    rewrite Hi, Hs, He, Hm, Hlogs. simpl in *.
    split_and!; [|done|done|lia|by cbn [String.append]|lia|].
    + unfold indices. simpl. by rewrite !fmap_app, <- !app_assoc.
    + eexists. by rewrite last_snoc.
  - rewrite addLog_unfold. cbn [fst snd].
    destruct (shouldTakeScreenshot step).
    + destruct (takeScreenshot ctx "step" i _) as [name w2].
      destruct (chromedp_Run ctx _ w2) as [out w3]. simpl.
      match goal with |- context [appendScreenshot ?r0 name] =>
        destruct (appendScreenshot_verdict r0 name) as (Hv & Hi & Hle & Hge)
      end.
      unfold verdict in Hv. simpl in Hv. injection Hv as Hs He Hm.
      rewrite Hi, Hs, He, Hm. simpl in *.
      split_and!; try done; try lia.
      unfold indices. simpl. by rewrite !fmap_app, <- !app_assoc.
    + destruct (chromedp_Run ctx _ _) as [out w3]. cbn [fst flowResult].
      unfold indices. simpl. rewrite !fmap_app, <- !app_assoc. simpl.
      split_and!; try done; lia.
Qed.

Lemma stepEntries_S (i : Z) (m : nat) :
  stepEntries i (S m) = [i; i] ++ stepEntries (i + 1) m.
Proof.
  unfold stepEntries. rewrite seqZ_cons by lia.
  replace (Z.succ i) with (i + 1) by lia.
  replace (Z.pred (Z.of_nat (S m))) with (Z.of_nat m) by lia. done.
Qed.

(** The loop adds the entries of the steps it reaches, in order; it leaves
    the verdict alone unless a step fails, and then the failed step is the
    last one reached. *)
Lemma replaySteps_outcome ctx (steps : list TestStep) :
  ∀ i (r : ExecutionResult) (w : W),
    let f := fst (replaySteps ctx i steps r w) in
    Success (flowResult f) = Success r
    ∧ Metrics (flowResult f) = Metrics r
    ∧ (length (Screenshots r) ≤ length (Screenshots (flowResult f)))%nat
    ∧ ∃ m : nat,
        indices (flowResult f) = indices r ++ stepEntries i m
        ∧ match f with
          | Next r' =>
              m = length steps
              ∧ ErrorMessage r' = ErrorMessage r
              ∧ (length (Screenshots r')
                 ≤ length (Screenshots r) + length (keyIndices i steps))%nat
          | Return r' =>
              (0 < m ≤ length steps)%nat
              ∧ ErrorMessage r' ≠ ""
              ∧ (length (Screenshots r')
                 ≤ length (Screenshots r) + length (keyIndices i steps) + 1)%nat
              ∧ ∃ t, last (Logs r')
                     = Some {| Timestamp := t; Level := "error";
                               Message := ErrorMessage r';
                               StepIndex := i + Z.of_nat m - 1 |}
          end.
Proof.
  induction steps as [|step rest IH]; intros i r w.
  { simpl. split_and!; try done. exists 0%nat. unfold stepEntries. simpl.
    rewrite app_nil_r. split_and!; try done. lia. }
  cbn [replaySteps keyIndices]. unfold bind.
  pose proof (replayStep_outcome ctx i step r w) as Hstep. cbv zeta in Hstep.
  destruct (replayStep ctx i step r w) as [[r1|r1] w1]; cbn [fst flowResult] in Hstep.
  - destruct Hstep as (Hi1 & Hs1 & Hm1 & Hge1 & He1 & Hle1).
    specialize (IH (i + 1) r1 w1). cbv zeta in IH.
    destruct IH as (Hs & Hm & Hge & m & Hi & Hcase).
    rewrite Hs, Hm, Hs1, Hm1. split_and!; try done; [lia|].
    exists (S m). rewrite stepEntries_S, Hi, Hi1, <- !app_assoc.
    split; [done|].
    assert (Hkey : (length (keyIndices i (step :: rest))
                    = (if shouldTakeScreenshot step then 1 else 0)
                      + length (keyIndices (i + 1) rest))%nat).
    { cbn [keyIndices]. by destruct (shouldTakeScreenshot step). }
    cbn [keyIndices] in Hkey.
    destruct (replaySteps ctx (i + 1) rest r1 w1) as [[r2|r2] w2];
      cbn [fst flowResult] in *.
    + destruct Hcase as (-> & He & Hle). rewrite He, He1.
      split_and!; try done. lia.
    + destruct Hcase as (Hmle & He & Hle & t & Hlast).
      split_and!; try done; try (simpl; lia).
      exists t. rewrite Hlast. do 2 f_equal. lia.
  - destruct Hstep as (Hi1 & Hs1 & Hm1 & Hge1 & He1 & Hle1 & t & Hlast).
    unfold ret. cbn [fst flowResult]. split_and!; try done.
    exists 1%nat. rewrite stepEntries_S. unfold stepEntries at 1. simpl.
    split; [done|]. split_and!; try done; try lia.
    exists t. rewrite Hlast. do 2 f_equal. lia.
Qed.

Lemma finish_verdict ctx steps startTime (r : ExecutionResult) (w : W) :
  let r' := fst (finish ctx steps startTime r w) in
  Success r' = true
  ∧ ErrorMessage r' = ErrorMessage r
  ∧ is_Some (Metrics r')
  ∧ indices r' = indices r ++ [-1]
  ∧ (length (Screenshots r') ≤ length (Screenshots r) + 1)%nat
  ∧ ∃ t, last (Logs r')
         = Some {| Timestamp := t; Level := "info";
                   Message := "Test case execution completed successfully";
                   StepIndex := -1 |}.
Proof.
  unfold finish, bind, ret.
  destruct (takeScreenshot ctx "final" _ w) as [name w1].
  destruct (collectPerformanceMetrics ctx w1) as [metrics w2].
  destruct (time_Now w2) as [t w3]. rewrite addLog_unfold. simpl.
  destruct (appendScreenshot_verdict r name) as (Hv & Hi & Hle & _).
  destruct (appendScreenshot_fields r name) as (_ & _ & Hlogs & _).
  unfold verdict in Hv. injection Hv as _ He _.
  split_and!; try done.
  - unfold indices in *. simpl. by rewrite fmap_app, Hi.
  - eexists. by rewrite last_snoc.
Qed.

(** Lines 230-280, entered with a result that has no verdict yet. *)
Lemma replay_outcome ctx steps startTime (r : ExecutionResult) (w : W) :
  verdict r = (false, "", None) →
  let r' := fst (replay ctx steps startTime r w) in
  (length (Screenshots r')
   ≤ length (Screenshots r) + 2 + length (keyIndices 0 steps))%nat
  ∧ ∃ m : nat,
      indices r'
      = indices r ++ stepEntries 0 m ++ (if Success r' then [-1] else [])
      ∧ if Success r'
        then m = length steps
             ∧ ErrorMessage r' = "" ∧ is_Some (Metrics r')
             ∧ ∃ t, last (Logs r')
                    = Some {| Timestamp := t; Level := "info";
                              Message := "Test case execution completed successfully";
                              StepIndex := -1 |}
        else (0 < m ≤ length steps)%nat
             ∧ ErrorMessage r' ≠ "" ∧ Metrics r' = None
             ∧ ∃ t, last (Logs r')
                    = Some {| Timestamp := t; Level := "error";
                              Message := ErrorMessage r';
                              StepIndex := Z.of_nat m - 1 |}.
Proof.
  intros Hv. unfold verdict in Hv. injection Hv as Hs He Hm.
  unfold replay, bind, ret.
  pose proof (initialScreenshot_fields ctx r w) as Hinit. cbv zeta in Hinit.
  assert (Hm2 : Metrics (fst (initialScreenshot ctx r w)) = Metrics r
                ∧ (length (Screenshots (fst (initialScreenshot ctx r w)))
                   ≤ length (Screenshots r) + 1)%nat).
  { unfold initialScreenshot, bind, ret.
    destruct (takeScreenshot ctx "initial" 0 w) as [name w'].
    destruct (appendScreenshot_verdict r name) as (Hv & _ & Hle & _).
    unfold verdict in Hv. injection Hv as _ _ Hm'. cbn [fst].
    by rewrite Hm'. }
  destruct (initialScreenshot ctx r w) as [r2 w2]. cbn [fst] in Hinit, Hm2.
  destruct Hinit as (Hs2 & He2 & Hi2 & _). destruct Hm2 as [Hm2 Hle2].
  pose proof (replaySteps_outcome ctx steps 0 r2 w2) as Hloop.
  cbv zeta in Hloop.
  destruct (replaySteps ctx 0 steps r2 w2) as [[r3|r3] w3];
    cbn [fst flowResult] in Hloop;
    destruct Hloop as (Hs3 & Hm3 & _ & m & Hi3 & Hcase).
  - destruct Hcase as (-> & He3 & Hle3).
    pose proof (finish_verdict ctx steps startTime r3 w3) as Hfin.
    cbv zeta in Hfin.
    destruct Hfin as (Hs4 & He4 & Hm4 & Hi4 & Hle4 & Hlast).
    split; [lia|]. exists (length steps).
    rewrite Hs4, Hi4, Hi3, Hi2, <- app_assoc. split; [done|].
    split_and!; try done. by rewrite He4, He3, He2.
  - destruct Hcase as (Hmle & He3 & Hle3 & t & Hlast). cbn [fst].
    split; [lia|]. exists m.
    rewrite Hs3, Hs2, Hs, Hi3, Hi2, app_nil_r. split; [done|].
    split_and!; try done; try lia.
    + congruence.
    + exists t. by rewrite Hlast.
Qed.

(** X11.  The verdict of a run is consistent.  A result with
    [Success = true] has no error message, carries the metrics, and ends its
    log with the completion entry.  A result with [Success = false] has a
    message and no metrics. *)
Theorem verdict_is_consistent testCase isVisual (w : W) :
  let result := fst (executeTestCase testCase isVisual w) in
  if Success result
  then ErrorMessage result = ""
       ∧ is_Some (Metrics result)
       ∧ ∃ t, last (Logs result)
              = Some {| Timestamp := t; Level := "info";
                        Message := "Test case execution completed successfully";
                        StepIndex := -1 |}
  else ErrorMessage result ≠ "" ∧ Metrics result = None.
Proof.
  cbv zeta. rewrite executeTestCase_result.
  pose proof (setup_outcome testCase isVisual w) as Hsetup.
  destruct (setup testCase isVisual w) as [[r|a c0 c steps t0 r] w1];
    cbn [fst] in Hsetup.
  - destruct Hsetup as (-> & Hm & He & _). done.
  - destruct Hsetup as (_ & Hv & _).
    pose proof (replay_outcome c steps t0 r w1 Hv) as Hreplay.
    cbv zeta in Hreplay. destruct Hreplay as (_ & m & _ & Hcase).
    destruct (Success (fst (replay c steps t0 r w1))).
    + by destruct Hcase as (_ & He & Hm & Hlast).
    + by destruct Hcase as (_ & He & Hm & _).
Qed.

(** X12.  The step indices of the log of a run, in order: some entries that
    belong to no step, then two entries for each step reached, the steps in
    order from 0 without a gap, then the completion entry if the run
    succeeded.  A successful run has reached every step.  A run that failed
    at a step ends its log with the error entry of the last step reached,
    whose message is the error message of the result. *)
Theorem log_entries_shape testCase isVisual (w : W) :
  let result := fst (executeTestCase testCase isVisual w) in
  let steps := fst (GetSteps testCase) in
  ∃ a m : nat,
    indices result
    = replicate a (-1) ++ stepEntries 0 m
      ++ (if Success result then [-1] else [])
    ∧ (m ≤ length steps)%nat
    ∧ (Success result = true → m = length steps)
    ∧ (Success result = false → (0 < m)%nat →
       ∃ t, last (Logs result)
            = Some {| Timestamp := t; Level := "error";
                      Message := ErrorMessage result;
                      StepIndex := Z.of_nat m - 1 |}).
Proof.
  cbv zeta. rewrite executeTestCase_result.
  pose proof (setup_outcome testCase isVisual w) as Hsetup.
  destruct (setup testCase isVisual w) as [[r|a c0 c steps t0 r] w1];
    cbn [fst] in Hsetup.
  - destruct Hsetup as (Hs & _ & _ & _ & Hall).
    exists (length (indices r)), 0%nat. rewrite Hs.
    unfold stepEntries. simpl. rewrite app_nil_r.
    split_and!; try done; try lia.
    clear Hs. induction Hall as [|k l -> _ IH]; simpl; by f_equal.
  - destruct Hsetup as (-> & Hv & _ & Hall).
    pose proof (replay_outcome c (fst (GetSteps testCase)) t0 r w1 Hv)
      as Hreplay.
    cbv zeta in Hreplay. destruct Hreplay as (_ & m & Hi & Hcase).
    exists (length (indices r)), m. rewrite Hi.
    split.
    { f_equal. clear Hi Hv.
      induction Hall as [|k l -> _ IH]; simpl; by f_equal. }
    destruct (Success (fst (replay c _ t0 r w1))).
    + destruct Hcase as (-> & _). split_and!; try done.
    + destruct Hcase as (Hm & _ & _ & Hlast). split_and!; try done. lia.
Qed.

(** X13.  A run stores at most two screenshots besides one for each step of
    type [click], [submit] or [change]; a run that failed before its first
    step stores none. *)
Theorem screenshots_bound testCase isVisual (w : W) :
  let result := fst (executeTestCase testCase isVisual w) in
  let steps := fst (GetSteps testCase) in
  (length (Screenshots result) ≤ 2 + length (keyIndices 0 steps))%nat
  ∧ (Success result = false → stepIndices result = [] →
     Screenshots result = []).
Proof.
  cbv zeta. rewrite executeTestCase_result.
  pose proof (setup_outcome testCase isVisual w) as Hsetup.
  destruct (setup testCase isVisual w) as [[r|a c0 c steps t0 r] w1];
    cbn [fst] in Hsetup.
  - destruct Hsetup as (_ & _ & _ & -> & _). simpl. split; [lia|done].
  - destruct Hsetup as (-> & Hv & Hshots & Hall).
    pose proof (replay_outcome c (fst (GetSteps testCase)) t0 r w1 Hv)
      as Hreplay.
    cbv zeta in Hreplay. destruct Hreplay as (Hle & m & Hi & Hcase).
    rewrite Hshots in Hle. simpl in Hle. split; [lia|].
    intros Hs Hnone. rewrite Hs in Hi, Hcase.
    destruct Hcase as (Hm & _). exfalso.
    unfold stepIndices in Hnone. rewrite Hi, app_nil_r in Hnone.
    destruct m as [|m]; [lia|]. rewrite stepEntries_S in Hnone.
    rewrite !filter_app in Hnone.
    apply app_eq_nil in Hnone as [_ Hnone].
    apply app_eq_nil in Hnone as [Hnone _].
    rewrite filter_cons_True in Hnone by lia. done.
Qed.

End driver_props.
End driver_props.

Module driver_props_examples.
Import models executor driver_terms driver_more driver_props demo.

(** X10 at work: a [touchend] replayed as the fourth step. *)
Lemma step_without_effect_witness :
  ∃ r',
    replayStep 2%nat 3 (step_ "touchend" "#ok" "") emptyResult 0%nat
    = (Next r', 2%nat)
    ∧ Screenshots r' = []
    ∧ messages r'
      = ["Executing step 4: touchend"; "Step 4 completed successfully"].
Proof.
  edestruct step_without_effect
    with (ctx := 2%nat) (i := 3) (step := step_ "touchend" "#ok" "")
         (r := emptyResult) (w := 0%nat)
    as (_ & r' & Hreplay & Hshots & _ & _ & Hmessages);
    [left; reflexivity|].
  exists r'. split; [exact Hreplay|]. split; [exact Hshots|].
  rewrite Hmessages. vm_compute. reflexivity.
Defined.

End driver_props_examples.

(** * More properties: the worker pool *)

Module pool_props.
Import models executor pool_terms pool_more pool_spec.

Section pool_props.
Context `{Float64} `{!Given} `{World W} `{!Runtime}.

(** ** Cancellation *)

Lemma work_eq (p q : Pool) :
  work p = work q →
  q = {| GlobalExecutor :=
           {| maxWorkers := maxWorkers (GlobalExecutor p);
              workQueue := workQueue (GlobalExecutor p);
              running := running (GlobalExecutor q) |};
         workers := workers p; resultChans := resultChans p;
         senders := senders p |}.
Proof.
  destruct p as [[mp qp rp] wp cp sp], q as [[mq qq rq] wq cq sq].
  unfold work. simpl. by intros [= -> -> -> -> ->].
Qed.

(** A step that is no cancellation can be taken whatever ids are marked as
    running, and does the same to everything else. *)
Lemma step_work (p q p' : Pool) (e : @Event W) :
  work p = work q →
  running (GlobalExecutor p) ⊆ running (GlobalExecutor q) →
  step p e = Some p' →
  if isCancel e
  then work p' = work p
       ∧ running (GlobalExecutor p') ⊆ running (GlobalExecutor q)
  else ∃ q', step q e = Some q' ∧ work q' = work p'
             ∧ running (GlobalExecutor p') ⊆ running (GlobalExecutor q').
Proof.
  intros Hwork Hsub. rewrite (work_eq p q Hwork).
  destruct p as [[mp qp rp] wp cp sp].
  set (rq := running (GlobalExecutor q)) in *. clearbody rq. clear Hwork q.
  simpl in *.
  destruct e as [x tc vis|k|w|w wld|w|w|c|id]; simpl.
  - intros [= <-]. eexists. split; [done|]. simpl. split; [done|].
    by apply insert_mono.
  - unfold ExecuteTestCaseWithOptions_send. simpl.
    destruct (sp !! k) as [job|]; [|done].
    destruct (chan_send qp job) as [queue|]; [|done].
    intros [= <-]. eexists. split; [done|]. done.
  - unfold worker_receive. simpl.
    destruct (wp !! w) as [[]|]; try done.
    destruct (chan_recv qp) as [[job queue]|]; [|done].
    intros [= <-]. eexists. split; [done|]. done.
  - unfold worker_execute. simpl.
    destruct (wp !! w) as [[]|]; try done.
    intros [= <-]. eexists. split; [done|]. done.
  - unfold worker_complete. simpl.
    destruct (wp !! w) as [[]|]; try done.
    intros [= <-]. eexists. split; [done|]. simpl. split; [done|].
    by apply delete_mono.
  - unfold worker_send. simpl.
    destruct (wp !! w) as [[]|]; try done.
    destruct (cp !! ResultChan job) as [ch|]; [|done].
    destruct (chan_send ch result) as [ch'|]; [|done].
    intros [= <-]. eexists. split; [done|]. done.
  - unfold receive_result. simpl.
    destruct (cp !! c) as [ch|]; [|done].
    destruct (chan_recv ch) as [[result ch']|]; [|done]. simpl.
    intros [= <-]. eexists. split; [done|]. done.
  - intros [= <-]. unfold CancelExecution. simpl.
    destruct (default false (rp !! id)); simpl; [|done].
    split; [done|]. etrans; [apply delete_subseteq|done].
Qed.

(** X15.  [CancelExecution] is bookkeeping only: it stops nothing.  Leave
    the cancellations out of any trace of the pool and the trace can still be
    run, with the same queue, the same workers holding the same jobs and
    results, the same results in the same channels and the same callers
    waiting; only the ids marked as running differ, and no id is marked in
    the trace with cancellations that is not marked without them. *)
Theorem cancellation_is_bookkeeping (es : list (@Event W)) :
  ∀ p p' : Pool,
    run p es = Some p' →
    ∃ q', run p (uncancelled es) = Some q'
          ∧ work q' = work p'
          ∧ running (GlobalExecutor p') ⊆ running (GlobalExecutor q').
Proof.
  assert (Hgen : ∀ p q p' : Pool,
    work p = work q →
    running (GlobalExecutor p) ⊆ running (GlobalExecutor q) →
    run p es = Some p' →
    ∃ q', run q (uncancelled es) = Some q'
          ∧ work q' = work p'
          ∧ running (GlobalExecutor p') ⊆ running (GlobalExecutor q')).
  { induction es as [|e es IH]; intros p q p' Hwork Hsub; cbn [run].
    - intros [= <-]. by exists q.
    - destruct (step p e) as [p1|] eqn:Hstep; [|done]. intros Hrun.
      pose proof (step_work p q p1 e Hwork Hsub Hstep) as Hcase.
      unfold uncancelled. cbn [List.filter].
      destruct (isCancel e); cbn [negb].
      + destruct Hcase as [Hwork1 Hsub1].
        apply (IH p1 q p'); [congruence|done|done].
      + destruct Hcase as (q1 & Hstepq & Hwork1 & Hsub1).
        cbn [run]. rewrite Hstepq. by apply (IH p1 q1 p'). }
  intros p p'. by apply Hgen.
Qed.

(** ** The queue *)

(** X16.  The work queue is first in, first out: along any trace, the jobs
    that were in the queue at the start followed by the jobs the callers
    have sent, in the order of the sends, are the jobs the workers have
    received, in the order of the receives, followed by the jobs still in
    the queue.  No job is lost in the queue, none is handed out twice, none
    overtakes another. *)
Theorem workQueue_is_fifo (es : list (@Event W)) :
  ∀ p p' : Pool,
    run p es = Some p' →
    buf (workQueue (GlobalExecutor p)) ++ sent p es
    = taken p es ++ buf (workQueue (GlobalExecutor p')).
Proof.
  induction es as [|e es IH]; intros p p'; cbn [run sent taken].
  { intros [= <-]. by rewrite app_nil_r. }
  destruct (step p e) as [p1|] eqn:Hstep; [|done]. intros Hrun.
  specialize (IH p1 p' Hrun).
  rewrite <- app_assoc, <- IH, !app_assoc. f_equal.
  clear IH Hrun.
  destruct p as [[mp qp rp] wp cp sp].
  destruct e as [x tc vis|k|w|w wld|w|w|c|id]; simpl in *.
  - injection Hstep as <-. simpl. by rewrite app_nil_r.
  - unfold ExecuteTestCaseWithOptions_send in Hstep. simpl in Hstep.
    destruct (sp !! k) as [job|]; [|done].
    destruct (chan_send qp job) as [queue|] eqn:Hsend; [|done].
    apply chan_send_Some in Hsend as [_ ->].
    injection Hstep as <-. simpl. done.
  - unfold worker_receive in Hstep. simpl in Hstep.
    destruct (wp !! w) as [[]|] eqn:Hw; try done.
    destruct (chan_recv qp) as [[job queue]|] eqn:Hrecv; [|done].
    apply chan_recv_Some in Hrecv as [Hbuf _].
    injection Hstep as <-. simpl.
    rewrite list_lookup_insert_eq by (by eapply lookup_lt_Some).
    by rewrite Hbuf, app_nil_r.
  - unfold worker_execute in Hstep. simpl in Hstep.
    destruct (wp !! w) as [[]|]; try done.
    injection Hstep as <-. simpl. by rewrite app_nil_r.
  - unfold worker_complete in Hstep. simpl in Hstep.
    destruct (wp !! w) as [[]|]; try done.
    injection Hstep as <-. simpl. by rewrite app_nil_r.
  - unfold worker_send in Hstep. simpl in Hstep.
    destruct (wp !! w) as [[]|]; try done.
    destruct (cp !! ResultChan job) as [ch|]; [|done].
    destruct (chan_send ch result) as [ch'|]; [|done].
    injection Hstep as <-. simpl. by rewrite app_nil_r.
  - unfold receive_result in Hstep. simpl in Hstep.
    destruct (cp !! c) as [ch|]; [|done].
    destruct (chan_recv ch) as [[result ch']|]; [|done].
    injection Hstep as <-. simpl. by rewrite app_nil_r.
  - injection Hstep as <-. unfold CancelExecution. simpl.
    destruct (default false (rp !! id)); simpl; by rewrite app_nil_r.
Qed.

(** ** The jobs the pool holds *)

Lemma omap_cons_option {A B} (f : A → option B) (a : A) (l : list A) :
  omap f (a :: l) = option_list (f a) ++ omap f l.
Proof. simpl. by destruct (f a). Qed.

Lemma omap_insert_Permutation {A B} (f : A → option B) (l : list A) :
  ∀ (i : nat) (x y : A),
    l !! i = Some x →
    omap f (<[i := y]> l) ++ option_list (f x)
    ≡ₚ option_list (f y) ++ omap f l.
Proof.
  induction l as [|a l IH]; intros i x y; [done|].
  destruct i as [|i].
  - intros [= ->]. cbn [insert list_insert]. rewrite !omap_cons_option.
    rewrite <- !app_assoc. f_equiv. apply Permutation_app_comm.
  - cbn [lookup list_lookup]. intros Hl. cbn [insert list_insert].
    rewrite !omap_cons_option, <- app_assoc.
    rewrite (IH i x y Hl). rewrite !app_assoc. f_equiv.
    apply Permutation_app_comm.
Qed.

Lemma omap_replicate_None {A B} (f : A → option B) (n : nat) (a : A) :
  f a = None → omap f (replicate n a) = [].
Proof. intros Ha. induction n as [|n IH]; [done|]. simpl. by rewrite Ha. Qed.

Lemma elem_of_poolJobs (p : Pool) (job : ExecutionJob) :
  job ∈ poolJobs p ↔ inPool p job.
Proof.
  unfold poolJobs, inPool. rewrite !elem_of_app, list_elem_of_omap.
  split.
  - intros [?|[?|(st & Hst & Hjob)]]; [by left|by right; left|].
    right. right. apply list_elem_of_lookup in Hst as [w Hw]. by exists w, st.
  - intros [?|[?|(w & st & Hw & Hjob)]]; [by left|by right; left|].
    right. right. exists st. split; [|done]. by eapply list_elem_of_lookup_2.
Qed.

(** What a step does to the jobs the pool holds: a registration adds the
    job it has built, the send of a result takes out the job of the worker,
    and every other step moves the jobs around. *)
Lemma step_poolJobs (p p' : Pool) (e : @Event W) :
  step p e = Some p' →
  match e with
  | EvRegister execution testCase isVisual =>
      poolJobs p'
      ≡ₚ snd (ExecuteTestCaseWithOptions_register p execution testCase
                isVisual) :: poolJobs p
  | EvPublish w =>
      ∃ job result,
        workers p !! w = Some (Sending job result)
        ∧ poolJobs p ≡ₚ job :: poolJobs p'
  | _ => poolJobs p' ≡ₚ poolJobs p
  end.
Proof.
  destruct p as [[mp qp rp] wp cp sp]. unfold poolJobs.
  destruct e as [x tc vis|k|w|w wld|w|w|c|id]; simpl.
  - intros [= <-]. simpl. rewrite <- app_assoc. simpl.
    by rewrite <- Permutation_middle.
  - unfold ExecuteTestCaseWithOptions_send. simpl.
    destruct (sp !! k) as [job|] eqn:Hk; [|done].
    destruct (chan_send qp job) as [queue|] eqn:Hsend; [|done].
    apply chan_send_Some in Hsend as [_ ->].
    intros [= <-]. simpl.
    rewrite (delete_Permutation sp k job Hk) at 2.
    rewrite <- !app_assoc. simpl.
    by rewrite <- !Permutation_middle.
  - unfold worker_receive. simpl.
    destruct (wp !! w) as [[]|] eqn:Hw; try done.
    destruct (chan_recv qp) as [[job queue]|] eqn:Hrecv; [|done].
    apply chan_recv_Some in Hrecv as [Hbuf _].
    intros [= <-]. simpl. rewrite Hbuf.
    pose proof (omap_insert_Permutation workerJob wp w Receiving
                  (Executing job) Hw) as Hperm.
    simpl in Hperm. rewrite app_nil_r in Hperm. rewrite Hperm.
    simpl. by rewrite <- !Permutation_middle.
  - unfold worker_execute. simpl.
    destruct (wp !! w) as [[|job| |]|] eqn:Hw; try done.
    intros [= <-]. simpl.
    pose proof (omap_insert_Permutation workerJob wp w (Executing job)
                  (Completing job
                     (fst (executeTestCase (TestCase_ job) (IsVisual job) wld)))
                  Hw) as Hperm.
    simpl in Hperm. rewrite <- Permutation_middle, app_nil_r in Hperm.
    apply Permutation_cons_inv in Hperm. by rewrite Hperm.
  - unfold worker_complete. simpl.
    destruct (wp !! w) as [[| |job result|]|] eqn:Hw; try done.
    intros [= <-]. simpl.
    pose proof (omap_insert_Permutation workerJob wp w (Completing job result)
                  (Sending job result) Hw) as Hperm.
    simpl in Hperm. rewrite <- Permutation_middle, app_nil_r in Hperm.
    apply Permutation_cons_inv in Hperm. by rewrite Hperm.
  - unfold worker_send. simpl.
    destruct (wp !! w) as [[| | |job result]|] eqn:Hw; try done.
    destruct (cp !! ResultChan job) as [ch|]; [|done].
    destruct (chan_send ch result) as [ch'|]; [|done].
    intros [= <-]. simpl. exists job, result. split; [done|].
    pose proof (omap_insert_Permutation workerJob wp w (Sending job result)
                  Receiving Hw) as Hperm.
    simpl in Hperm. rewrite <- Hperm.
    rewrite <- !Permutation_middle, app_nil_r. done.
  - unfold receive_result. simpl.
    destruct (cp !! c) as [ch|]; [|done].
    destruct (chan_recv ch) as [[result ch']|]; [|done]. simpl.
    by intros [= <-].
  - intros [= <-]. unfold CancelExecution. simpl.
    by destruct (default false (rp !! id)).
Qed.

(** ** Whose result is in a channel *)

Lemma step_resultChans (p p' : Pool) (e : @Event W) c ch result :
  step p e = Some p' →
  resultChans p' !! c = Some ch → result ∈ buf ch →
  (∃ ch0, resultChans p !! c = Some ch0 ∧ result ∈ buf ch0)
  ∨ (∃ w job, e = EvPublish w
              ∧ workers p !! w = Some (Sending job result)
              ∧ ResultChan job = c).
Proof.
  destruct p as [[mp qp rp] wp cp sp].
  destruct e as [x tc vis|k|w|w wld|w|w|c'|id]; simpl.
  - intros [= <-]. simpl. intros Hc Hin. left.
    apply lookup_insert_Some in Hc as [[_ <-]|[_ Hc]].
    + by apply elem_of_nil in Hin.
    + by exists ch.
  - unfold ExecuteTestCaseWithOptions_send. simpl.
    destruct (sp !! k) as [job|]; [|done].
    destruct (chan_send qp job) as [queue|]; [|done].
    intros [= <-]. simpl. intros Hc Hin. left. by exists ch.
  - unfold worker_receive. simpl.
    destruct (wp !! w) as [[]|]; try done.
    destruct (chan_recv qp) as [[job queue]|]; [|done].
    intros [= <-]. simpl. intros Hc Hin. left. by exists ch.
  - unfold worker_execute. simpl.
    destruct (wp !! w) as [[]|]; try done.
    intros [= <-]. simpl. intros Hc Hin. left. by exists ch.
  - unfold worker_complete. simpl.
    destruct (wp !! w) as [[]|]; try done.
    intros [= <-]. simpl. intros Hc Hin. left. by exists ch.
  - unfold worker_send. simpl.
    destruct (wp !! w) as [[| | |job result0]|] eqn:Hw; try done.
    destruct (cp !! ResultChan job) as [ch0|] eqn:Hch0; [|done].
    destruct (chan_send ch0 result0) as [ch'|] eqn:Hsend; [|done].
    apply chan_send_Some in Hsend as [_ ->].
    intros [= <-]. simpl. intros Hc Hin.
    apply lookup_insert_Some in Hc as [[<- <-]|[_ Hc]].
    + simpl in Hin. apply elem_of_app in Hin as [Hin|Hin].
      * left. by exists ch0.
      * apply list_elem_of_singleton in Hin as ->. right. by exists w, job.
    + left. by exists ch.
  - unfold receive_result. simpl.
    destruct (cp !! c') as [ch0|] eqn:Hch0; [|done].
    destruct (chan_recv ch0) as [[result0 ch']|] eqn:Hrecv; [|done]. simpl.
    apply chan_recv_Some in Hrecv as [Hbuf _].
    intros [= <-]. simpl. intros Hc Hin. left.
    apply lookup_insert_Some in Hc as [[<- <-]|[_ Hc]].
    + exists ch0. split; [done|]. rewrite Hbuf. by right.
    + by exists ch.
  - intros [= <-]. simpl. intros Hc Hin. left. by exists ch.
Qed.

Lemma step_workers_result (p p' : Pool) (e : @Event W) w job result :
  step p e = Some p' →
  workers p' !! w = Some (Completing job result)
  ∨ workers p' !! w = Some (Sending job result) →
  (workers p !! w = Some (Completing job result)
   ∨ workers p !! w = Some (Sending job result))
  ∨ ∃ wld, result = resultOf job wld.
Proof.
  destruct p as [[mp qp rp] wp cp sp].
  destruct e as [x tc vis|k|w'|w' wld|w'|w'|c'|id]; simpl.
  - intros [= <-]. simpl. by left.
  - unfold ExecuteTestCaseWithOptions_send. simpl.
    destruct (sp !! k) as [job'|]; [|done].
    destruct (chan_send qp job') as [queue|]; [|done].
    intros [= <-]. simpl. by left.
  - unfold worker_receive. simpl.
    destruct (wp !! w') as [[]|]; try done.
    destruct (chan_recv qp) as [[job' queue]|]; [|done].
    intros [= <-]. simpl. intros Hw. left.
    destruct Hw as [Hw|Hw];
      apply list_lookup_insert_Some in Hw as [(_ & ? & _)|[_ Hw]];
      try done; auto.
  - unfold worker_execute. simpl.
    destruct (wp !! w') as [[|job'| |]|]; try done.
    intros [= <-]. simpl. intros Hw.
    destruct Hw as [Hw|Hw];
      apply list_lookup_insert_Some in Hw as [(_ & Heq & _)|[_ Hw]];
      try done; auto.
    injection Heq as <- <-. right. by exists wld.
  - unfold worker_complete. simpl.
    destruct (wp !! w') as [[| |job' result'|]|] eqn:Hw'; try done.
    intros [= <-]. simpl. intros Hw. left.
    destruct Hw as [Hw|Hw];
      apply list_lookup_insert_Some in Hw as [(<- & Heq & _)|[_ Hw]];
      try done; auto.
    injection Heq as <- <-. by left.
  - unfold worker_send. simpl.
    destruct (wp !! w') as [[| | |job' result']|]; try done.
    destruct (cp !! ResultChan job') as [ch0|]; [|done].
    destruct (chan_send ch0 result') as [ch'|]; [|done].
    intros [= <-]. simpl. intros Hw. left.
    destruct Hw as [Hw|Hw];
      apply list_lookup_insert_Some in Hw as [(_ & ? & _)|[_ Hw]];
      try done; auto.
  - unfold receive_result. simpl.
    destruct (cp !! c') as [ch0|]; [|done].
    destruct (chan_recv ch0) as [[result0 ch']|]; [|done]. simpl.
    intros [= <-]. simpl. by left.
  - intros [= <-]. simpl. by left.
Qed.

Lemma step_dom_resultChans (p p' : Pool) (e : @Event W) :
  step p e = Some p' →
  dom (resultChans p) ⊆ dom (resultChans p').
Proof.
  destruct p as [[mp qp rp] wp cp sp].
  destruct e as [x tc vis|k|w|w wld|w|w|c|id]; simpl.
  - intros [= <-]. simpl. rewrite dom_insert. set_solver.
  - unfold ExecuteTestCaseWithOptions_send. simpl.
    destruct (sp !! k) as [job|]; [|done].
    destruct (chan_send qp job) as [queue|]; [|done].
    by intros [= <-].
  - unfold worker_receive. simpl.
    destruct (wp !! w) as [[]|]; try done.
    destruct (chan_recv qp) as [[job queue]|]; [|done].
    by intros [= <-].
  - unfold worker_execute. simpl.
    destruct (wp !! w) as [[]|]; try done. by intros [= <-].
  - unfold worker_complete. simpl.
    destruct (wp !! w) as [[]|]; try done. by intros [= <-].
  - unfold worker_send. simpl.
    destruct (wp !! w) as [[]|]; try done.
    destruct (cp !! ResultChan job) as [ch0|]; [|done].
    destruct (chan_send ch0 result) as [ch'|]; [|done].
    intros [= <-]. simpl. rewrite dom_insert. set_solver.
  - unfold receive_result. simpl.
    destruct (cp !! c) as [ch0|]; [|done].
    destruct (chan_recv ch0) as [[result0 ch']|]; [|done]. simpl.
    intros [= <-]. simpl. rewrite dom_insert. set_solver.
  - by intros [= <-].
Qed.

Lemma submitted_one (p p' : Pool) (e : @Event W) :
  step p e = Some p' →
  submitted p [e]
  = match e with
    | EvRegister execution testCase isVisual =>
        [snd (ExecuteTestCaseWithOptions_register p execution testCase
                isVisual)]
    | _ => []
    end.
Proof. intros Hstep. cbn [submitted]. rewrite Hstep. apply app_nil_r. Qed.

Lemma submitted_cons (p p' : Pool) (e : @Event W) es :
  step p e = Some p' →
  submitted p (e :: es) = submitted p [e] ++ submitted p' es.
Proof.
  intros Hstep. cbn [submitted]. rewrite Hstep. by rewrite app_nil_r.
Qed.

Lemma step_accounted (js : list ExecutionJob) (p p' : Pool) (e : @Event W) :
  step p e = Some p' →
  accounted js p → accounted (js ++ submitted p [e]) p'.
Proof.
  intros Hstep (Hnd & Hdom & Hin & Hres & Hch).
  pose proof (step_poolJobs p p' e Hstep) as Hjobs.
  pose proof (step_dom_resultChans p p' e Hstep) as Hsub.
  rewrite (submitted_one p p' e Hstep).
  assert (Hres' : ∀ w job result,
            workers p' !! w = Some (Completing job result)
            ∨ workers p' !! w = Some (Sending job result) →
            ∃ wld, result = resultOf job wld).
  { intros w job result Hw.
    destruct (step_workers_result p p' e w job result Hstep Hw) as [Hold|Hnew];
      [by eapply Hres|done]. }
  assert (Hch' : ∀ js' : list ExecutionJob,
            (∀ job, job ∈ js → job ∈ js') →
            ∀ c ch result,
              resultChans p' !! c = Some ch → result ∈ buf ch →
              ∃ job wld, job ∈ js' ∧ ResultChan job = c
                         ∧ result = resultOf job wld).
  { intros js' Hjs' c ch result Hc Hr.
    destruct (step_resultChans p p' e c ch result Hstep Hc Hr)
      as [(ch0 & Hc0 & Hr0)|(w & job & -> & Hw & <-)].
    - destruct (Hch c ch0 result Hc0 Hr0) as (job & wld & Hj & <- & ->).
      exists job, wld. split_and!; try done. by apply Hjs'.
    - destruct (Hres w job result (or_intror Hw)) as [wld ->].
      exists job, wld. split_and!; try done. apply Hjs', Hin.
      apply elem_of_poolJobs. right. right. by exists w, (Sending job
        (resultOf job wld)). }
  destruct e as [x tc vis|k|w|w wld|w|w|c|id];
    try (rewrite app_nil_r; split_and!; try done;
         [ intros job Hj; by apply Hsub, Hdom
         | intros job Hj; apply Hin; by rewrite <- Hjobs
         | by apply Hch' ]).
  - assert (Hfresh : ResultChan
                       (snd (ExecuteTestCaseWithOptions_register p x tc vis))
                     ∉ dom (resultChans p)).
    { simpl. apply is_fresh. }
    assert (Hdom' : ResultChan
                      (snd (ExecuteTestCaseWithOptions_register p x tc vis))
                    ∈ dom (resultChans p')).
    { simpl in Hstep. injection Hstep as <-. simpl. rewrite dom_insert.
      set_solver. }
    remember (snd (ExecuteTestCaseWithOptions_register p x tc vis)) as job
      eqn:Hjob.
    clear Hjob. split_and!; try done.
    + rewrite fmap_app. apply NoDup_app. split; [done|]. split.
      * intros c Hc Hc'. simpl in Hc'.
        apply list_elem_of_singleton in Hc'.
        apply list_elem_of_fmap in Hc as (job' & Heq & Hj').
        apply Hfresh. rewrite <- Hc', Heq. by apply Hdom.
      * simpl. apply NoDup_singleton.
    + intros job' Hj'. apply elem_of_app in Hj' as [Hj'|Hj'].
      * by apply Hsub, Hdom.
      * by apply list_elem_of_singleton in Hj' as ->.
    + intros job' Hj'. rewrite Hjobs in Hj'.
      apply elem_of_cons in Hj' as [->|Hj']; apply elem_of_app.
      * right. by left.
      * left. by apply Hin.
    + apply Hch'. intros job' Hj'. apply elem_of_app. by left.
  - rewrite app_nil_r. split_and!; try done.
    + intros job Hj. by apply Hsub, Hdom.
    + intros job Hj. apply Hin.
      destruct Hjobs as (job' & result & _ & Hperm). rewrite Hperm.
      by right.
    + by apply Hch'.
Qed.

Lemma run_accounted (es : list (@Event W)) :
  ∀ (js : list ExecutionJob) (p p' : Pool),
    run p es = Some p' →
    accounted js p → accounted (js ++ submitted p es) p'.
Proof.
  induction es as [|e es IH]; intros js p p'; cbn [run].
  - intros [= <-]. simpl. by rewrite app_nil_r.
  - destruct (step p e) as [p1|] eqn:Hstep; [|done]. intros Hrun Hacc.
    rewrite (submitted_cons p p1 e es Hstep), app_assoc.
    apply (IH _ p1 p' Hrun). by apply step_accounted.
Qed.

Lemma InitExecutor_poolJobs (n : Z) (p0 : Pool) :
  InitExecutor n = Some p0 →
  poolJobs p0 = [] ∧ resultChans p0 = ∅
  ∧ running (GlobalExecutor p0) = ∅.
Proof.
  unfold InitExecutor, make_chan.
  destruct (wrap_int (n * 2) <? 0); [done|].
  destruct (makechan_max <? wrap_int (n * 2)); [done|]. intros [= <-].
  unfold poolJobs. simpl. by rewrite omap_replicate_None.
Qed.

(** X17.  Results are not mixed up between callers.  In any pool reached
    from [InitExecutor], a result received on a result channel is the result
    of replaying, in some world, the test case of a job submitted on the
    trace, with its display option; that job is the one the channel was made
    for, and no other submitted job has the channel. *)
Theorem result_belongs_to_its_job
    (maxWorkers : Z) (p0 p p' : Pool) (es : list (@Event W))
    (c : nat) (result : ExecutionResult) :
  InitExecutor maxWorkers = Some p0 →
  run p0 es = Some p →
  receive_result p c = Some (result, p') →
  ∃ job wld,
    job ∈ submitted p0 es
    ∧ ResultChan job = c
    ∧ result = fst (executeTestCase (TestCase_ job) (IsVisual job) wld)
    ∧ ∀ job', job' ∈ submitted p0 es → ResultChan job' = c → job' = job.
Proof.
  intros Hinit Hrun Hrecv.
  destruct (InitExecutor_poolJobs _ _ Hinit) as (Hjobs0 & Hch0 & _).
  assert (Hacc0 : accounted [] p0).
  { unfold accounted. rewrite Hjobs0, Hch0. split_and!.
    - constructor.
    - intros job Hj. by apply elem_of_nil in Hj.
    - done.
    - intros w job result0 Hw. exfalso.
      assert (Hj : job ∈ poolJobs p0).
      { apply elem_of_poolJobs. right. right.
        destruct Hw as [Hw|Hw]; eexists w, _; split; try exact Hw; done. }
      rewrite Hjobs0 in Hj. by apply elem_of_nil in Hj.
    - intros c0 ch r0 Hc. by rewrite lookup_empty in Hc. }
  pose proof (run_accounted es [] p0 p Hrun Hacc0) as Hacc.
  simpl in Hacc. destruct Hacc as (Hnd & _ & _ & _ & Hch).
  unfold receive_result in Hrecv.
  destruct (resultChans p !! c) as [ch|] eqn:Hc; [|done].
  destruct (chan_recv ch) as [[r ch']|] eqn:Hr; [|done].
  injection Hrecv as -> <-.
  apply chan_recv_Some in Hr as [Hbuf _].
  destruct (Hch c ch result Hc) as (job & wld & Hj & Hcj & Hres).
  { rewrite Hbuf. by left. }
  exists job, wld. split_and!; try done.
  intros job' Hj' Hcj'.
  apply list_elem_of_lookup in Hj as [i Hi].
  apply list_elem_of_lookup in Hj' as [i' Hi'].
  assert (i' = i) as ->; [|congruence].
  eapply NoDup_lookup; [exact Hnd| |].
  - rewrite list_lookup_fmap, Hi'. simpl. reflexivity.
  - rewrite list_lookup_fmap, Hi. simpl. congruence.
Qed.

(** ** The send of a result *)

Lemma step_resultChans_cases (p p' : Pool) (e : @Event W) :
  step p e = Some p' →
  match e with
  | EvRegister _ _ _ =>
      resultChans p'
      = <[fresh (dom (resultChans p)) := {| cap := 1; buf := [] |}]>
          (resultChans p)
  | EvPublish w =>
      ∃ job result ch,
        workers p !! w = Some (Sending job result)
        ∧ resultChans p !! ResultChan job = Some ch
        ∧ resultChans p'
          = <[ResultChan job := {| cap := cap ch; buf := buf ch ++ [result] |}]>
              (resultChans p)
        ∧ Z.of_nat (length (buf ch)) < cap ch
  | EvResult c =>
      ∃ ch result ch',
        resultChans p !! c = Some ch
        ∧ buf ch = result :: buf ch' ∧ cap ch' = cap ch
        ∧ resultChans p' = <[c := ch']> (resultChans p)
  | _ => resultChans p' = resultChans p
  end.
Proof.
  destruct p as [[mp qp rp] wp cp sp].
  destruct e as [x tc vis|k|w|w wld|w|w|c|id]; simpl.
  - by intros [= <-].
  - unfold ExecuteTestCaseWithOptions_send. simpl.
    destruct (sp !! k) as [job|]; [|done].
    destruct (chan_send qp job) as [queue|]; [|done].
    by intros [= <-].
  - unfold worker_receive. simpl.
    destruct (wp !! w) as [[]|]; try done.
    destruct (chan_recv qp) as [[job queue]|]; [|done].
    by intros [= <-].
  - unfold worker_execute. simpl.
    destruct (wp !! w) as [[]|]; try done. by intros [= <-].
  - unfold worker_complete. simpl.
    destruct (wp !! w) as [[]|]; try done. by intros [= <-].
  - unfold worker_send. simpl.
    destruct (wp !! w) as [[| | |job result]|]; try done.
    destruct (cp !! ResultChan job) as [ch0|] eqn:Hch0; [|done].
    destruct (chan_send ch0 result) as [ch'|] eqn:Hsend; [|done].
    apply chan_send_Some in Hsend as [Hlt ->].
    intros [= <-]. simpl. exists job, result, ch0. by rewrite Hch0.
  - unfold receive_result. simpl.
    destruct (cp !! c) as [ch0|]; [|done].
    destruct (chan_recv ch0) as [[result0 ch']|] eqn:Hrecv; [|done]. simpl.
    apply chan_recv_Some in Hrecv as [Hbuf Hcap].
    intros [= <-]. simpl. by exists ch0, result0, ch'.
  - by intros [= <-].
Qed.

Lemma step_tidy (p p' : Pool) (e : @Event W) :
  step p e = Some p' → tidy p → tidy p'.
Proof.
  intros Hstep (Hnd & Hempty & Hcap).
  pose proof (step_poolJobs p p' e Hstep) as Hjobs.
  pose proof (step_resultChans_cases p p' e Hstep) as Hchans.
  unfold tidy.
  destruct e as [x tc vis|k|w|w wld|w|w|c|id];
    try (rewrite Hchans; split_and!;
         [ by rewrite Hjobs
         | intros job Hj; apply Hempty; by rewrite <- Hjobs
         | done ]).
  - assert (Hfresh : ∀ job, job ∈ poolJobs p →
              ResultChan job ≠ fresh (dom (resultChans p))).
    { intros job Hj Heq. apply (is_fresh (dom (resultChans p))).
      rewrite <- Heq. apply elem_of_dom. rewrite (Hempty job Hj). by eexists. }
    split_and!.
    + rewrite Hjobs, fmap_cons. apply NoDup_cons. split; [|done].
      simpl. intros Hc. apply list_elem_of_fmap in Hc as (job & Heq & Hj).
      by apply (Hfresh job Hj).
    + intros job Hj. rewrite Hjobs in Hj. rewrite Hchans.
      apply elem_of_cons in Hj as [->|Hj].
      * simpl. apply lookup_insert_eq.
      * rewrite lookup_insert_ne by (symmetry; by apply Hfresh).
        by apply Hempty.
    + intros c ch. rewrite Hchans.
      intros [[_ <-]|[_ Hc]]%lookup_insert_Some; [simpl; lia|].
      by eapply Hcap.
  - destruct Hjobs as (job & result & Hw & Hperm).
    destruct Hchans as (job' & result' & ch & Hw' & Hch & Hchans & Hlt).
    rewrite Hw in Hw'. injection Hw' as <- <-.
    rewrite Hperm, fmap_cons in Hnd. apply NoDup_cons in Hnd as [Hnotin Hnd].
    assert (Hjob : job ∈ poolJobs p) by (rewrite Hperm; by left).
    rewrite (Hempty job Hjob) in Hch. injection Hch as <-.
    split_and!; [done| |].
    + intros job' Hj'. rewrite Hchans.
      rewrite lookup_insert_ne.
      * apply Hempty. rewrite Hperm. by right.
      * intros Heq. apply Hnotin. rewrite Heq.
        apply list_elem_of_fmap. by exists job'.
    + intros c ch. rewrite Hchans.
      intros [[_ <-]|[_ Hc]]%lookup_insert_Some; [simpl; lia|].
      by eapply Hcap.
  - destruct Hchans as (ch & result & ch' & Hch & Hbuf & Hcap' & Hchans).
    split_and!; [by rewrite Hjobs| |].
    + intros job Hj. rewrite Hjobs in Hj. rewrite Hchans.
      rewrite lookup_insert_ne; [by apply Hempty|].
      intros Heq. rewrite Heq, (Hempty job Hj) in Hch. injection Hch as <-.
      done.
    + intros c' ch''. rewrite Hchans.
      intros [[_ <-]|[_ Hc]]%lookup_insert_Some; [|by eapply Hcap].
      destruct (Hcap c ch Hch) as [Hc1 Hlen]. rewrite Hbuf in Hlen.
      simpl in Hlen. split; [congruence|lia].
Qed.

Lemma run_tidy (es : list (@Event W)) :
  ∀ p p' : Pool, run p es = Some p' → tidy p → tidy p'.
Proof.
  induction es as [|e es IH]; intros p p'; cbn [run].
  - by intros [= <-].
  - destruct (step p e) as [p1|] eqn:Hstep; [|done]. intros Hrun Htidy.
    apply (IH p1 p' Hrun). by eapply step_tidy.
Qed.

Lemma InitExecutor_tidy (n : Z) (p0 : Pool) :
  InitExecutor n = Some p0 → tidy p0.
Proof.
  intros Hinit.
  destruct (InitExecutor_poolJobs _ _ Hinit) as (Hjobs0 & Hch0 & _).
  unfold tidy. rewrite Hjobs0, Hch0. split_and!.
  - constructor.
  - intros job Hj. by apply elem_of_nil in Hj.
  - intros c ch Hc. by rewrite lookup_empty in Hc.
Qed.

(** X18.  A worker never waits at the send of a result.  In any pool
    reached from [InitExecutor], the result channel of the job a worker
    stands to publish is empty, so the send goes through at once, whether or
    not the caller is receiving, and the worker is back at the queue; the
    channel then holds that one result, which is what the caller receives.
    No result channel ever holds more than one result. *)
Theorem publish_never_blocks
    (maxWorkers : Z) (p0 p : Pool) (es : list (@Event W))
    (w : nat) (job : ExecutionJob) (result : ExecutionResult) :
  InitExecutor maxWorkers = Some p0 →
  run p0 es = Some p →
  workers p !! w = Some (Sending job result) →
  (∃ p',
     step p (EvPublish w) = Some p'
     ∧ workers p' = <[w := Receiving]> (workers p)
     ∧ resultChans p'
       = <[ResultChan job := {| cap := 1; buf := [result] |}]> (resultChans p)
     ∧ fst <$> receive_result p' (ResultChan job) = Some result)
  ∧ ∀ c ch, resultChans p !! c = Some ch → (length (buf ch) ≤ 1)%nat.
Proof.
  intros Hinit Hrun Hw.
  pose proof (run_tidy es p0 p Hrun (InitExecutor_tidy _ _ Hinit))
    as (_ & Hempty & Hcap).
  split; [|intros c ch Hc; by destruct (Hcap c ch Hc)].
  assert (Hjob : job ∈ poolJobs p).
  { apply elem_of_poolJobs. right. right. by exists w, (Sending job result). }
  specialize (Hempty job Hjob).
  simpl. unfold worker_send. rewrite Hw, Hempty. simpl.
  eexists. split; [reflexivity|]. simpl. split_and!; try done.
  unfold receive_result. simpl. by rewrite lookup_insert_eq.
Qed.

(** ** The ids marked as running *)

(** What each step does to the callers, the queue, the workers and the ids
    marked as running. *)
Lemma step_effect (p p' : Pool) (e : @Event W) :
  step p e = Some p' →
  let te := GlobalExecutor p in
  let te' := GlobalExecutor p' in
  match e with
  | EvRegister x tc vis =>
      ∃ job, jobID job = ID x
             ∧ senders p' = senders p ++ [job]
             ∧ buf (workQueue te') = buf (workQueue te)
             ∧ workers p' = workers p
             ∧ running te' = <[ID x := true]> (running te)
  | EvEnqueue k =>
      ∃ job, senders p !! k = Some job
             ∧ senders p' = delete k (senders p)
             ∧ buf (workQueue te') = buf (workQueue te) ++ [job]
             ∧ workers p' = workers p
             ∧ running te' = running te
  | EvDequeue w =>
      ∃ job, workers p !! w = Some Receiving
             ∧ buf (workQueue te) = job :: buf (workQueue te')
             ∧ workers p' = <[w := Executing job]> (workers p)
             ∧ senders p' = senders p
             ∧ running te' = running te
  | EvExecute w wld =>
      ∃ job, workers p !! w = Some (Executing job)
             ∧ workers p' = <[w := Completing job (resultOf job wld)]> (workers p)
             ∧ senders p' = senders p
             ∧ buf (workQueue te') = buf (workQueue te)
             ∧ running te' = running te
  | EvComplete w =>
      ∃ job result,
        workers p !! w = Some (Completing job result)
        ∧ workers p' = <[w := Sending job result]> (workers p)
        ∧ senders p' = senders p
        ∧ buf (workQueue te') = buf (workQueue te)
        ∧ running te' = delete (jobID job) (running te)
  | EvPublish w =>
      ∃ job result,
        workers p !! w = Some (Sending job result)
        ∧ workers p' = <[w := Receiving]> (workers p)
        ∧ senders p' = senders p
        ∧ buf (workQueue te') = buf (workQueue te)
        ∧ running te' = running te
  | EvResult c =>
      workers p' = workers p
      ∧ senders p' = senders p
      ∧ buf (workQueue te') = buf (workQueue te)
      ∧ running te' = running te
  | EvCancel id =>
      workers p' = workers p
      ∧ senders p' = senders p
      ∧ buf (workQueue te') = buf (workQueue te)
      ∧ (running te' = running te ∨ running te' = delete id (running te))
  end.
Proof.
  destruct p as [[mp qp rp] wp cp sp].
  destruct e as [x tc vis|k|w|w wld|w|w|c|id]; simpl.
  - intros [= <-]. simpl. eexists.
    split; [|split; [reflexivity|done]]. done.
  - unfold ExecuteTestCaseWithOptions_send. simpl.
    destruct (sp !! k) as [job|]; [|done].
    destruct (chan_send qp job) as [queue|] eqn:Hsend; [|done].
    apply chan_send_Some in Hsend as [_ ->].
    intros [= <-]. simpl. by exists job.
  - unfold worker_receive. simpl.
    destruct (wp !! w) as [[]|]; try done.
    destruct (chan_recv qp) as [[job queue]|] eqn:Hrecv; [|done].
    apply chan_recv_Some in Hrecv as [Hbuf _].
    intros [= <-]. simpl. by exists job.
  - unfold worker_execute. simpl.
    destruct (wp !! w) as [[|job| |]|]; try done.
    intros [= <-]. simpl. by exists job.
  - unfold worker_complete. simpl.
    destruct (wp !! w) as [[| |job result|]|]; try done.
    intros [= <-]. simpl. by exists job, result.
  - unfold worker_send. simpl.
    destruct (wp !! w) as [[| | |job result]|]; try done.
    destruct (cp !! ResultChan job) as [ch0|]; [|done].
    destruct (chan_send ch0 result) as [ch'|]; [|done].
    intros [= <-]. simpl. by exists job, result.
  - unfold receive_result. simpl.
    destruct (cp !! c) as [ch0|]; [|done].
    destruct (chan_recv ch0) as [[result0 ch']|]; [|done]. simpl.
    by intros [= <-].
  - intros [= <-]. unfold CancelExecution. simpl.
    destruct (default false (rp !! id)); simpl; split_and!; auto.
Qed.

Lemma step_distinctIDs (h : list N) (p p' : Pool) (e : @Event W) :
  step p e = Some p' →
  NoDup (h ++ registered [e]) →
  distinctIDs h p → distinctIDs (h ++ registered [e]) p'.
Proof.
  intros Hstep Hnd [Hids Hin].
  pose proof (step_poolJobs p p' e Hstep) as Hjobs.
  unfold distinctIDs.
  destruct e as [x tc vis|k|w|w wld|w|w|c|id]; cbn [registered] in *;
    try (rewrite app_nil_r; split;
         [ by rewrite Hjobs
         | intros job Hj; apply Hin; by rewrite <- Hjobs ]).
  - apply NoDup_app in Hnd as (_ & Hfresh & _).
    assert (Hx : ID x ∉ h).
    { intros Hx. apply (Hfresh _ Hx). by left. }
    split.
    + rewrite Hjobs, fmap_cons. apply NoDup_cons. split; [|done].
      simpl. intros Hc. apply list_elem_of_fmap in Hc as (job & Heq & Hj).
      apply Hx. unfold jobID in Heq at 1. simpl in Heq. rewrite Heq.
      by apply Hin.
    + intros job Hj. rewrite Hjobs in Hj. apply elem_of_app.
      apply elem_of_cons in Hj as [->|Hj]; [right; by left|left; by apply Hin].
  - destruct Hjobs as (job & result & _ & Hperm). rewrite app_nil_r.
    rewrite Hperm, fmap_cons in Hids. apply NoDup_cons in Hids as [_ Hids].
    split; [done|]. intros job' Hj'. apply Hin. rewrite Hperm. by right.
Qed.

(** The id of the job a worker holds is the id of no other job of the
    pool. *)
Lemma worker_job_alone (h : list N) (p : Pool) w st job :
  distinctIDs h p →
  workers p !! w = Some st → workerJob st = Some job →
  (∀ job', job' ∈ senders p ++ buf (workQueue (GlobalExecutor p)) →
     jobID job' ≠ jobID job)
  ∧ (∀ w' st' job', w' ≠ w → workers p !! w' = Some st' →
       workerJob st' = Some job' → jobID job' ≠ jobID job).
Proof.
  intros [Hids _] Hw Hjob.
  pose proof (omap_insert_Permutation workerJob (workers p) w st Receiving Hw)
    as Hperm.
  rewrite Hjob in Hperm. simpl in Hperm.
  unfold poolJobs in Hids. rewrite <- Hperm in Hids.
  rewrite !app_assoc, fmap_app in Hids. simpl in Hids.
  apply NoDup_app in Hids as (_ & Hfresh & _).
  split.
  - intros job' Hj' Heq. apply (Hfresh (jobID job')).
    + apply list_elem_of_fmap. exists job'. split; [done|].
      apply elem_of_app. by left.
    + rewrite Heq. by left.
  - intros w' st' job' Hne Hw' Hjob' Heq. apply (Hfresh (jobID job')).
    + apply list_elem_of_fmap. exists job'. split; [done|].
      apply elem_of_app. right. apply list_elem_of_omap. exists st'.
      split; [|done]. apply list_elem_of_lookup. exists w'.
      by rewrite list_lookup_insert_ne.
    + rewrite Heq. by left.
Qed.

Lemma step_marked (h : list N) (id : N) (p p' : Pool) (e : @Event W) :
  step p e = Some p' →
  e ≠ EvCancel id →
  distinctIDs h p →
  marked id p → marked id p'.
Proof.
  intros Hstep Hne Hdist (Hwait & Hexec & Hcompl).
  pose proof (step_effect p p' e Hstep) as Heff. cbv zeta in Heff.
  unfold marked.
  destruct e as [x tc vis|k|w|w wld|w|w|c|id'].
  - destruct Heff as (job & Hid & -> & -> & -> & ->).
    assert (Hkeep : running (GlobalExecutor p) !! id = Some true →
                    <[ID x := true]> (running (GlobalExecutor p)) !! id
                    = Some true).
    { intros Hr. destruct (decide (ID x = id)) as [->|Hx].
      - apply lookup_insert_eq.
      - by rewrite lookup_insert_ne. }
    split_and!.
    + intros job' Hj' Hid'. rewrite <- app_assoc in Hj'.
      apply elem_of_app in Hj' as [Hj'|Hj'].
      * apply Hkeep, (Hwait job'); [|done]. apply elem_of_app. by left.
      * apply elem_of_app in Hj' as [Hj'|Hj'].
        -- apply list_elem_of_singleton in Hj' as ->.
           rewrite <- Hid', Hid. apply lookup_insert_eq.
        -- apply Hkeep, (Hwait job'); [|done]. apply elem_of_app. by right.
    + intros w job' Hw Hid'. by eapply Hkeep, Hexec.
    + intros w job' result Hw Hid'. by eapply Hkeep, Hcompl.
  - destruct Heff as (job & Hk & -> & -> & -> & ->).
    split_and!; [|done|done].
    intros job' Hj' Hid'. apply (Hwait job'); [|done].
    rewrite (delete_Permutation _ _ _ Hk).
    rewrite !elem_of_app, list_elem_of_singleton in Hj'.
    rewrite elem_of_app, elem_of_cons.
    destruct Hj' as [?|[?|?]]; auto.
  - destruct Heff as (job & Hw & Hbuf & -> & -> & ->).
    split_and!.
    + intros job' Hj' Hid'. apply (Hwait job'); [|done].
      rewrite Hbuf. apply elem_of_app in Hj' as [Hj'|Hj'];
        apply elem_of_app; [by left|right; by right].
    + intros w' job' Hw' Hid'.
      apply list_lookup_insert_Some in Hw' as [(<- & Heq & _)|[_ Hw']].
      * injection Heq as <-. apply (Hwait job); [|done].
        rewrite Hbuf. apply elem_of_app. right. by left.
      * by eapply Hexec.
    + intros w' job' result Hw' Hid'.
      apply list_lookup_insert_Some in Hw' as [(_ & Heq & _)|[_ Hw']];
        [done|]. by eapply Hcompl.
  - destruct Heff as (job & Hw & -> & -> & -> & ->).
    split_and!; [done| |].
    + intros w' job' Hw' Hid'.
      apply list_lookup_insert_Some in Hw' as [(_ & Heq & _)|[_ Hw']];
        [done|]. by eapply Hexec.
    + intros w' job' result Hw' Hid'.
      apply list_lookup_insert_Some in Hw' as [(<- & Heq & _)|[_ Hw']].
      * injection Heq as <- _. by eapply Hexec.
      * by eapply Hcompl.
  - destruct Heff as (job & result & Hw & -> & -> & -> & ->).
    destruct (worker_job_alone h p w (Completing job result) job Hdist Hw
                eq_refl) as [Hothers Hworkers].
    split_and!.
    + intros job' Hj' Hid'. rewrite lookup_delete_ne.
      * by apply (Hwait job').
      * rewrite <- Hid'. intros Heq. by apply (Hothers job' Hj').
    + intros w' job' Hw' Hid'.
      apply list_lookup_insert_Some in Hw' as [(_ & Heq & _)|[Hne' Hw']];
        [done|].
      rewrite lookup_delete_ne; [by eapply Hexec|].
      rewrite <- Hid'. intros Heq.
      by apply (Hworkers w' (Executing job') job' (not_eq_sym Hne') Hw' eq_refl).
    + intros w' job' result' Hw' Hid'.
      apply list_lookup_insert_Some in Hw' as [(_ & Heq & _)|[Hne' Hw']];
        [done|].
      rewrite lookup_delete_ne; [by eapply Hcompl|].
      rewrite <- Hid'. intros Heq.
      by apply (Hworkers w' (Completing job' result') job' (not_eq_sym Hne')
                  Hw' eq_refl).
  - destruct Heff as (job & result & Hw & -> & -> & -> & ->).
    split_and!; [done| |].
    + intros w' job' Hw' Hid'.
      apply list_lookup_insert_Some in Hw' as [(_ & Heq & _)|[_ Hw']];
        [done|]. by eapply Hexec.
    + intros w' job' result' Hw' Hid'.
      apply list_lookup_insert_Some in Hw' as [(_ & Heq & _)|[_ Hw']];
        [done|]. by eapply Hcompl.
  - destruct Heff as (-> & -> & -> & ->). done.
  - destruct Heff as (-> & -> & -> & Hrun).
    assert (Hid : id' ≠ id) by congruence.
    assert (Hsame : running (GlobalExecutor p') !! id
                    = running (GlobalExecutor p) !! id).
    { destruct Hrun as [->| ->]; [done|]. by rewrite lookup_delete_ne. }
    rewrite Hsame. done.
Qed.

Lemma run_marked (es : list (@Event W)) :
  ∀ (h : list N) (id : N) (p p' : Pool),
    run p es = Some p' →
    NoDup (h ++ registered es) →
    EvCancel id ∉ es →
    distinctIDs h p → marked id p →
    distinctIDs (h ++ registered es) p' ∧ marked id p'.
Proof.
  induction es as [|e es IH]; intros h id p p'; cbn [run].
  - intros [= <-]. simpl. by rewrite app_nil_r.
  - destruct (step p e) as [p1|] eqn:Hstep; [|done].
    intros Hrun Hnd Hcancel Hdist Hmarked.
    change (e :: es) with ([e] ++ es) in Hnd |- *.
    rewrite registered_app, app_assoc in Hnd |- *.
    assert (Hnd1 : NoDup (h ++ registered [e])).
    { apply NoDup_app in Hnd as (Hnd & _). done. }
    apply (IH _ id p1 p' Hrun Hnd).
    + intros Hin. apply Hcancel. by right.
    + by apply (step_distinctIDs h p p1 e).
    + apply (step_marked h id p p1 e); try done.
      intros ->. apply Hcancel. by left.
Qed.

(** X19.  An execution registered once and not cancelled is reported as
    running for as long as its job waits with its caller or in the queue, or
    is held by a worker that has not yet completed it. *)
Theorem running_while_in_the_pool
    (maxWorkers : Z) (p0 p : Pool) (es : list (@Event W))
    (job : ExecutionJob) :
  InitExecutor maxWorkers = Some p0 →
  run p0 es = Some p →
  NoDup (registered es) →
  EvCancel (ID (Execution job)) ∉ es →
  job ∈ senders p ++ buf (workQueue (GlobalExecutor p))
  ∨ (∃ w, workers p !! w = Some (Executing job))
  ∨ (∃ w result, workers p !! w = Some (Completing job result)) →
  IsRunning (GlobalExecutor p) (ID (Execution job)) = true
  ∧ GetExecutionStatus (GlobalExecutor p) (ID (Execution job)) = "running".
Proof.
  intros Hinit Hrun Hnd Hcancel Hplace.
  destruct (InitExecutor_poolJobs _ _ Hinit) as (Hjobs0 & _ & Hrun0).
  assert (Hdist0 : distinctIDs [] p0).
  { unfold distinctIDs. rewrite Hjobs0. split; [constructor|].
    intros j Hj. by apply elem_of_nil in Hj. }
  assert (Hmarked0 : marked (ID (Execution job)) p0).
  { assert (Hnone : ∀ j, ¬ inPool p0 j).
    { intros j Hj. apply elem_of_poolJobs in Hj. rewrite Hjobs0 in Hj.
      by apply elem_of_nil in Hj. }
    unfold marked. split_and!.
    - intros j Hj. exfalso. apply (Hnone j).
      apply elem_of_app in Hj as [Hj|Hj]; [by left|right; by left].
    - intros w j Hw. exfalso. apply (Hnone j). right. right.
      by exists w, (Executing j).
    - intros w j r Hw. exfalso. apply (Hnone j). right. right.
      by exists w, (Completing j r). }
  destruct (run_marked es [] (ID (Execution job)) p0 p Hrun Hnd Hcancel
              Hdist0 Hmarked0) as [_ (Hwait & Hexec & Hcompl)].
  assert (Hr : running (GlobalExecutor p) !! ID (Execution job) = Some true).
  { destruct Hplace as [Hj|[[w Hw]|(w & result & Hw)]].
    - by apply (Hwait job).
    - by apply (Hexec w job).
    - by apply (Hcompl w job result). }
  unfold IsRunning, GetExecutionStatus. by rewrite Hr.
Qed.

(** ** A pool without workers *)

Lemma run_without_workers (es : list (@Event W)) :
  ∀ p p' : Pool,
    workers p = [] →
    workQueue (GlobalExecutor p) = {| cap := 0; buf := [] |} →
    (∀ c ch, resultChans p !! c = Some ch → buf ch = []) →
    run p es = Some p' →
    workers p' = []
    ∧ workQueue (GlobalExecutor p') = {| cap := 0; buf := [] |}
    ∧ senders p' = senders p ++ submitted p es
    ∧ (∀ c ch, resultChans p' !! c = Some ch → buf ch = []).
Proof.
  induction es as [|e es IH]; intros p p' Hw Hq Hch; cbn [run submitted].
  { intros [= <-]. by rewrite app_nil_r. }
  destruct (step p e) as [p1|] eqn:Hstep; [|done]. intros Hrun.
  assert (Hone : workers p1 = []
                 ∧ workQueue (GlobalExecutor p1) = {| cap := 0; buf := [] |}
                 ∧ senders p1
                   = senders p
                     ++ match e with
                        | EvRegister x tc vis =>
                            [snd (ExecuteTestCaseWithOptions_register p x tc
                                    vis)]
                        | _ => []
                        end
                 ∧ (∀ c ch, resultChans p1 !! c = Some ch → buf ch = [])).
  { clear IH Hrun. destruct p as [[mp qp rp] wp cp sp]. simpl in *. subst.
    destruct e as [x tc vis|k|w|w wld|w|w|c|id]; simpl in Hstep.
    - injection Hstep as <-. simpl. split_and!; try done.
      intros c ch [[_ <-]|[_ Hc]]%lookup_insert_Some; [done|].
      by eapply Hch.
    - unfold ExecuteTestCaseWithOptions_send in Hstep. simpl in Hstep.
      by destruct (sp !! k).
    - unfold worker_receive in Hstep. simpl in Hstep.
      by destruct w.
    - unfold worker_execute in Hstep. simpl in Hstep.
      by destruct w.
    - unfold worker_complete in Hstep. simpl in Hstep.
      by destruct w.
    - unfold worker_send in Hstep. simpl in Hstep.
      by destruct w.
    - unfold receive_result in Hstep. simpl in Hstep.
      destruct (cp !! c) as [ch|] eqn:Hc; [|done].
      unfold chan_recv in Hstep. by rewrite (Hch c ch Hc) in Hstep.
    - injection Hstep as <-. unfold CancelExecution. simpl.
      destruct (default false (rp !! id)); simpl;
        by rewrite app_nil_r. }
  destruct Hone as (Hw1 & Hq1 & Hs1 & Hch1).
  destruct (IH p1 p' Hw1 Hq1 Hch1 Hrun) as (Hw' & Hq' & Hs' & Hch').
  split_and!; try done. by rewrite Hs', Hs1, <- app_assoc.
Qed.

(** With no worker nothing is ever received from the queue, and no result
    is ever sent. *)
Lemma run_no_workers (es : list (@Event W)) :
  ∀ p p' : Pool,
    workers p = [] →
    (∀ c ch, resultChans p !! c = Some ch → buf ch = []) →
    run p es = Some p' →
    workers p' = []
    ∧ taken p es = []
    ∧ (∀ c ch, resultChans p' !! c = Some ch → buf ch = []).
Proof.
  induction es as [|e es IH]; intros p p' Hw Hch; cbn [run taken].
  { by intros [= <-]. }
  destruct (step p e) as [p1|] eqn:Hstep; [|done]. intros Hrun.
  assert (Hone : workers p1 = []
                 ∧ (∀ c ch, resultChans p1 !! c = Some ch → buf ch = [])
                 ∧ match e with
                   | EvDequeue w =>
                       match workers p1 !! w with
                       | Some (Executing job) => [job]
                       | _ => []
                       end
                   | _ => []
                   end = []).
  { clear IH Hrun. destruct p as [[mp qp rp] wp cp sp]. simpl in *. subst.
    destruct e as [x tc vis|k|w|w wld|w|w|c|id]; simpl in Hstep.
    - injection Hstep as <-. simpl. split_and!; try done.
      intros c ch [[_ <-]|[_ Hc]]%lookup_insert_Some; [done|].
      by eapply Hch.
    - unfold ExecuteTestCaseWithOptions_send in Hstep. simpl in Hstep.
      destruct (sp !! k) as [job|]; [|done].
      destruct (chan_send qp job) as [queue|]; [|done].
      by injection Hstep as <-.
    - unfold worker_receive in Hstep. simpl in Hstep.
      by destruct w.
    - unfold worker_execute in Hstep. simpl in Hstep.
      by destruct w.
    - unfold worker_complete in Hstep. simpl in Hstep.
      by destruct w.
    - unfold worker_send in Hstep. simpl in Hstep.
      by destruct w.
    - unfold receive_result in Hstep. simpl in Hstep.
      destruct (cp !! c) as [ch|] eqn:Hc; [|done].
      unfold chan_recv in Hstep. by rewrite (Hch c ch Hc) in Hstep.
    - injection Hstep as <-. unfold CancelExecution. simpl.
      by destruct (default false (rp !! id)). }
  destruct Hone as (Hw1 & Hch1 & Htaken1).
  destruct (IH p1 p' Hw1 Hch1 Hrun) as (Hw' & Htaken' & Hch').
  split_and!; try done. by rewrite Htaken1, Htaken'.
Qed.

(** X20.  [InitExecutor] with a [maxWorkers] that is not positive never
    gets a worker running.  From [-2^62] up to [-1] the capacity
    [maxWorkers*2] is negative and [make] panics.  Whenever [InitExecutor]
    does return, which it does for 0 and can do below [-2^62], where the
    product wraps around, the pool has no worker: whatever happens
    afterwards, no job is ever received from the queue and no result is ever
    there to receive.  For 0, and for the least [int], whose double wraps to
    0, the queue is unbuffered: no send on it completes, so every job
    submitted is still with its caller at the send. *)
Theorem InitExecutor_without_workers (maxWorkers : Z) :
  maxWorkers ≤ 0 →
  (- 2 ^ 62 ≤ maxWorkers < 0 → InitExecutor maxWorkers = None)
  ∧ (∀ p0 : Pool,
       InitExecutor maxWorkers = Some p0 →
       ∀ (es : list (@Event W)) (p : Pool),
         run p0 es = Some p →
         workers p = []
         ∧ taken p0 es = []
         ∧ ∀ c, receive_result p c = None)
  ∧ (maxWorkers = 0 ∨ maxWorkers = min_int →
     ∃ p0 : Pool,
       InitExecutor maxWorkers = Some p0
       ∧ ∀ (es : list (@Event W)) (p : Pool),
           run p0 es = Some p →
           senders p = submitted p0 es
           ∧ ∀ k, ExecuteTestCaseWithOptions_send p k = None).
Proof.
  intros Hle. split_and!.
  - intros Hrange. unfold InitExecutor, make_chan.
    rewrite wrap_int_small by (unfold min_int, max_int; lia).
    destruct (maxWorkers * 2 <? 0) eqn:Hneg; [done|lia].
  - intros p0 Hinit es p Hrun.
    assert (Hp0 : workers p0 = [] ∧ resultChans p0 = ∅).
    { unfold InitExecutor in Hinit.
      destruct (make_chan _ _) as [queue|]; [|done].
      injection Hinit as <-. simpl.
      by replace (Z.to_nat maxWorkers) with 0%nat by lia. }
    destruct Hp0 as [Hw0 Hch0].
    apply run_no_workers in Hrun as (Hw & Htaken & Hch); try done.
    + split_and!; try done. intros c. unfold receive_result.
      destruct (resultChans p !! c) as [ch|] eqn:Hc; [|done].
      unfold chan_recv. by rewrite (Hch c ch Hc).
    + intros c ch. by rewrite Hch0, lookup_empty.
  - intros Hzero. pose proof makechan_max_range as Hmax.
    assert (Hwrap : wrap_int (maxWorkers * 2) = 0).
    { destruct Hzero as [-> | ->]; vm_compute; reflexivity. }
    unfold InitExecutor, make_chan. rewrite Hwrap.
    destruct (makechan_max <? 0) eqn:Hneg; [lia|]. simpl.
    eexists. split; [reflexivity|]. intros es p Hrun.
    apply run_without_workers in Hrun as (Hw & Hq & Hs & Hch); try done.
    + split; [done|]. intros k.
      unfold ExecuteTestCaseWithOptions_send. rewrite Hq.
      by destruct (senders p !! k).
    + simpl. by replace (Z.to_nat maxWorkers) with 0%nat by lia.
Qed.

End pool_props.
End pool_props.

Module pool_props_examples.
Import models executor pool_terms pool_more pool_props demo demo_more.

(** X15 at work: the trace [cancelled7] with and without its
    cancellation. *)
Lemma cancellation_is_bookkeeping_witness :
  ∃ p' q' : Pool,
    run pool1 cancelled7 = Some p'
    ∧ run pool1 (uncancelled cancelled7) = Some q'
    ∧ work q' = work p'
    ∧ workers p' = [Receiving]
    ∧ (∃ ch, resultChans p' !! 0%nat = Some ch ∧ length (buf ch) = 1%nat).
Proof.
  edestruct cancellation_is_bookkeeping
    with (es := cancelled7) (p := pool1) as (q' & Hq & Hwork & _);
    [vm_compute; reflexivity|].
  eexists _, q'. split; [vm_compute; reflexivity|].
  split; [exact Hq|]. split; [exact Hwork|].
  split; [reflexivity|]. eexists. split; vm_compute; reflexivity.
Defined.

(** X16 at work: of the two jobs of [twoJobs] the one sent first is the one
    received. *)
Lemma workQueue_is_fifo_witness :
  ∃ p' : Pool,
    run pool1 twoJobs = Some p'
    ∧ jobID <$> sent pool1 twoJobs = [8%N; 7%N]
    ∧ jobID <$> taken pool1 twoJobs = [8%N]
    ∧ jobID <$> buf (workQueue (GlobalExecutor p')) = [7%N].
Proof.
  edestruct workQueue_is_fifo with (es := twoJobs) (p := pool1);
    [vm_compute; reflexivity|].
  eexists. split; [vm_compute; reflexivity|].
  split_and!; vm_compute; reflexivity.
Defined.

(** X17 at work: the result received on channel 0 after [job7] has been
    published. *)
Lemma result_belongs_to_its_job_witness :
  ∃ (p p' : Pool) (result : ExecutionResult) (job : ExecutionJob) (wld : nat),
    run pool1 (job7 ++ [EvPublish 0]) = Some p
    ∧ receive_result p 0%nat = Some (result, p')
    ∧ jobID job = 7%N
    ∧ result = fst (executeTestCase (TestCase_ job) (IsVisual job) wld).
Proof.
  edestruct result_belongs_to_its_job
    with (maxWorkers := 1) (p0 := pool1) (es := job7 ++ [EvPublish 0])
         (c := 0%nat)
    as (job & wld & Hjob & _ & Hres & _);
    [reflexivity | vm_compute; reflexivity | vm_compute; reflexivity |].
  assert (Hid : jobID job = 7%N).
  { vm_compute in Hjob. apply list_elem_of_singleton in Hjob. by rewrite Hjob. }
  eexists _, _, _, job, wld.
  split; [vm_compute; reflexivity|].
  split; [vm_compute; reflexivity|]. split; [exact Hid|exact Hres].
Defined.

(** X18 at work: the worker of [job7] stands at the send. *)
Lemma publish_never_blocks_witness :
  ∃ (p p' : Pool) (job : ExecutionJob) (result : ExecutionResult),
    run pool1 job7 = Some p
    ∧ workers p !! 0%nat = Some (Sending job result)
    ∧ step (W := nat) p (EvPublish 0) = Some p'
    ∧ workers p' = [Receiving].
Proof.
  edestruct publish_never_blocks
    with (maxWorkers := 1) (p0 := pool1) (es := job7) (w := 0%nat)
    as [(p' & Hstep & Hworkers & _) _];
    [reflexivity | vm_compute; reflexivity | vm_compute; reflexivity |].
  eexists _, p', _, _. split; [vm_compute; reflexivity|].
  split; [vm_compute; reflexivity|]. split; [exact Hstep|].
  rewrite Hworkers. reflexivity.
Defined.

(** X19 at work: execution 7 while its job is in the queue. *)
Lemma running_while_in_the_pool_witness :
  ∃ (p : Pool) (job : ExecutionJob),
    run pool1 [register 7; EvEnqueue 0] = Some p
    ∧ buf (workQueue (GlobalExecutor p)) = [job]
    ∧ GetExecutionStatus (GlobalExecutor p) 7 = "running".
Proof.
  edestruct running_while_in_the_pool
    with (maxWorkers := 1) (p0 := pool1) (es := [register 7; EvEnqueue 0])
         (job := {| Execution := {| ID := 7 |}; TestCase_ := testCase "[]";
                    IsVisual := true; ResultChan := 0%nat |})
    as [_ Hstatus];
    [ reflexivity | vm_compute; reflexivity
    | vm_compute; repeat constructor; set_solver
    | intros Hin; repeat (apply elem_of_cons in Hin as [Hin|Hin];
                          [discriminate|]); by apply elem_of_nil in Hin
    | left; vm_compute; repeat constructor |].
  eexists _, _. split; [vm_compute; reflexivity|].
  split; [vm_compute; reflexivity|]. exact Hstatus.
Defined.

(** X20 at work: a pool started with no worker. *)
Lemma InitExecutor_without_workers_witness :
  ∃ p0 p : Pool,
    InitExecutor 0 = Some p0
    ∧ run (W := nat) p0 [register 7; EvCancel 7; register 8] = Some p
    ∧ jobID <$> senders p = [7%N; 8%N]
    ∧ ExecuteTestCaseWithOptions_send p 0 = None.
Proof.
  destruct (InitExecutor_without_workers (W := nat) 0)
    as (_ & _ & p0 & Hinit & Hblocked); [lia|by left|].
  assert (Hp0 : p0 = {| GlobalExecutor :=
                          {| maxWorkers := 0;
                             workQueue := {| cap := 0; buf := [] |};
                             running := ∅ |};
                        workers := []; resultChans := ∅; senders := [] |}).
  { vm_compute in Hinit. by injection Hinit as <-. }
  destruct (Hblocked [register 7; EvCancel 7; register 8]
              (default p0 (run (W := nat) p0
                             [register 7; EvCancel 7; register 8])))
    as (_ & Hsend).
  { rewrite Hp0. vm_compute. reflexivity. }
  eexists p0, _. split; [done|].
  split; [rewrite Hp0; vm_compute; reflexivity|].
  split; [vm_compute; reflexivity|].
  rewrite Hp0 in Hsend. apply (Hsend 0%nat).
Defined.

End pool_props_examples.
